(** * archiyou-core: Bbox and ShapeCollection

    A shallow embedding of [src/Bbox.ts] and of the ShapeCollection class,
    and the properties of the specification checked against it.

    Conventions of the embedding.
    - A JavaScript [number] is a rational ([Q]), and the result of an
      arithmetic operator is the double nearest to the exact result
      ([Js.fl]); NaN, infinities, overflow and underflow are outside the
      model.  Equality of numbers is [Qeq].
    - A method that may throw returns a [completion]; a method that writes
      to the console returns the lines it wrote next to its result.
    - [null]/[undefined] results are [None].
    - The solid-modelling kernel and the classes imported from
      ['./internal'] (Vector, Point, Shape, the type guards, the input
      decorator) are not part of the sources; the few operations the code
      below calls on them are interfaces (type classes) or are modelled
      from the specification, and say so. *)

From Stdlib Require Import QArith Qround Qabs Qpower Qminmax Lqa Lia List Sorted Ascii String ZArith
  Bool.
From stdpp Require Import base option list gmap strings.
Import ListNotations.

Local Open Scope Q_scope.

(* ================================================================== *)
(** * Part I: the program *)
(* ================================================================== *)

(** ** JavaScript values shared by both classes *)

Module Js.

Definition number := Q.

(** What a [throw] carries. *)
Inductive exn :=
| TypeError (what : string)   (* property access or call on null/undefined *)
| Error (msg : string).       (* [throw new Error(msg)] *)

Inductive completion (A : Type) :=
| Normal (a : A)
| Throw (e : exn).
Arguments Normal {A} a.
Arguments Throw {A} e.

(** One line written to the console. *)
Inductive logline :=
| error (msg : string)
| warn (msg : string)
| info (msg : string).

Definition console := list logline.

(** A computation that may throw and that writes to the console. *)
Definition M (A : Type) : Type := completion A * console.

Definition ret {A} (a : A) : M A := (Normal a, []).
Definition throw {A} (e : exn) : M A := (Throw e, []).
Definition log (l : logline) : M unit := (Normal tt, [l]).
Definition lift {A} (c : completion A) : M A := (c, []).

Definition bind {A B} (m : M A) (k : A -> M B) : M B :=
    match m with
    | (Normal a, out) => let '(r, out') := k a in (r, out ++ out')
    | (Throw e, out) => (Throw e, out)
    end.

Definition cbind {A B} (c : completion A) (k : A -> completion B) : completion B :=
    match c with
    | Normal a => k a
    | Throw e => Throw e
    end.

(** The integer nearest to [q]; of two that are as near, the even one. *)
Definition roundTiesToEven (q : Q) : Z :=
    let f := Qfloor q in
    match Qcompare (q - inject_Z f) (1 # 2) with
    | Lt => f
    | Gt => (f + 1)%Z
    | Eq => if Z.even f then f else (f + 1)%Z
    end.

(** The exponent [e] of a positive number: [2^e <= q < 2^(e+1)]. *)
Definition exponent (q : Q) : Z :=
    let e := (Z.log2 (Qnum q) - Z.log2 (Zpos (Qden q)))%Z in
    if Qle_bool (Qpower 2 e) q then e else (e - 1)%Z.

(** [q] rounded to a multiple of [2^(e - 52)]. *)
Definition roundAt (e : Z) (q : Q) : Q :=
    inject_Z (roundTiesToEven (q / Qpower 2 (e - 52))) * Qpower 2 (e - 52).

(** The double nearest to [q]: 53 significant bits, ties to even.  The
      exponent is not bounded. *)
Definition fl (q : Q) : number :=
    let q := Qred q in
    if Qeq_bool q 0 then 0 else Qred (roundAt (exponent (Qabs q)) q).

(** The arithmetic operators [+], [-], [*] and [/]. *)
Definition add (a b : number) : number := fl (a + b).
Definition sub (a b : number) : number := fl (a - b).
Definition div (a b : number) : number := fl (a / b).

(** The comparison operators on numbers. *)
Definition ltb (a b : number) : bool :=
    match a ?= b with Lt => true | _ => false end.
Definition gtb (a b : number) : bool := ltb b a.
Definition leb (a b : number) : bool := negb (ltb b a).
Definition geb (a b : number) : bool := leb b a.
Definition eqb (a b : number) : bool := Qeq_bool a b.

(** [arr[i]] on an array of numbers.  JavaScript yields [undefined] past
      the end; the arrays read through [at_] below always have six
      entries, and the default is never observed. *)
Definition at_ (arr : list number) (i : nat) : number := nth i arr 0.

(** Strings are sequences of 8-bit characters here; [toLowerCase] maps
      the letters A to Z. *)
Definition toLowerCase_char (c : ascii) : ascii :=
    let n := nat_of_ascii c in
    if (65 <=? n)%nat && (n <=? 90)%nat then ascii_of_nat (n + 32) else c.

Fixpoint toLowerCase (s : string) : string :=
    match s with
    | EmptyString => EmptyString
    | String c s' => String (toLowerCase_char c) (toLowerCase s')
    end.

(** [s.includes(sub)] *)
Fixpoint str_includes (s sub : string) : bool :=
    String.prefix sub s ||
    match s with
    | EmptyString => false
    | String _ s' => str_includes s' sub
    end.

(** [s.replace(c, '')] for a one-character pattern: the first occurrence
      goes. *)
Fixpoint str_remove_first (c : ascii) (s : string) : string :=
    match s with
    | EmptyString => EmptyString
    | String c' s' => if Ascii.eqb c' c then s' else String c' (str_remove_first c s')
    end.

End Js.

Declare Scope js_scope.
Delimit Scope js_scope with js.
Notation "'let!' x ':=' m 'in' k" := (Js.bind m (fun x => k))
  (at level 10, x pattern, m at level 200, k at level 200) : js_scope.
Notation "'let?' x ':=' c 'in' k" := (Js.cbind c (fun x => k))
  (at level 10, x pattern, c at level 200, k at level 200) : js_scope.

(** ** The constants and the rounding of the kernel binding

    [this._oc.SHAPE_TOLERANCE] and the rounding behind [Vector.round()] are
    defined outside the sources: they are parameters of the development. *)

Class Tolerances := {
  SHAPE_TOLERANCE : Js.number;
  roundToTolerance : Js.number -> Js.number
}.

(** What the properties below need of them: the rounding is monotone,
    and the tolerance is a double that is not negative. *)
Class TolerancesOk (T : Tolerances) : Prop := {
  round_mono : forall a b, a <= b -> roundToTolerance a <= roundToTolerance b;
  tolerance_nonneg : 0 <= SHAPE_TOLERANCE;
  tolerance_double : Js.fl SHAPE_TOLERANCE == SHAPE_TOLERANCE
}.

(** Modelled from the spec: the rounding pass "neutralizes kernel noise at
    the 1e-7 scale", so the reference instance rounds half up to a fixed
    number of decimals, [Math.round(n * 10^d) / 10^d]. *)
Definition round_decimals (d : nat) (n : Js.number) : Js.number :=
  inject_Z (Qfloor (n * inject_Z (10 ^ Z.of_nat d) + (1 # 2))) / inject_Z (10 ^ Z.of_nat d).

(** Six decimals and a tolerance of 1e-3; the closed examples below use
    coordinates with few binary digits, on which every number of decimals
    agrees. *)
Definition referenceTolerances : Tolerances :=
  {| SHAPE_TOLERANCE := Js.fl (1 # 1000); roundToTolerance := round_decimals 6 |}.

(** The table [SIDE_TO_AXIS] of ['./internal'] is not in the sources: it
    is a parameter, given by its entries in the order [Object.entries]
    lists them (a side name and an axis such as ['-x']). *)
Class SideTable := {
  SIDE_TO_AXIS : list (string * string)
}.

(** The six sides, each with the axis it lies on: the keys of
    [SIDE_TO_BOUND] in [corner], whose two bounds per axis are in this
    order. *)
Definition SIDES_AND_AXES : list (string * string) :=
  [("left", "x"); ("right", "x"); ("front", "y"); ("back", "y"); ("bottom", "z"); ("top", "z")].

(** What the properties of [corner] need of the table: its keys are the
    six side names, and each one is mapped to its own axis, with or
    without a sign. *)
Class SideTableOk (S : SideTable) : Prop := {
  side_axis : forall side axis,
    In (side, axis) SIDE_TO_AXIS -> In (side, Js.str_remove_first "-" axis) SIDES_AND_AXES;
  side_listed : forall side,
    In side (List.map fst SIDES_AND_AXES) -> In side (List.map fst SIDE_TO_AXIS)
}.

(** Modelled from the spec: "side keywords (left/right/front/back/top/
    bottom)", each mapped to the axis it lies on, the lower side with a
    minus sign. *)
Definition referenceSides : SideTable :=
  {| SIDE_TO_AXIS := [("left", "-x"); ("right", "x"); ("front", "-y"); ("back", "y");
                      ("bottom", "-z"); ("top", "z")] |}.

(** ** Vector and Point

    Both are coordinate triples; [Point.toVector] is the identity on the
    coordinates, so one record stands for both. *)

Module Vector.
Import Js.

Record t := mk { x : number; y : number; z : number }.

(** [Vector.round()]: every coordinate through the rounding of the binding. *)
Definition round {T : Tolerances} (v : t) : t :=
  mk (roundToTolerance (x v)) (roundToTolerance (y v)) (roundToTolerance (z v)).

(** Modelled from the spec: the Vector class is not in the sources.
      [subtracted] and [added] work coordinate by coordinate with the
      operators [-] and [+]. *)
Definition subtracted (a b : t) : t := mk (sub (x a) (x b)) (sub (y a) (y b)) (sub (z a) (z b)).
Definition added (a b : t) : t := mk (add (x a) (x b)) (add (y a) (y b)) (add (z a) (z b)).

(** Modelled from the spec: [Vector.distance] is not in the sources.  The
      code only tests [distance(..) == 0]; a Euclidean distance is zero
      exactly when the squared distance is, which is what is computed. *)
Definition distance_sq (a b : t) : number :=
    (x a - x b) * (x a - x b) + (y a - y b) * (y a - y b) + (z a - z b) * (z a - z b).
Definition distance_is_zero (a b : t) : bool := eqb (distance_sq a b) 0.

(** The names of the three coordinates ([MainAxis]). *)
Inductive MainAxis := ax_x | ax_y | ax_z.

(** [v[axis] = value] *)
Definition set (v : t) (axis : MainAxis) (value : number) : t :=
    match axis with
    | ax_x => mk value (y v) (z v)
    | ax_y => mk (x v) value (z v)
    | ax_z => mk (x v) (y v) value
    end.
End Vector.

(** ** Bbox.ts *)

Module Bbox.
Import Js.
Import Vector (x, y, z, MainAxis, ax_x, ax_y, ax_z).
Local Open Scope js_scope.

(** Modelled from the spec: the kernel's bounding box ("box construction
    from two corner points, returning a box handle supporting
    min/max-corner extraction", "box-validity test").  [Bnd_Box_1] is the
    void box of the argument-less constructor, [Bnd_Box_2] the box that
    stores the two points it is given; the gap is always set to 0. *)
Inductive Bnd_Box :=
| Bnd_Box_1
| Bnd_Box_2 (pmin pmax : Vector.t).

Definition IsVoid (b : Bnd_Box) : bool :=
  match b with Bnd_Box_1 => true | Bnd_Box_2 _ _ => false end.

Definition CornerMin (b : Bnd_Box) : completion Vector.t :=
  match b with
  | Bnd_Box_2 pmin _ => Normal pmin
  | Bnd_Box_1 => Throw (Error "Bnd_Box is void")
  end.

Definition CornerMax (b : Bnd_Box) : completion Vector.t :=
  match b with
  | Bnd_Box_2 _ pmax => Normal pmax
  | Bnd_Box_1 => Throw (Error "Bnd_Box is void")
  end.

(** The properties of an instance: [_ocBbox], [position], [bounds]
    ([bounds] is [xmin,xmax, ymin,ymax, zmin,zmax], initially [null]). *)
Record t := mk {
  _ocBbox : option Bnd_Box;
  position : option Vector.t;
  bounds : option (list number)
}.

(** The instance before the constructor body runs. *)
Definition fresh : t := mk None None None.

(** What [create] returns: [null] from its error branch, nothing otherwise. *)
Inductive retval := ret_null | ret_undefined.

(** The literal [0.4]. *)
Definition TOLERANCE_2D : number := fl (4 # 10).

Section Methods.
Context {T : Tolerances}.

(** [this.bounds], a TypeError when an element or a destructuring is asked
    of [null]. *)
Definition bounds_of (this : t) : completion (list number) :=
  match bounds this with
  | Some b => Normal b
  | None => Throw (TypeError "this.bounds is null")
  end.

Definition setBounds (this : t) : completion t :=
  match _ocBbox this with
  | None => Throw (TypeError "this._ocBbox is null")
  | Some oc =>
      let? min := CornerMin oc in
      let? max := CornerMax oc in
      let min := Vector.round min in
      let max := Vector.round max in
      Normal (mk (_ocBbox this) (position this)
                 (Some [x min; x max; y min; y max; z min; z max]))
  end.

Definition min (this : t) : completion Vector.t :=
  let? b := bounds_of this in
  Normal (Vector.mk (at_ b 0) (at_ b 2) (at_ b 4)).

Definition max (this : t) : completion Vector.t :=
  let? b := bounds_of this in
  Normal (Vector.mk (at_ b 1) (at_ b 3) (at_ b 5)).

Definition center (this : t) : completion Vector.t :=
  let? b := bounds_of this in
  let xmin := at_ b 0 in let xmax := at_ b 1 in
  let ymin := at_ b 2 in let ymax := at_ b 3 in
  let zmin := at_ b 4 in let zmax := at_ b 5 in
  Normal (Vector.mk (add xmin (div (sub xmax xmin) 2)) (add ymin (div (sub ymax ymin) 2))
                    (add zmin (div (sub zmax zmin) 2))).

Definition height (this : t) : completion number :=
  let? b := bounds_of this in Normal (sub (at_ b 5) (at_ b 4)).

Definition depth (this : t) : completion number :=
  let? b := bounds_of this in Normal (sub (at_ b 3) (at_ b 2)).

Definition width (this : t) : completion number :=
  let? b := bounds_of this in Normal (sub (at_ b 1) (at_ b 0)).

Definition updateFromOcBbox (this : t) : completion t :=
  let? this := setBounds this in
  let? c := center this in
  Normal (mk (_ocBbox this) (Some c) (bounds this)).

(** The first lines of [create(min, max)]: the two arguments arrive
    converted to Vectors, and [minVec] and [maxVec] are made of them.  The
    comparison for [minZ] is the one of the source: [minv.z < maxv.y]. *)
Definition minmaxVec (min max : Vector.t) : Vector.t * Vector.t :=
  let minv := min in
  let maxv := max in
  let minX := if ltb (x minv) (x maxv) then x minv else x maxv in
  let maxX := if gtb (x maxv) (x minv) then x maxv else x minv in
  let minY := if ltb (y minv) (y maxv) then y minv else y maxv in
  let maxY := if gtb (y maxv) (y minv) then y maxv else y minv in
  let minZ := if ltb (z minv) (y maxv) then z minv else z maxv in
  let maxZ := if gtb (z maxv) (z minv) then z maxv else z minv in
  let minVec := Vector.mk minX minY minZ in
  let maxVec := Vector.mk maxX maxY maxZ in
  (minVec, maxVec).

(** The rest of [create].  [sharedPlanes] only selects the word "2D" or
    "3D" of the last console line, whose text is not modelled beyond its
    level. *)
Definition create (this : t) (min max : Vector.t) : M (t * retval) :=
  let '(minVec, maxVec) := minmaxVec min max in
  if Vector.distance_is_zero minVec maxVec then
    let! _ := log (error "Bbox::constructor: Cannot create Bbox: Given points are the same") in
    ret (this, ret_null)
  else
    let oc := Bnd_Box_2 minVec maxVec in
    let this := mk (Some oc) (position this) (bounds this) in
    let! this := lift (setBounds this) in
    if IsVoid oc then
      let! _ := log (warn "Bbox: Created bad Bbox: please supply a min and max Vector!") in
      ret (this, ret_undefined)
    else
      let! this := lift (updateFromOcBbox this) in
      let! _ := log (info "Bbox::constructor: Succefully created Bbox") in
      ret (this, ret_undefined).

(** [new Bbox(min, max)]: [None] when both corners are left out, the two
    corners otherwise.  The value of [create] is dropped: the expression
    [new Bbox(..)] is the instance whatever [create] returned. *)
Definition constructor (corners : option (Vector.t * Vector.t)) : M t :=
  match corners with
  | None => ret (mk (Some Bnd_Box_1) None None)
  | Some (min, max) =>
      let! r := create fresh min max in
      ret (fst r)
  end.

Definition isPoint (this : t) : completion bool :=
  let? h := height this in
  let? w := width this in
  let? d := depth this in
  Normal (leb h SHAPE_TOLERANCE && leb w SHAPE_TOLERANCE && leb d SHAPE_TOLERANCE).

Definition is2D (this : t) : completion bool :=
  let? h := height this in
  let? w := width this in
  let? d := depth this in
  Normal (leb h (add TOLERANCE_2D SHAPE_TOLERANCE)
          || leb w (add TOLERANCE_2D SHAPE_TOLERANCE)
          || leb d (add TOLERANCE_2D SHAPE_TOLERANCE)).

Definition axisMissingIn2D (this : t) : completion (option MainAxis) :=
  let? is2d := is2D this in
  if negb is2d then Normal None
  else
    let? h := height this in
    if leb h SHAPE_TOLERANCE then Normal (Some ax_z)
    else
      let? w := width this in
      if leb w SHAPE_TOLERANCE then Normal (Some ax_x)
      else Normal (Some ax_y).

(** The [amountVec] of [enlarged] when it reaches the constructor call. *)
Definition amountVec (this : t) (amount : number) : completion Vector.t :=
  let amountVec := Vector.mk amount amount amount in
  let? is2d := is2D this in
  if is2d then
    let? a := axisMissingIn2D this in
    Normal (match a with
            | Some axis => Vector.set amountVec axis 0
            | None => amountVec
            end)
  else Normal amountVec.

(** The two corners that [enlarged] hands to the constructor. *)
Definition enlargedCorners (this : t) (amount : number) : completion (Vector.t * Vector.t) :=
  let? amountVec := amountVec this amount in
  let? mn := min this in
  let? mx := max this in
  Normal (Vector.subtracted mn amountVec, Vector.added mx amountVec).

Definition enlarged (this : t) (amount : number) : M t :=
  let! corners := lift (enlargedCorners this amount) in
  constructor (Some corners).

(** The array [combinedBounds] that the [forEach] of [added] fills. *)
Definition combinedBounds (this other : t) : completion (list number) :=
  let? tb := bounds_of this in
  match tb with
  | [] => Normal []
  | _ =>
      let? ob := bounds_of other in
      Normal (imap (fun i (_ : number) =>
                      if Nat.even i
                      then (if ltb (at_ tb i) (at_ ob i) then at_ tb i else at_ ob i)
                      else (if gtb (at_ tb i) (at_ ob i) then at_ tb i else at_ ob i))
                   tb)
  end.

Definition added (this other : t) : M t :=
  let! cb := lift (combinedBounds this other) in
  constructor (Some (Vector.mk (at_ cb 0) (at_ cb 2) (at_ cb 4),
                     Vector.mk (at_ cb 1) (at_ cb 3) (at_ cb 5))).

(** [copy()]: [new Bbox(this.min(), this.max())] *)
Definition copy (this : t) : M t :=
  let! mn := lift (min this) in
  let! mx := lift (max this) in
  constructor (Some (mn, mx)).


(** [_containsBbox(other)]; [other] is [None] when the caller hands it
    [null]. *)
Definition _containsBbox (this : t) (other : option t) : completion bool :=
  let? tb := bounds_of this in
  match other with
  | None => Throw (TypeError "other is null")
  | Some other =>
      let? ob := bounds_of other in
      Normal (leb (at_ tb 0) (at_ ob 0) && geb (at_ tb 1) (at_ ob 1)
              && leb (at_ tb 2) (at_ ob 2) && geb (at_ tb 3) (at_ ob 3)
              && leb (at_ tb 4) (at_ ob 4) && geb (at_ tb 5) (at_ ob 5))
  end.

(** What [contains(other)] reads of its argument: whether it is a Shape,
    and then either the coordinates of a Vertex or the [bbox()] of
    another Shape. *)
Inductive containsArg :=
| arg_noShape
| arg_vertex (vertex : Vector.t)
| arg_shape (bbox : option t).

(** [contains(other)].  The fourth comparison of the Vertex branch is the
    one of the source: [vertex.x <= this.bounds[3]]. *)
Definition contains (this : t) (other : containsArg) : M bool :=
  match other with
  | arg_noShape =>
      let! _ := log (error "Bbox:contains: Please supply a Shape!") in
      ret false
  | arg_vertex vertex =>
      let! b := lift (bounds_of this) in
      ret (geb (x vertex) (at_ b 0) && leb (x vertex) (at_ b 1)
           && geb (y vertex) (at_ b 2) && leb (x vertex) (at_ b 3)
           && geb (z vertex) (at_ b 4) && leb (z vertex) (at_ b 5))
  | arg_shape bbox => lift (_containsBbox this bbox)
  end.

(** The constants of [corner]. *)
Definition DEFAULT_SIDES : gmap string string :=
  {[ "x" := "left"; "y" := "front"; "z" := "bottom" ]}.

Definition SIDE_TO_BOUND : gmap string nat :=
  {[ "left" := 0%nat; "right" := 1%nat; "front" := 2%nat; "back" := 3%nat;
     "bottom" := 4%nat; "top" := 5%nat ]}.

(** The arguments of the [new Point(x, y, z)] that [corner] ends on: a
    coordinate is [None] when the array is read at [undefined]. *)
Definition cornerPoint : Type := option number * option number * option number.

Section Sides.
Context {S : SideTable}.

(** The object [sides] after the loop over the entries of [SIDE_TO_AXIS]. *)
Definition sidesOf (where_ : string) : gmap string string :=
  let where_ := toLowerCase where_ in
  fold_left (fun sides (entry : string * string) =>
               let '(side, axis) := entry in
               if str_includes where_ side then
                 let a := str_remove_first "-" axis in
                 <[ a := side ]> sides
               else sides)
            SIDE_TO_AXIS DEFAULT_SIDES.

(** [this.bounds[SIDE_TO_BOUND[sides.a]]] *)
Definition boundOfSide (b : list number) (sides : gmap string string) (a : string)
    : option number :=
  side ← sides !! a; i ← SIDE_TO_BOUND !! side; b !! i.

Definition corner (this : t) (where_ : string) : completion cornerPoint :=
  let? pt := isPoint this in
  if pt then
    let? c := center this in
    Normal (Some (x c), Some (y c), Some (z c))
  else
    let sides := sidesOf where_ in
    let? is2d := is2D this in
    let? b := bounds_of this in
    if is2d then
      Normal (boundOfSide b sides "x", boundOfSide b sides "y", Some 0)
    else
      Normal (boundOfSide b sides "x", boundOfSide b sides "y", boundOfSide b sides "z").

(** [diagonal()]: the Vertex at the centre, or the two corners that the
    new Edge is made of. *)
Inductive diagonalShape :=
| diagonal_vertex (c : Vector.t)
| diagonal_edge (start end_ : cornerPoint).

Definition diagonal (this : t) : completion diagonalShape :=
  let? pt := isPoint this in
  if pt then
    let? c := center this in
    Normal (diagonal_vertex c)
  else
    let? is2d := is2D this in
    if is2d then
      let? a := corner this "leftfront" in
      let? b := corner this "rightback" in
      Normal (diagonal_edge a b)
    else
      let? a := corner this "leftfrontbottom" in
      let? b := corner this "rightbacktop" in
      Normal (diagonal_edge a b).

End Sides.

End Methods.
End Bbox.

(** ** ShapeCollection: the values it is given *)

Inductive ShapeType := Vertex | Edge | Wire | Face | Shell | Solid.

#[global] Instance ShapeType_eq_dec : EqDecision ShapeType.
Proof. solve_decision. Defined.

Section Values.
Context {Shape : Type}.

(** The run-time values that reach the collection.  A collection is given
    by the content of its [shapes] array, whose elements are again
    run-time values: nothing in the representation keeps a collection out
    of another one. *)
#[warnings="-register-all"]
Inductive value :=
| VNull                               (* [null] or [undefined] *)
| VCoord (p : Vector.t)               (* a PointLike that is no Vertex: coordinate array, Point, Vector *)
| VShape (s : Shape)                  (* a single entity: Vertex, Edge, Wire, Face, Shell or Solid *)
| VCollection (shapes : list value)   (* a ShapeCollection *)
| VArray (items : list value)         (* an Array that is not a coordinate array *)
| VOther (truthy : bool).             (* anything else; only its truthiness is kept *)

(** Modelled from the spec: the guards [isAnyShapeCollection] and
    [isAnyShape] of ['./internal'] are not in the sources.  The entities
    are "a closed variant set {Point/Vertex, Edge, Wire, Face, Shell,
    Solid}"; a member [s] is a collection when
    [s.type() == 'ShapeCollection']. *)
Definition isAnyShapeCollection (v : value) : bool :=
  match v with VCollection _ => true | _ => false end.

Definition isAnyShape (v : value) : bool :=
  match v with VShape _ => true | _ => false end.

(** [Array.isArray(v) && !isCoordArray(v)] *)
Definition isPlainArray (v : value) : bool :=
  match v with VArray _ => true | _ => false end.

(** [if (v)] *)
Definition truthy (v : value) : bool :=
  match v with VNull => false | VOther b => b | _ => true end.

(** A collection whose [shapes] holds single entities only. *)
Definition flatb (shapes : list value) : bool := forallb isAnyShape shapes.

(** Every collection that occurs in a value, at any depth of arrays, is flat. *)
Fixpoint wfb (v : value) : bool :=
  match v with
  | VCollection shapes => flatb shapes
  | VArray items => forallb wfb items
  | _ => true
  end.

End Values.
Arguments value Shape : clear implicits.

(** The Shape classes are not in the sources.  A [Shape] is an object
    handle (equality of handles is object identity).  [ShapeApi] lists what
    the collection reads of a member, [ShapeKernel] the comparisons and the
    constructions that the kernel answers. *)
Class ShapeApi (Shape : Type) := {
  Shape_eq_dec :: EqDecision Shape;
  Shape_type : Shape -> ShapeType;                  (* [s.type()] *)
  Shape_isEmpty : Shape -> bool;                    (* [s.isEmpty()] *)
  Shape_bbox : Shape -> option Bbox.t               (* [s.bbox()], [null] when it has none *)
}.

Class ShapeKernel (Shape : Type) := {
  Shape_hashcode : Shape -> N;                      (* [s._hashcode()], the kernel's hash code *)
  Shape_equals : Shape -> Shape -> bool;            (* [s.equals(o)]: same geometry *)
  Shape_same : Shape -> value Shape -> bool;        (* [s.same(o)] *)
  Shape_contains : Shape -> Shape -> bool;          (* [s.contains(o)] *)
  Vertex_new : Vector.t -> Shape;                   (* [new Vertex(pointLike)] *)
  Shape_checkDowngrade : Shape -> value Shape;      (* [s.checkDowngrade()] *)
  Shape_subtracted : Shape -> Shape -> value Shape  (* [s._subtracted(o)]: a Shape, a collection or [null] *)
}.

(** What the flatness invariant needs of the kernel: a collection that a
    member's method returns is flat. *)
Class ShapeKernelOk {Shape} (K : ShapeKernel Shape) : Prop := {
  Shape_checkDowngrade_wf : forall s, wfb (Shape_checkDowngrade s) = true;
  Shape_subtracted_wf : forall s o, wfb (Shape_subtracted s o) = true
}.

(** The two flattening helpers of ['./internal'] are not in the sources:
    they are parameters. *)
Class Flatten (Shape : Type) := {
  flattenEntities : value Shape -> value Shape;
  flattenEntitiesToArray : value Shape -> list (value Shape)
}.

(** What the flatness invariant needs of them: they rearrange what they
    are given and make no collection of their own that holds a collection. *)
Class FlattenOk {Shape} (F : Flatten Shape) : Prop := {
  flattenEntities_wf : forall v, wfb v = true -> wfb (flattenEntities v) = true;
  flattenEntitiesToArray_wf :
    forall v, wfb v = true -> forallb wfb (flattenEntitiesToArray v) = true
}.

(** The list that [flattenEntitiesToArray] returns holds no array: every
    array was opened.  Then the point-sequence branch of [_addEntities] is
    never taken, and one unit of fuel is enough. *)
Class ArraysOpened {Shape} (F : Flatten Shape) : Prop := {
  flattenEntitiesToArray_opened :
    forall v, forallb (fun e => negb (isPlainArray e)) (flattenEntitiesToArray v) = true
}.

(** Modelled from the spec: "all forms recursively flattened into one
    linear list before classification".  Arrays are opened at every depth;
    a collection stays one element (ingestion splices it in itself). *)
Fixpoint flattenToList {Shape} (v : value Shape) : list (value Shape) :=
  match v with
  | VArray items => flat_map flattenToList items
  | _ => [v]
  end.

Definition referenceFlatten (Shape : Type) : Flatten Shape :=
  {| flattenEntities := fun v => VArray (flattenToList v);
     flattenEntitiesToArray := flattenToList |}.

(** [Array.prototype.sort] is the engine's; the order it leaves for an
    arbitrary comparison function is not fixed by the language. *)
Class ArraySort (Shape : Type) := {
  Array_sort : (value Shape -> value Shape -> Js.number) -> list (value Shape) -> list (value Shape)
}.

Class ArraySortOk {Shape} (A : ArraySort Shape) : Prop := {
  Array_sort_perm : forall func arr, Permutation (Array_sort func arr) arr
}.

(** ** ShapeCollection *)

Module ShapeCollection.
Import Js.
Local Open Scope js_scope.

(** A method that, besides throwing and logging, may leave what is
    followed here ([None]): it runs out of the fuel that bounds the nesting
    of constructor calls, or it overwrites a member of the instance, which
    from then on is not the object that the class describes. *)
Definition R (A : Type) : Type := option (M A).

Definition rret {A} (a : A) : R A := Some (ret a).
Definition rlift {A} (m : M A) : R A := Some m.
Definition rlog (l : logline) : R unit := Some (log l).

Definition rbind {A B} (m : R A) (k : A -> R B) : R B :=
  match m with
  | None => None
  | Some (Throw e, out) => Some (Throw e, out)
  | Some (Normal a, out) =>
      match k a with
      | None => None
      | Some (r, out') => Some (r, out ++ out')
      end
  end.

Notation "'let*' x ':=' m 'in' k" := (rbind m (fun x => k))
  (at level 10, x pattern, m at level 200, k at level 200) : js_scope.

(** [arr.forEach(body)] threading the variables the body assigns. *)
Fixpoint forEach {A S} (body : S -> A -> R S) (arr : list A) (s : S) : R S :=
  match arr with
  | [] => rret s
  | a :: arr => let* s := body s a in forEach body arr s
  end.

(** [arr.filter(p)] and [arr.find(p) != null] for a callback that may throw. *)
Fixpoint filterC {A} (p : A -> completion bool) (arr : list A) : completion (list A) :=
  match arr with
  | [] => Normal []
  | a :: arr =>
      let? keep := p a in
      let? rest := filterC p arr in
      Normal (if keep then a :: rest else rest)
  end.

Fixpoint existsC {A} (p : A -> completion bool) (arr : list A) : completion bool :=
  match arr with
  | [] => Normal false
  | a :: arr =>
      let? found := p a in
      if found then Normal true else existsC p arr
  end.

Fixpoint mapC {A B} (f : A -> completion B) (arr : list A) : completion (list B) :=
  match arr with
  | [] => Normal []
  | a :: arr =>
      let? b := f a in
      let? rest := mapC f arr in
      Normal (b :: rest)
  end.

(** [arr.find(p)], [None] for [undefined], and [arr.every(p)]. *)
Fixpoint findC {A} (p : A -> completion bool) (arr : list A) : completion (option A) :=
  match arr with
  | [] => Normal None
  | a :: arr =>
      let? found := p a in
      if found then Normal (Some a) else findC p arr
  end.

Fixpoint everyC {A} (p : A -> completion bool) (arr : list A) : completion bool :=
  match arr with
  | [] => Normal true
  | a :: arr =>
      let? ok := p a in
      if ok then everyC p arr else Normal false
  end.

(** [TYPES_ORDERED.indexOf(name)], [-1] when absent. *)
Fixpoint indexOf {A} `{EqDecision A} (arr : list A) (a : A) : Z :=
  match arr with
  | [] => (-1)%Z
  | b :: arr =>
      if decide (b = a) then 0%Z
      else let i := indexOf arr a in if (i <? 0)%Z then (-1)%Z else (i + 1)%Z
  end.

(** What [e.type()] answers. *)
Inductive typeName := ShapeName (ty : ShapeType) | CollectionName.

#[global] Instance typeName_eq_dec : EqDecision typeName.
Proof. solve_decision. Defined.

Section Methods.
Context {Shape : Type} {api : ShapeApi Shape} {K : ShapeKernel Shape}
        {F : Flatten Shape} {A : ArraySort Shape} {T : Tolerances}.

Local Abbreviation value := (value Shape).

(** The instance: [shapes] and [_groups], the own properties of the group
    table in the order [Object.entries] lists them.  An array is given by
    its content: no group shares its array with [shapes] (only
    [_defineGroup(name, this)], which is not followed here, would bring
    that about), so that what is pushed onto [shapes] reaches no group. *)
Record t := mk {
  shapes : list value;
  _groups : list (string * list value)
}.

Definition empty : t := mk [] [].

(** *** Type guards and method calls on run-time values

    Modelled from the spec: the guards of ['./internal'] are not in the
    sources.  A coordinate-like value is a coordinate array, Point or
    Vector, or a Vertex (the code tests [instanceof Vertex] under
    [isPointLike]); a point sequence is an array of coordinate-likes. *)
Definition isPointLike (v : value) : bool :=
  match v with
  | VCoord _ => true
  | VShape s => bool_decide (Shape_type s = Vertex)
  | _ => false
  end.

Definition isPointLikeSequence (v : value) : bool :=
  match v with
  | VArray items => forallb isPointLike items
  | _ => false
  end.

(** A method of the Shape interface called on an element: a TypeError on
    anything that is not a Shape (no such element exists in a flat
    collection). *)
Definition as_shape (v : value) : completion Shape :=
  match v with
  | VShape s => Normal s
  | _ => Throw (TypeError "not a Shape")
  end.

(** [v.type()] *)
Definition typeOf (v : value) : completion typeName :=
  match v with
  | VShape s => Normal (ShapeName (Shape_type s))
  | VCollection _ => Normal CollectionName
  | _ => Throw (TypeError "type is not a function")
  end.

(** [a == b] on members: the identity of Shape objects. *)
Definition identical (a b : value) : bool :=
  match a, b with
  | VShape s, VShape s' => bool_decide (s = s')
  | VNull, VNull => true
  | _, _ => false
  end.

Definition includes (arr : list value) (v : value) : bool := existsb (identical v) arr.

(** Modelled from the spec: the input decorator is not in the sources.
    ['AnyShape'] lets a single Shape through and rejects the call
    otherwise; a conversion to ['ShapeCollection'] hands the method the
    argument itself when it is a collection and a new collection made of
    it otherwise. *)
Definition checkInput_AnyShape (v : value) : completion value :=
  if isAnyShape v then Normal v else Throw (Error "checkInput: AnyShape expected").

Definition checkInput_ShapeCollection (construct : value -> R t) (v : value) : R t :=
  match v with
  | VCollection ss => rret (mk ss [])
  | _ => construct v
  end.

(** *** Ingestion *)

(** The two arrays the loop of [_addEntities] extends. *)
Record ingest := mkIngest { i_shapes : list value; addedShapes : list value }.

Definition push_both (st : ingest) (v : value) : ingest :=
  mkIngest (i_shapes st ++ [v]) (addedShapes st ++ [v]).

(** [(!(es instanceof Vertex)) ? new Vertex(es) : es] under [isPointLike]. *)
Definition toVertex (es : value) : value :=
  match es with
  | VCoord p => VShape (Vertex_new p)
  | _ => es
  end.

(** [getShapesByType(type)]; [construct] is [new ShapeCollection(..)]. *)
Definition getShapesByType_with (construct : value -> R t) (this : t) (ty : ShapeType) : R t :=
  let* found := rlift (lift (filterC (fun s => let? n := typeOf s in
                                              Normal (bool_decide (n = ShapeName ty)))
                                     (shapes this))) in
  construct (VArray found).

(** The body of [points.forEach(e => ..)] in the point-sequence branch. *)
Definition addPoint (construct : value -> R t) (st : ingest) (e : value) : R ingest :=
  if isPointLike e then
    rret (push_both st (toVertex e))
  else if isAnyShape e then
    match as_shape e with
    | Normal s =>
        if negb (Shape_isEmpty s) then rret (push_both st e)
        else let* _ := rlog (warn "ShapeCollection::_addEntities: Empty Shape detected. Skipped!") in
             rret st
    | Throw err => rlift (throw err)
    end
  else if isAnyShapeCollection e then
    match e with
    | VCollection es =>
        let* vertices := getShapesByType_with construct (mk es []) Vertex in
        (* this.concat(vertices); addedShapes = addedShapes.concat(vertices) *)
        rret (mkIngest (i_shapes st ++ shapes vertices)
                       (addedShapes st ++ [VCollection (shapes vertices)]))
    | _ => rret st
    end
  else rret st.

(** The body of [allEntities.forEach(es => ..)].  The first test of the
    source is [es === null]; an [undefined] element goes on to the last
    branch, which, like the first, only warns and skips. *)
Definition addEntity (construct : value -> R t) (st : ingest) (es : value) : R ingest :=
  match es with
  | VNull =>
      let* _ := rlog (warn "ShapeCollection::_addEntities: Skipped null!") in
      rret st
  | _ =>
      if isPointLike es then
        rret (push_both st (toVertex es))
      else if isAnyShapeCollection es then
        match es with
        | VCollection ss => rret (mkIngest (i_shapes st ++ ss) (addedShapes st ++ ss))
        | _ => rret st
        end
      else if isPointLikeSequence es then
        let* points := construct es in
        forEach (addPoint construct) (shapes points) st
      else if isAnyShape es then
        match as_shape es with
        | Normal s =>
            if negb (Shape_isEmpty s) then rret (push_both st es)
            else let* _ := rlog (warn "ShapeCollection::_addEntities: Empty Shape detected. Skipped!") in
                 rret st
        | Throw err => rlift (throw err)
        end
      else
        let* _ := rlog (warn "ShapeCollection::_addEntities: Unknown entity: Skipped!") in
        rret st
  end.

(** *** The group table *)

(** The properties that the table, a plain object, inherits from
    [Object.prototype]: functions, and the prototype itself under
    ['__proto__']. *)
Definition OBJECT_PROTOTYPE_KEYS : list string :=
  ["constructor"; "__defineGetter__"; "__defineSetter__"; "hasOwnProperty";
   "__lookupGetter__"; "__lookupSetter__"; "isPrototypeOf"; "propertyIsEnumerable";
   "toString"; "valueOf"; "__proto__"; "toLocaleString"].

(** The array of the group [name], when the table has one of its own. *)
Definition own_group (groups : list (string * list value)) (name : string)
    : option (list value) :=
  snd <$> List.find (fun kv => String.eqb (fst kv) name) groups.

(** [this._groups[name]]: the array of a group, an inherited property, of
    which only the truthiness is kept, or [undefined]. *)
Definition groups_at (groups : list (string * list value)) (name : string) : value :=
  match own_group groups name with
  | Some g => VArray g
  | None => if existsb (String.eqb name) OBJECT_PROTOTYPE_KEYS then VOther true else VNull
  end.

(** A key that is an array index: the decimal numeral, without leading
    zeros, of a number below [2^32 - 1]. *)
Definition digit (c : ascii) : option N :=
  let n := N_of_ascii c in
  if (48 <=? n)%N && (n <=? 57)%N then Some (n - 48)%N else None.

Fixpoint numeral (s : string) (acc : N) : option N :=
  match s with
  | EmptyString => Some acc
  | String c s' => d ← digit c; numeral s' (acc * 10 + d)%N
  end.

Definition arrayIndex (k : string) : option N :=
  match k with
  | EmptyString => None
  | String c s' =>
      if Ascii.eqb c "0" && negb (String.eqb s' "") then None
      else n ← numeral k 0; if (n <? 2 ^ 32 - 1)%N then Some n else None
  end.

(** The new key [k] is listed before the key [k']: array indices come
    first, in ascending order, the other keys in the order they were
    added. *)
Definition key_before (k k' : string) : bool :=
  match arrayIndex k, arrayIndex k' with
  | Some n, Some n' => (n <? n')%N
  | Some _, None => true
  | None, _ => false
  end.

(** [this._groups[k] = v] for a key that the table does not have. *)
Fixpoint groups_define (groups : list (string * list value)) (k : string) (v : list value)
    : list (string * list value) :=
  match groups with
  | [] => [(k, v)]
  | (k', v') :: groups' =>
      if key_before k k' then (k, v) :: groups
      else (k', v') :: groups_define groups' k v
  end.

(** The end of [_addEntities]: [addedShapes] becomes the group when the
    table answers nothing for the name.  For a known name the source
    calls [concat] and drops the array it returns; on what the table
    inherits there is no [concat] to call. *)
Definition registerGroup (groups : list (string * list value)) (group : option string)
    (added : list value) : completion (list (string * list value)) :=
  match group with
  | Some g =>
      if String.eqb g "" then Normal groups
      else
        match groups_at groups g with
        | VArray _ => Normal groups
        | VNull => Normal (groups_define groups g added)
        | _ => Throw (TypeError "this._groups[group].concat is not a function")
        end
  | None => Normal groups
  end.

(** The fields and the methods of the class, and its getter [length]. *)
Definition MEMBERS : list string :=
  ["_oc"; "_geom"; "_obj"; "shapes"; "_groups"; "constructor"; "fromAll"; "_addEntities";
   "addGroup"; "_defineGroup"; "groups"; "getGroup"; "_setFakeArrayKeys";
   "_setFakeGroupKeys"; "_toOcListOfShape"; "toOcShapes"; "toOcCompound"; "getShapes";
   "length"; "concat"; "map"; "every"; "setObj"; "add"; "prepend"; "prepended"; "replace";
   "attribute"; "move"; "moved"; "moveTo"; "moveToOrigin"; "rotateEuler"; "rotatedEuler";
   "rotate"; "rotateX"; "rotateY"; "rotateZ"; "rotateAround"; "scale"; "scaled";
   "alignByPoints"; "alignedByPoints"; "rotateVecToVec"; "array"; "_array1D"; "mirrored";
   "mirrorX"; "_mirroredX"; "mirroredX"; "mirrorY"; "_mirroredY"; "mirroredY"; "mirrorZ";
   "_mirroredZ"; "mirroredZ"; "offset"; "offsetted"; "extrude"; "extruded"; "thicken";
   "thickened"; "_copy"; "copy"; "shallowCopy"; "type"; "isShape"; "isShapeCollection";
   "center"; "bbox"; "_hashcode"; "_intersections"; "intersections"; "intersecting";
   "intersectors"; "contains"; "containers"; "_intersectionsWithEdge"; "vertices"; "edges";
   "wires"; "faces"; "shells"; "solids"; "select"; "push"; "pop"; "reverse";
   "removeFromScene"; "replaceShape"; "_project"; "project"; "_elevation"; "elevation";
   "_isometry"; "isometry"; "forEach"; "sort"; "find"; "filter"; "reduce"; "at"; "not";
   "remove"; "isEmpty"; "count"; "specific"; "getShapesByType"; "getShapesByTypes";
   "getSubShapes"; "first"; "last"; "children"; "all"; "lowestType"; "has"; "hasType";
   "indexOf"; "slice"; "getEquals"; "combine"; "combined"; "upgrade"; "upgraded";
   "checkDowngrade"; "unique"; "distinct"; "_sewed"; "_connectLinearShapes";
   "_removeContained"; "_removedContained"; "equals"; "checkSingle"; "collapse"; "toArray";
   "_subtracted"; "subtracted"; "subtract"; "_unioned"; "unioned"; "union"; "addToScene";
   "color"; "style"; "object"; "checkObj"; "name"; "getName"; "hide"; "layout";
   "_placeLine"; "_packBinShapes"; "_makeBinPackBox"; "_calculateSizeSkewness";
   "toMeshShapes"; "toMeshShapeBuffer"; "toData"; "toString"; "toSvg";
   "_getDimensionLinesSvgElems"].

(** [_setFakeGroupKeys()]: every group but one named ['shapes'] is made a
    collection and assigned to [this[k]].  The new collection is not part
    of the state.  A key that names a member of the instance, its own or
    inherited, overwrites it (or, for [length], has no setter to go to),
    and the instance is not followed further. *)
Definition _setFakeGroupKeys_with (construct : value -> R t)
    (groups : list (string * list value)) : R unit :=
  forEach (fun (_ : unit) (entry : string * list value) =>
             let '(k, v) := entry in
             if negb (String.eqb k "shapes") then
               let* _ := construct (VArray v) in
               if existsb (String.eqb k) (MEMBERS ++ OBJECT_PROTOTYPE_KEYS) then None else rret tt
             else rret tt)
          groups tt.

Definition _addEntities_with (construct : value -> R t) (this : t) (entities : value)
    (group : option string) : R t :=
  match entities with
  | VNull => rret this
  | _ =>
      let allEntities := flattenEntitiesToArray entities in
      let* st := forEach (addEntity construct) allEntities (mkIngest (shapes this) []) in
      let* groups := rlift (lift (registerGroup (_groups this) group (addedShapes st))) in
      let* _ := _setFakeGroupKeys_with construct groups in
      rret (mk (i_shapes st) groups)
  end.

Definition fromAll_with (addEntities : t -> value -> option string -> R t) (this : t)
    (entities : value) : R t :=
  let entities := if isPlainArray entities then entities else VArray [entities] in
  let entities := flattenEntities entities in
  addEntities this entities None.

Definition constructor_with (addEntities : t -> value -> option string -> R t)
    (entities : value) (args : list value) : R t :=
  if truthy entities then
    let entities :=
      match entities with
      | VArray items => VArray (items ++ args)
      | _ => VArray (entities :: args)
      end in
    let entities := flattenEntities entities in
    fromAll_with addEntities empty entities
  else rret empty.

(** [_addEntities(entities, group)].  The point-sequence branch and
    [_setFakeGroupKeys] call the constructor, which calls [_addEntities]
    again: [fuel] bounds that nesting.  The index properties ([this[0]],
    ..) set by [_setFakeArrayKeys] are copies that no method reads back
    into [shapes]; they are not part of the state. *)
Fixpoint _addEntities (fuel : nat) (this : t) (entities : value) (group : option string)
    : R t :=
  match fuel with
  | O => None
  | S fuel =>
      _addEntities_with (fun es => constructor_with (_addEntities fuel) es [])
                        this entities group
  end.

(** [this.fromAll(entities)] *)
Definition fromAll (fuel : nat) (this : t) (entities : value) : R t :=
  fromAll_with (_addEntities fuel) this entities.

(** [new ShapeCollection(entities, ...args)] *)
Definition constructor (fuel : nat) (entities : value) (args : list value) : R t :=
  constructor_with (_addEntities fuel) entities args.


Definition add (fuel : nat) (this : t) (shapes : value) (args : list value) : R t :=
  _addEntities fuel this (VArray (shapes :: args)) None.

(** [this._setFakeGroupKeys()] *)
Definition _setFakeGroupKeys (fuel : nat) (this : t) : R unit :=
  _setFakeGroupKeys_with (fun es => constructor fuel es []) (_groups this).

(** [addGroup(group, entities)] *)
Definition addGroup (fuel : nat) (this : t) (group : option string) (entities : value) : R t :=
  let* c := _addEntities fuel this entities group in
  let* _ := _setFakeGroupKeys fuel c in
  rret c.

(** [getGroup(name)]: a new collection of what the table answers for the
    name, or [null]. *)
Definition getGroup (fuel : nat) (this : t) (name : string) : R (option t) :=
  if negb (String.eqb name "") then
    let g := groups_at (_groups this) name in
    if truthy g then let* c := constructor fuel g [] in rret (Some c)
    else rret None
  else rret None.

(** *** Array-like methods that write [shapes] *)

Definition toArray (this : t) : list value := shapes this.

Definition concat (fuel : nat) (this : t) (other : value) : R t :=
  let* other := checkInput_ShapeCollection (fun v => constructor fuel v []) other in
  rret (mk (shapes this ++ shapes other) (_groups this)).

(** [map(mapFunc)]: a new collection of the mapped array. *)
Definition map (fuel : nat) (this : t) (mapFunc : value -> completion value) : R t :=
  let* mapped := rlift (lift (mapC mapFunc (shapes this))) in
  constructor fuel (VArray mapped) [].

(** [prepend] assigns a new array; [push], [pop], [reverse] and [sort]
    change the array [shapes] itself. *)
Definition prepend (this : t) (shape : value) : M t :=
  let! shape := lift (checkInput_AnyShape shape) in
  ret (mk ([shape] ++ shapes this) (_groups this)).

Definition push (this : t) (shape : value) : M t :=
  let! shape := lift (checkInput_AnyShape shape) in
  ret (mk (shapes this ++ [shape]) (_groups this)).

Definition pop (this : t) : t := mk (removelast (shapes this)) (_groups this).

Definition reverse (this : t) : t := mk (rev (shapes this)) (_groups this).

Definition sort (this : t) (func : value -> value -> number) : t :=
  mk (Array_sort func (shapes this)) (_groups this).

(** [has(s)].  In the collection branch the source hands [same] the
    collection [s] itself at every turn of its loop, not the member
    [collShape]. *)
Definition has (this : t) (s : value) : completion bool :=
  if isAnyShape s then
    existsC (fun shape => let? sh := as_shape shape in Normal (Shape_same sh s)) (shapes this)
  else
    match s with
    | VCollection collectionShapes =>
        existsC (fun collShape =>
                   existsC (fun shape => let? sh := as_shape shape in Normal (Shape_same sh s))
                           (shapes this))
                collectionShapes
    | _ => Throw (TypeError "s.all is not a function")
    end.

Definition remove (fuel : nat) (this : t) (shapes' : value) : R t :=
  let* removeShapes := checkInput_ShapeCollection (fun v => constructor fuel v []) shapes' in
  let* kept := rlift (lift (filterC (fun s => let? h := has removeShapes s in Normal (negb h))
                                    (shapes this))) in
  rret (mk kept (_groups this)).

(** [isEmpty()]: "Remove everything". *)
Definition isEmpty (this : t) : t := mk [] (_groups this).

Definition count (this : t) : nat := length (shapes this).

(** [this.shapes[0]], [undefined] on an empty array. *)
Definition first (this : t) : value := nth 0 (shapes this) VNull.

(** [this.shapes[this.shapes.length - 1]] *)
Definition last (this : t) : value := List.last (shapes this) VNull.

Definition getShapesByType (fuel : nat) (this : t) (ty : ShapeType) : R t :=
  getShapesByType_with (fun v => constructor fuel v []) this ty.

(** [shallowCopy()] *)
Definition shallowCopy (fuel : nat) (this : t) : R t :=
  constructor fuel (VArray (shapes this)) [].

(** [find(func)] and [every(checkFunc)] *)
Definition find (this : t) (func : value -> completion bool) : completion value :=
  let? found := findC func (shapes this) in
  Normal (default VNull found).

Definition every (this : t) (checkFunc : value -> completion bool) : completion bool :=
  everyC checkFunc (shapes this).

(** [equals(other)]: the callback of [every] answers what [find]
    returned, a Shape or [undefined]. *)
Definition equals (this other : t) : completion bool :=
  if negb (count this =? count other)%nat then Normal false
  else
    every this (fun shape =>
      let? found := find other (fun otherShape =>
                      let? o := as_shape otherShape in
                      let? s := as_shape shape in
                      Normal (Shape_equals o s)) in
      Normal (truthy found)).


Definition checkDowngrade (fuel : nat) (this : t) : R t :=
  let* mapped := map fuel this (fun shape => let? s := as_shape shape in
                                             Normal (Shape_checkDowngrade s)) in
  rret (mk (toArray mapped) (_groups this)).

(** *** distinct and unique *)

(** The object [distinctShapesByHash]: its own properties in the order
    [Object.values] lists them.  A key that is an array index (below
    [2^32 - 1]) is listed before every other key, in ascending order; the
    other keys follow in the order they were added. *)
Definition isArrayIndex (k : N) : bool := (k <? 2 ^ 32 - 1)%N.

Definition obj_get (o : list (N * value)) (k : N) : option value :=
  snd <$> List.find (fun kv => (fst kv =? k)%N) o.

Fixpoint obj_define (o : list (N * value)) (k : N) (v : value) : list (N * value) :=
  match o with
  | [] => [(k, v)]
  | (k', v') :: o' =>
      if isArrayIndex k && (negb (isArrayIndex k') || (k <? k')%N)
      then (k, v) :: o
      else (k', v') :: obj_define o' k v
  end.

Definition Object_values (o : list (N * value)) : list value := List.map snd o.

(** The [forEach] of [distinct], with the object it fills. *)
Fixpoint distinct_forEach (arr : list value) (distinctShapesByHash : list (N * value))
    : completion (list (N * value)) :=
  match arr with
  | [] => Normal distinctShapesByHash
  | shape :: arr =>
      let? s := as_shape shape in
      let hash := Shape_hashcode s in
      match obj_get distinctShapesByHash hash with
      | None => distinct_forEach arr (obj_define distinctShapesByHash hash shape)
      | Some _ => distinct_forEach arr distinctShapesByHash
      end
  end.

Definition distinct (this : t) : M t :=
  let! distinctShapesByHash := lift (distinct_forEach (shapes this) []) in
  ret (mk (Object_values distinctShapesByHash) (_groups this)).

(** [unique()].  [usedShapes.concat(..)] returns a new array that the
    source drops: [usedShapes] is the empty array at every turn.  The
    result is the pair of [this] (which [distinct] has rewritten) and the
    new collection. *)
Definition unique (fuel : nat) (this : t) : R (t * t) :=
  let* this := rlift (distinct this) in
  let shapes := toArray this in
  let usedShapes : list value := [] in
  let* uniqueShapes :=
    forEach (fun uniqueShapes curShape =>
               if negb (includes usedShapes curShape) then
                 let uniqueShapes := uniqueShapes ++ [curShape] in
                 let* equalShapes :=
                   rlift (lift (filterC (fun testShape => let? c := as_shape curShape in
                                                          let? o := as_shape testShape in
                                                          Normal (Shape_equals c o)) shapes)) in
                 let _dropped := usedShapes ++ (equalShapes ++ [curShape]) in
                 rret uniqueShapes
               else rret uniqueShapes)
            shapes [] in
  let* result := constructor fuel (VArray uniqueShapes) [] in
  rret (this, result).

(** *** Containment and subtraction *)

Definition _removeContained (this : t) : M t :=
  let! notContainedShapes :=
    lift (filterC (fun curShape =>
                     let? isContained :=
                       existsC (fun otherShape =>
                                  if negb (identical curShape otherShape) then
                                    let? o := as_shape otherShape in
                                    let? c := as_shape curShape in
                                    Normal (Shape_contains o c)
                                  else Normal false) (shapes this) in
                     Normal (negb isContained)) (shapes this)) in
  ret (mk notContainedShapes (_groups this)).

Definition _subtracted (fuel : nat) (this : t) (other : value) : R t :=
  let* newShapes := constructor fuel VNull [] in
  forEach (fun newShapes shape =>
             if isAnyShape other then
               let* r := rlift (lift (let? s := as_shape shape in
                                      let? o := as_shape other in
                                      Normal (Shape_subtracted s o))) in
               add fuel newShapes r []
             else
               match other with
               | VCollection otherShapes =>
                   forEach (fun newShapes otherShape =>
                              let* r := rlift (lift (let? s := as_shape shape in
                                                     let? o := as_shape otherShape in
                                                     Normal (Shape_subtracted s o))) in
                              add fuel newShapes r [])
                           otherShapes newShapes
               | _ => rlift (throw (TypeError "other.forEach is not a function"))
               end)
          (shapes this) newShapes.

Definition subtract (fuel : nat) (this : t) (other : value) : R t :=
  let* r := _subtracted fuel this other in
  rret (mk (toArray r) (_groups this)).

(** *** Aggregates *)

(** The [forEach] of [bbox()], from index [i] on, with [combinedBbox]. *)
Fixpoint bbox_forEach (arr : list value) (i : nat) (combinedBbox : option Bbox.t)
    : M (option Bbox.t) :=
  match arr with
  | [] => ret combinedBbox
  | shape :: arr =>
      if (0 <? i)%nat then
        let! s := lift (as_shape shape) in
        match Shape_bbox s with
        | Some b =>
            match combinedBbox with
            | Some c => let! c' := Bbox.added c b in bbox_forEach arr (S i) (Some c')
            | None => throw (TypeError "combinedBbox is null")
            end
        | None => bbox_forEach arr (S i) combinedBbox
        end
      else bbox_forEach arr (S i) combinedBbox
  end.

(** [bbox()]: the box of the first member, then [added] over the others. *)
Definition bbox (this : t) : M (option Bbox.t) :=
  let! f := lift (as_shape (first this)) in
  let combinedBbox := Shape_bbox f in
  bbox_forEach (shapes this) O combinedBbox.

Definition center (this : t) : M (option Vector.t) :=
  match count this with
  | O => ret None
  | 1%nat =>
      let! f := lift (as_shape (first this)) in
      match Shape_bbox f with
      | Some b => let! c := lift (Bbox.center b) in ret (Some c)
      | None => ret None
      end
  | _ =>
      let! b := bbox this in
      match b with
      | Some b => let! c := lift (Bbox.center b) in ret (Some c)
      | None => throw (TypeError "this.bbox() is null")
      end
  end.

Definition TYPES_ORDERED : list typeName :=
  [ShapeName Solid; ShapeName Shell; ShapeName Face; ShapeName Wire; ShapeName Edge;
   ShapeName Vertex].

(** The [forEach] of [lowestType], with the two variables it assigns. *)
Fixpoint lowestType_forEach (arr : list value) (lowestType : option typeName)
    (lowestTypeIndex : Z) : completion (option typeName * Z) :=
  match arr with
  | [] => Normal (lowestType, lowestTypeIndex)
  | s :: arr =>
      let? ty := typeOf s in
      let i := indexOf TYPES_ORDERED ty in
      if (lowestTypeIndex <? i)%Z then lowestType_forEach arr (Some ty) i
      else lowestType_forEach arr lowestType lowestTypeIndex
  end.

Definition lowestType (this : t) : completion (option typeName) :=
  let? r := lowestType_forEach (shapes this) None (-1)%Z in
  Normal (fst r).

(** *** The methods that write [shapes], as one family *)

Inductive mutation :=
| by_addEntities (entities : value) (group : option string)
| by_fromAll (entities : value)
| by_add (shapes : value) (args : list value)
| by_addGroup (group : option string) (entities : value)
| by_concat (other : value)
| by_prepend (shape : value)
| by_push (shape : value)
| by_pop
| by_reverse
| by_sort (func : value -> value -> number)
| by_remove (shapes : value)
| by_isEmpty
| by_checkDowngrade
| by_distinct
| by_unique
| by_removeContained
| by_subtract (other : value).

(** [this] after the call. *)
Definition apply (fuel : nat) (m : mutation) (this : t) : R t :=
  match m with
  | by_addEntities entities group => _addEntities fuel this entities group
  | by_fromAll entities => fromAll fuel this entities
  | by_add shapes args => add fuel this shapes args
  | by_addGroup group entities => addGroup fuel this group entities
  | by_concat other => concat fuel this other
  | by_prepend shape => rlift (prepend this shape)
  | by_push shape => rlift (push this shape)
  | by_pop => rret (pop this)
  | by_reverse => rret (reverse this)
  | by_sort func => rret (sort this func)
  | by_remove shapes => remove fuel this shapes
  | by_isEmpty => rret (isEmpty this)
  | by_checkDowngrade => checkDowngrade fuel this
  | by_distinct => rlift (distinct this)
  | by_unique => let* r := unique fuel this in rret (fst r)
  | by_removeContained => rlift (_removeContained this)
  | by_subtract other => subtract fuel this other
  end.



End Methods.
End ShapeCollection.

(** ** Object identity: the methods that transform members in place

    The bulk transforms forward to the member's own method, which changes
    the member object itself, and the "create copy" variants work on
    copies.  Here every Shape object and every ShapeCollection object has
    an address, and the store holds what each one currently is. *)

(** The kernel shape a Shape object wraps, and what the member's own
    methods do to it (they are not in the sources). *)
Class GeomApi (G : Type) := {
  geom_type : G -> ShapeType;
  geom_isEmpty : G -> bool;
  geom_bbox : G -> option Bbox.t;
  geom_copy : G -> G;                                         (* [s._copy()] *)
  geom_move : Vector.t -> G -> G;                             (* [s.move(v)] *)
  geom_rotateEuler : Js.number -> Js.number -> Js.number -> option Vector.t -> G -> G;
  geom_rotateX : Js.number -> option Vector.t -> G -> G;      (* [s.rotateX(deg, pivot)] *)
  geom_rotateY : Js.number -> option Vector.t -> G -> G;
  geom_rotateZ : Js.number -> option Vector.t -> G -> G;
  geom_mirrorX : option Js.number -> G -> G;                  (* [s.mirrorX(offset)] *)
  geom_scale : Js.number -> option Vector.t -> G -> G         (* [s.scale(factor, pivot)] *)
}.

Module Heap.
Import Js.
Local Open Scope js_scope.

Definition ref := nat.

(** ['center'] or a PointLike (possibly [null]). *)
Inductive Pivot := pivot_center | pivot_at (p : option Vector.t).

Section Methods.
Context {G : Type} {geo : GeomApi G} {T : Tolerances}.

Record store := mkStore {
  geometry : ref -> G;           (* the state of each Shape object *)
  members : ref -> list ref;     (* the [shapes] array of each ShapeCollection object *)
  next : ref                     (* the address the next [new] gets *)
}.

(** A method: it may throw, and it leaves a store.  The console is not
    kept in this part. *)
Definition St (A : Type) : Type := store -> completion A * store.

Definition sret {A} (a : A) : St A := fun st => (Normal a, st).
Definition sthrow {A} (e : exn) : St A := fun st => (Throw e, st).
Definition sbind {A B} (m : St A) (k : A -> St B) : St B :=
  fun st => match m st with
            | (Normal a, st') => k a st'
            | (Throw e, st') => (Throw e, st')
            end.

Definition upd {A} (f : ref -> A) (r : ref) (a : A) : ref -> A :=
  fun r' => if decide (r' = r) then a else f r'.

(** [new] of a Shape object with state [g], of a collection with [shapes]. *)
Definition newShape (g : G) : St ref :=
  fun st => (Normal (next st),
             mkStore (upd (geometry st) (next st) g) (members st) (S (next st))).

Definition newCollection (shapes : list ref) : St ref :=
  fun st => (Normal (next st),
             mkStore (geometry st) (upd (members st) (next st) shapes) (S (next st))).

(** A member's own method: the object at [s] changes state. *)
Definition onShape (f : G -> G) (s : ref) : St unit :=
  fun st => (Normal tt, mkStore (upd (geometry st) s (f (geometry st s))) (members st) (next st)).

Definition setMembers (c : ref) (shapes : list ref) : St unit :=
  fun st => (Normal tt, mkStore (geometry st) (upd (members st) c shapes) (next st)).

Fixpoint sforEach {A} (body : A -> St unit) (arr : list A) : St unit :=
  match arr with
  | [] => sret tt
  | a :: arr => sbind (body a) (fun _ => sforEach body arr)
  end.

Fixpoint smap {A B} (f : A -> St B) (arr : list A) : St (list B) :=
  match arr with
  | [] => sret []
  | a :: arr => sbind (f a) (fun b => sbind (smap f arr) (fun bs => sret (b :: bs)))
  end.

(** The members as the collection reads them in the current store. *)
Definition storeApi (st : store) : ShapeApi ref :=
  {| Shape_eq_dec := _;
     Shape_type := fun s => geom_type (geometry st s);
     Shape_isEmpty := fun s => geom_isEmpty (geometry st s);
     Shape_bbox := fun s => geom_bbox (geometry st s) |}.

(** [new ShapeCollection(shapes)] for an array of Shape objects: of the
    branches of [_addEntities] a Shape takes the coordinate-like one when
    it is a Vertex (kept as it is) and the single-Shape one otherwise
    (kept unless empty); see [addEntities_of_shapes]. *)
Definition keeps (st : store) (s : ref) : bool :=
  bool_decide (geom_type (geometry st s) = Vertex) || negb (geom_isEmpty (geometry st s)).

Definition constructor (shapes : list ref) : St ref :=
  fun st => newCollection (List.filter (keeps st) shapes) st.

(** [new ShapeCollection()] *)
Definition constructor0 : St ref := newCollection [].

(** [_copy()]; [copy()] also names the new collection and adds it to the
    scene, which is not part of the store. *)
Definition _copy (this : ref) : St ref :=
  fun st =>
    sbind (smap (fun s => fun st => newShape (geom_copy (geometry st s)) st) (members st this))
          constructor st.

Definition copy (this : ref) : St ref := _copy this.

(** [center()], read off the current store. *)
Definition center (this : ref) : St (option Vector.t) :=
  fun st =>
    (fst (ShapeCollection.center (api := storeApi st)
            (ShapeCollection.mk (List.map VShape (members st this)) [])), st).

Definition move (this : ref) (vector : Vector.t) : St ref :=
  fun st => sbind (sforEach (onShape (geom_move vector)) (members st this))
                  (fun _ => sret this) st.

Definition moved (this : ref) (vector : Vector.t) : St ref :=
  sbind (copy this) (fun newCollection =>
  fun st => sbind (sforEach (onShape (geom_move vector)) (members st newCollection))
                  (fun _ => sret newCollection) st).

Definition resolvePivot (this : ref) (pivot : Pivot) : St (option Vector.t) :=
  match pivot with
  | pivot_center => center this
  | pivot_at p => sret p
  end.

Definition rotateEuler (this : ref) (degX degY degZ : number) (pivot : Pivot) : St ref :=
  sbind (resolvePivot this pivot) (fun pivot =>
  fun st => sbind (sforEach (onShape (geom_rotateEuler degX degY degZ pivot)) (members st this))
                  (fun _ => sret this) st).

(** As in the source: the copy is rotated and [this] is returned. *)
Definition rotatedEuler (this : ref) (degX degY degZ : number) (pivot : Pivot) : St ref :=
  sbind (copy this) (fun newCollection =>
  sbind (resolvePivot this pivot) (fun pivot =>
  fun st => sbind (sforEach (onShape (geom_rotateEuler degX degY degZ pivot))
                            (members st newCollection))
                  (fun _ => sret this) st)).

(** [rotate(r)]: the loop runs over the shapes of a collection made on the
    spot; its body is [shape.rotateX(rv.x).rotateY(rv.y).rotateZ(rv.z)]. *)
Definition rotate (this : ref) (r : Vector.t) : St ref :=
  let rv := r in
  sbind constructor0 (fun newCollection =>
  fun st => sbind (sforEach (onShape (fun g => geom_rotateZ (Vector.z rv) None
                                                 (geom_rotateY (Vector.y rv) None
                                                    (geom_rotateX (Vector.x rv) None g))))
                            (members st newCollection))
                  (fun _ => sret this) st).

(** [offset || this.center().y] *)
Definition offsetOrCenterY (this : ref) (offset : option number) : St (option number) :=
  match offset with
  | Some o => if eqb o 0 then
                sbind (center this) (fun c =>
                  match c with
                  | Some c => sret (Some (Vector.y c))
                  | None => sthrow (TypeError "this.center() is null")
                  end)
              else sret (Some o)
  | None =>
      sbind (center this) (fun c =>
        match c with
        | Some c => sret (Some (Vector.y c))
        | None => sthrow (TypeError "this.center() is null")
        end)
  end.

Definition mirrorX (this : ref) (offset : option number) : St ref :=
  sbind (offsetOrCenterY this offset) (fun offset =>
  fun st => sbind (sforEach (onShape (geom_mirrorX offset)) (members st this))
                  (fun _ => sret this) st).

Definition mirroredX (this : ref) (offset : option number) : St ref :=
  sbind (copy this) (fun newCollection =>
  sbind (mirrorX newCollection offset) (fun _ => sret newCollection)).

Definition scale (this : ref) (factor : number) : St ref :=
  sbind (center this) (fun pivot =>
  fun st => sbind (sforEach (onShape (geom_scale factor pivot)) (members st this))
                  (fun _ => sret this) st).

Definition scaled (this : ref) (factor : number) : St ref :=
  sbind (_copy this) (fun newCollection =>
  sbind (scale newCollection factor) (fun _ => sret newCollection)).

End Methods.
End Heap.

(** ** A small kernel for the closed examples

    Shapes on integer coordinates: an object number, a type, a hash code,
    the lower corner and the extent of its box. *)

Module Example.
Import Js.

Record shape := mkShape {
  sid : nat;
  kind : ShapeType;
  hash : N;
  origin : Z * Z * Z;
  extent : Z * Z * Z;
  empty : bool
}.

#[global] Instance shape_eq_dec : EqDecision shape.
Proof. solve_decision. Defined.

Definition vec (p : Z * Z * Z) : Vector.t :=
  Vector.mk (inject_Z p.1.1) (inject_Z p.1.2) (inject_Z p.2).

Definition far (s : shape) : Z * Z * Z :=
  ((origin s).1.1 + (extent s).1.1, (origin s).1.2 + (extent s).1.2, (origin s).2 + (extent s).2)%Z.

(** The box of a shape as the kernel reports it (a point box for a Vertex). *)
Definition boxOf (lo hi : Vector.t) : Bbox.t :=
  Bbox.mk (Some (Bbox.Bnd_Box_2 lo hi)) None
          (Some [Vector.x lo; Vector.x hi; Vector.y lo; Vector.y hi; Vector.z lo; Vector.z hi]).

#[global] Instance api : ShapeApi shape :=
  {| Shape_type := kind;
     Shape_isEmpty := empty;
     Shape_bbox := fun s => Some (boxOf (vec (origin s)) (vec (far s))) |}.

#[global] Instance kernel : ShapeKernel shape :=
  {| Shape_hashcode := hash;
     Shape_equals := fun a b =>
       bool_decide (kind a = kind b /\ origin a = origin b /\ extent a = extent b);
     Shape_same := fun a v => match v with VShape b => bool_decide (sid a = sid b) | _ => false end;
     Shape_contains := fun a b =>
       bool_decide (((origin a).1.1 <= (origin b).1.1 /\ (far b).1.1 <= (far a).1.1) /\
                    ((origin a).1.2 <= (origin b).1.2 /\ (far b).1.2 <= (far a).1.2) /\
                    ((origin a).2 <= (origin b).2 /\ (far b).2 <= (far a).2))%Z;
     Vertex_new := fun p =>
       mkShape 0 Vertex 0 (Qfloor (Vector.x p), Qfloor (Vector.y p), Qfloor (Vector.z p))
               (0, 0, 0)%Z false;
     Shape_checkDowngrade := fun s => VShape s;
     Shape_subtracted := fun a _ => VShape a |}.

#[global] Instance sorter : ArraySort shape :=
  {| Array_sort := fun _ arr => arr |}.

Definition shift (v : Vector.t) (s : shape) : shape :=
  mkShape (sid s) (kind s) (hash s)
          ((origin s).1.1 + Qfloor (Vector.x v), (origin s).1.2 + Qfloor (Vector.y v),
           (origin s).2 + Qfloor (Vector.z v))%Z
          (extent s) (empty s).

#[global] Instance geo : GeomApi shape :=
  {| geom_type := kind;
     geom_isEmpty := empty;
     geom_bbox := fun s => Some (boxOf (vec (origin s)) (vec (far s)));
     geom_copy := fun s => s;
     geom_move := shift;
     geom_rotateEuler := fun _ _ _ _ s =>
       mkShape (sid s) (kind s) (hash s) (origin s)
               ((extent s).1.2, (extent s).1.1, (extent s).2) (empty s);
     geom_rotateX := fun _ _ s => s;
     geom_rotateY := fun _ _ s => s;
     geom_rotateZ := fun _ _ s =>
       mkShape (sid s) (kind s) (hash s) (origin s)
               ((extent s).1.2, (extent s).1.1, (extent s).2) (empty s);
     geom_mirrorX := fun _ s => s;
     geom_scale := fun _ _ s => s |}.

Definition vertexAt (i : nat) (h : N) (p : Z * Z * Z) : shape :=
  mkShape i Vertex h p (0, 0, 0)%Z false.

Definition solidAt (i : nat) (h : N) (p e : Z * Z * Z) : shape :=
  mkShape i Solid h p e false.

End Example.

(* ================================================================== *)
(** * Part II: the vocabulary of the statements *)
(* ================================================================== *)

Module Spec.
Import Js.

(** Two points at zero distance. *)
Definition coincident (p q : Vector.t) : Prop :=
  Vector.x p == Vector.x q /\ Vector.y p == Vector.y q /\ Vector.z p == Vector.z q.

(** The console after a successful and after a refused [create]. *)
Definition created_msg : console := [info "Bbox::constructor: Succefully created Bbox"].
Definition failed_msg : console :=
  [error "Bbox::constructor: Cannot create Bbox: Given points are the same"].

(** Integer coordinates. *)
Definition V (a b c : Z) : Vector.t := Vector.mk (inject_Z a) (inject_Z b) (inject_Z c).

(** The [bounds] of [new Bbox(a, b)], [None] when they are [null]. *)
Definition boundsOfNew {T : Tolerances} (a b : Vector.t) : option (list number) :=
  match Bbox.constructor (Some (a, b)) with
  | (Normal r, _) => Bbox.bounds r
  | (Throw _, _) => None
  end.

(** Two [bounds] arrays with equal numbers. *)
Definition same_bounds (a b : list number) : Prop := Forall2 Qeq a b.

Definition same_boundsb (a b : option (list number)) : bool :=
  match a, b with
  | Some a, Some b =>
      (length a =? length b)%nat && forallb (fun p => Qeq_bool p.1 p.2) (combine a b)
  | None, None => true
  | _, _ => false
  end.

(** [bounds[2i] <= bounds[2i+1]] for [i] in 0, 1, 2. *)
Definition ordered (b : list number) : Prop :=
  at_ b 0 <= at_ b 1 /\ at_ b 2 <= at_ b 3 /\ at_ b 4 <= at_ b 5.

(** The numbers are left as they are by the rounding pass, as those that
    [setBounds] stored are. *)
Definition rounded {T : Tolerances} (b : list number) : Prop :=
  Forall (fun q => roundToTolerance q == q) b.

(** The per-axis union of two boxes: min of the lower, max of the upper bounds. *)
Definition unionBounds (a b : list number) : list number :=
  [Qmin (at_ a 0) (at_ b 0); Qmax (at_ a 1) (at_ b 1);
   Qmin (at_ a 2) (at_ b 2); Qmax (at_ a 3) (at_ b 3);
   Qmin (at_ a 4) (at_ b 4); Qmax (at_ a 5) (at_ b 5)].

(** [a.added(b)] is a Bbox whose bounds are the per-axis union. *)
Definition added_is_union {T : Tolerances} (a b : Bbox.t) : Prop :=
  exists la lb r out l,
    Bbox.bounds a = Some la /\ Bbox.bounds b = Some lb /\
    Bbox.added a b = (Normal r, out) /\
    Bbox.bounds r = Some l /\ same_bounds l (unionBounds la lb).


(** A group of this name leaves the members of the instance alone:
    [_setFakeGroupKeys] skips it, or assigns it to a property that is
    neither a member of the class nor inherited from [Object.prototype]. *)
Definition key_leaves_members (k : string) : bool :=
  String.eqb k "shapes"
  || negb (existsb (String.eqb k)
             (ShapeCollection.MEMBERS ++ ShapeCollection.OBJECT_PROTOTYPE_KEYS)).

Definition keys_leave_members (keys : list string) : Prop :=
  Forall (fun k => key_leaves_members k = true) keys.

(** Neither the groups of a table nor the group that a call names touch
    the members of the instance. *)
Definition leaves_members (keys : list string) (group : option string) : Prop :=
  keys_leave_members keys /\ forall g, group = Some g -> key_leaves_members g = true.

(** Position of a type in the ranking Solid > Shell > Face > Wire > Edge >
    Vertex: 0 for the highest. *)
Definition rank (ty : ShapeType) : nat :=
  match ty with
  | Solid => 0 | Shell => 1 | Face => 2 | Wire => 3 | Edge => 4 | Vertex => 5
  end.

Section Collections.
Context {Shape : Type}.

(** The [shapes] array holds single entities only, and so no collection. *)
Definition flat (shapes : list (value Shape)) : Prop :=
  Forall (fun s => isAnyShape s = true /\ isAnyShapeCollection s = false) shapes.

Context {api : ShapeApi Shape}.

(** [lowestType()] of the collection of the Shapes [l] is a type present
    in it that [before] every type present, where [before] compares two
    positions in the ranking. *)
Definition lowestType_is (before : nat -> nat -> Prop) (l : list Shape) : Prop :=
  exists ty,
    ShapeCollection.lowestType (ShapeCollection.mk (List.map VShape l) [])
      = Normal (Some (ShapeCollection.ShapeName ty)) /\
    In ty (List.map Shape_type l) /\
    forall u, In u (List.map Shape_type l) -> before (rank ty) (rank u).

(** The type ranked first among those present: the highest dimension. *)
Definition lowestType_is_highest_ranked : list Shape -> Prop :=
  lowestType_is (fun r r' => (r <= r')%nat).

(** The type ranked last among those present: the lowest dimension. *)
Definition lowestType_is_lowest_ranked : list Shape -> Prop :=
  lowestType_is (fun r r' => (r' <= r)%nat).

(** The Shapes that ingestion keeps: a Vertex as it is, another Shape
    unless it is empty. *)
Definition kept (s : Shape) : bool :=
  bool_decide (Shape_type s = Vertex) || negb (Shape_isEmpty s).




End Collections.

(** [Object.values] lists the key [k] before the key [k']: an array
    index comes before every key that is none and before every greater
    index; among the other keys the order is the one of insertion. *)
Definition listed_before (k k' : N) : Prop :=
  (ShapeCollection.isArrayIndex k = true /\
   (ShapeCollection.isArrayIndex k' = false \/ (k < k')%N)) \/
  (ShapeCollection.isArrayIndex k = false /\ ShapeCollection.isArrayIndex k' = false).

(** The keys of an object in the order [Object.values] lists them. *)
Definition in_listing_order (keys : list N) : Prop := StronglySorted listed_before keys.

(** The test of [obj_define] that places a new key [k] in front of the
    entry with the key [k']. *)
Definition goes_before (k k' : N) : bool :=
  ShapeCollection.isArrayIndex k && (negb (ShapeCollection.isArrayIndex k') || (k <? k')%N).

Section Hashes.
Context {Shape : Type} {K : ShapeKernel Shape}.

(** [s] is the first Shape of [l] with its hash code. *)
Definition first_of_its_hash (l : list Shape) (s : Shape) : Prop :=
  exists l1 l2, l = l1 ++ s :: l2 /\
                forall s', In s' l1 -> Shape_hashcode s' <> Shape_hashcode s.

(** The entry that [distinct] writes for a Shape. *)
Definition hash_entry (s : Shape) : N * value Shape := (Shape_hashcode s, VShape s).

(** What the loop of [distinct] keeps true of the Shapes [d] in its
    object, [pre] being the Shapes it has been through: they are listed in
    the order of [Object.values], no two have one hash code, each is the
    first of [pre] with its hash code, and every hash code of [pre] is
    there. *)
Record kept_firsts (pre d : list Shape) : Prop := {
  kf_order : in_listing_order (List.map Shape_hashcode d);
  kf_nodup : List.NoDup (List.map Shape_hashcode d);
  kf_first : forall s, In s d -> first_of_its_hash pre s;
  kf_all : forall s, In s pre -> exists s', In s' d /\ Shape_hashcode s' = Shape_hashcode s
}.

End Hashes.

(** Bounds as the constructor stores them: six numbers, ordered on every
    axis, unchanged by the rounding pass. *)
Definition proper_bounds {T : Tolerances} (l : list number) : Prop :=
  length l = 6%nat /\ ordered l /\ rounded l.

(** The box with the bounds [inner] lies within the one with the bounds
    [outer]. *)
Definition bounds_within (inner outer : list number) : Prop :=
  at_ outer 0 <= at_ inner 0 /\ at_ inner 1 <= at_ outer 1 /\
  at_ outer 2 <= at_ inner 2 /\ at_ inner 3 <= at_ outer 3 /\
  at_ outer 4 <= at_ inner 4 /\ at_ inner 5 <= at_ outer 5.

(** A box that is not a single point and whose lower z is below its upper
    y (the comparison that [create] makes for the lower z). *)
Definition spans (l : list number) : Prop :=
  (at_ l 0 < at_ l 1 \/ at_ l 2 < at_ l 3 \/ at_ l 4 < at_ l 5) /\ at_ l 4 < at_ l 3.

(** [lc] is the least box around the boxes [ls]: each of them lies
    within it, and each of its six bounds is a bound of one of them. *)
Definition least_around (lc : list number) (ls : list (list number)) : Prop :=
  Forall (fun l => bounds_within l lc) ls /\
  forall i, (i < 6)%nat -> Exists (fun l => at_ lc i == at_ l i) ls.

Section Boxes.
Context {Shape : Type} {api : ShapeApi Shape} {T : Tolerances}.

(** The bounds of the boxes of the members that have one. *)
Fixpoint member_bounds (ss : list Shape) : list (list number) :=
  match ss with
  | [] => []
  | s :: ss =>
      match Shape_bbox s with
      | Some b =>
          match Bbox.bounds b with
          | Some l => l :: member_bounds ss
          | None => member_bounds ss
          end
      | None => member_bounds ss
      end
  end.

(** Every member that has a box has one with proper bounds. *)
Definition boxes_are_proper (ss : list Shape) : Prop :=
  Forall (fun s => forall b, Shape_bbox s = Some b ->
                             exists lb, Bbox.bounds b = Some lb /\ proper_bounds lb) ss.

End Boxes.

Section Stores.
Context {G : Type}.

(** An object that exists in the store. *)
Definition allocated (st : @Heap.store G) (r : Heap.ref) : Prop := (r < Heap.next st)%nat.

(** [st'] extends [st]: what existed is as it was. *)
Definition extends (st st' : @Heap.store G) : Prop :=
  (Heap.next st <= Heap.next st')%nat /\
  forall r, allocated st r ->
            Heap.geometry st' r = Heap.geometry st r /\ Heap.members st' r = Heap.members st r.

(** A method that only reads the store. *)
Definition reads {A} (m : @Heap.St G A) : Prop := forall st, snd (m st) = st.

(** What a create-copy method leaves when it ends on [r], normally or
    not: every object that existed is as it was, and the collection that
    it answers, if any, is new. *)
Definition copies (st : @Heap.store G) (r : completion Heap.ref * @Heap.store G) : Prop :=
  extends st (snd r) /\
  forall res, fst r = Normal res -> ~ allocated st res /\ allocated (snd r) res.

End Stores.

End Spec.

(** ** The inputs of the closed examples *)

Module Inputs.
Import Js Spec.

(** The box of a Vertex at (1,1,1): an instance made without corners whose
    kernel box is then read, as the box of a Shape is. *)
Definition pointBox : Bbox.t :=
  match Bbox.updateFromOcBbox (T := referenceTolerances)
          (Bbox.mk (Some (Bbox.Bnd_Box_2 (V 1 1 1) (V 1 1 1))) None None) with
  | Normal b => b
  | Throw _ => Bbox.fresh
  end.

Definition boxA : Bbox.t := Example.boxOf (V 0 0 0) (V 1 1 1).
Definition boxB : Bbox.t := Example.boxOf (V 2 2 2) (V 3 3 3).
Definition cube10 : Bbox.t := Example.boxOf (V 0 0 0) (V 10 10 10).

(** A box that is 0.25 wide, and the box from (-5,-5,-5) to
    (-1.8,-1.8,-1.8). *)
Definition thinBox : Bbox.t := Example.boxOf (V 0 0 0) (Vector.mk (1 # 4) 10 10).



(** One collection, at address 1, of one Solid, at address 0. *)
Definition oneSolid : @Heap.store Example.shape :=
  Heap.mkStore (fun _ => Example.solidAt 1 10 (0, 0, 0)%Z (2, 1, 1)%Z)
               (fun c => if decide (c = 1%nat) then [0%nat] else [])
               2%nat.

End Inputs.

(* ================================================================== *)
(** * Part III: the properties *)
(* ================================================================== *)

(** Closes a goal on concrete rationals by evaluation. *)
Ltac by_evaluation :=
  vm_compute;
  repeat match goal with
         | |- _ /\ _ => split
         | |- Forall _ _ => constructor
         | |- Forall2 _ _ _ => constructor
         end;
  first [ reflexivity
        | discriminate
        | (let H := fresh in intros H; decompose [and] H; discriminate)
        | (left; first [reflexivity | (intros ?; discriminate)])
        | (right; first [reflexivity | (intros ?; discriminate)]) ].

(** The same, part by part: conjunctions and lists are split before
    anything is evaluated. *)
Ltac by_parts :=
  unfold Spec.proper_bounds, Spec.spans, Spec.ordered, Spec.rounded, Spec.same_bounds;
  repeat match goal with
         | |- _ /\ _ => split
         | |- Forall _ _ => constructor
         | |- Forall2 _ _ _ => constructor
         end;
  by_evaluation.

(** ** Numbers and the two monads *)

Module JsFacts.
Import Js.

Lemma ltb_lt (a b : number) : ltb a b = true <-> a < b.
Proof.
  unfold ltb. rewrite Qlt_alt. destruct (a ?= b); split; congruence.
Qed.

Lemma ltb_ge (a b : number) : ltb a b = false <-> b <= a.
Proof.
  rewrite <- not_true_iff_false, ltb_lt. split; intros H; lra.
Qed.

Lemma gtb_gt (a b : number) : gtb a b = true <-> b < a.
Proof. apply ltb_lt. Qed.

Lemma gtb_le (a b : number) : gtb a b = false <-> a <= b.
Proof. apply ltb_ge. Qed.

Lemma leb_le (a b : number) : leb a b = true <-> a <= b.
Proof.
  unfold leb. rewrite negb_true_iff. apply ltb_ge.
Qed.

Lemma leb_gt (a b : number) : leb a b = false <-> b < a.
Proof.
  unfold leb. rewrite negb_false_iff. apply ltb_lt.
Qed.

Lemma eqb_eq (a b : number) : eqb a b = true <-> a == b.
Proof. apply Qeq_bool_iff. Qed.

Lemma sum_squares_zero (a b c : Q) : a * a + b * b + c * c == 0 -> a == 0 /\ b == 0 /\ c == 0.
Proof.
  intros H. repeat split; nra.
Qed.

(** *** The nearest integer *)

Lemma rne_floor (q : Q) :
  (Qfloor q <= roundTiesToEven q <= Qfloor q + 1)%Z.
Proof.
  unfold roundTiesToEven. destruct (Qcompare _ _); [destruct (Z.even _) | |]; lia.
Qed.

Lemma rne_above (z : Z) (q : Q) : inject_Z z <= q -> (z <= roundTiesToEven q)%Z.
Proof.
  intros H. pose proof (rne_floor q) as [Hf _].
  apply Qfloor_resp_le in H. rewrite Qfloor_Z in H. lia.
Qed.

Lemma rne_compat (p q : Q) : p == q -> roundTiesToEven p = roundTiesToEven q.
Proof.
  intros H. unfold roundTiesToEven. rewrite (Qfloor_comp _ _ H).
  assert (E : (p - inject_Z (Qfloor q) ?= 1 # 2) = (q - inject_Z (Qfloor q) ?= 1 # 2)).
  { apply Qcompare_comp; [| reflexivity]. rewrite H. reflexivity. }
  rewrite E. reflexivity.
Qed.

Lemma rne_Z (z : Z) : roundTiesToEven (inject_Z z) = z.
Proof.
  unfold roundTiesToEven. rewrite Qfloor_Z.
  assert (E : (inject_Z z - inject_Z z ?= 1 # 2) = Lt).
  { rewrite <- Qlt_alt. ring_simplify. reflexivity. }
  rewrite E. reflexivity.
Qed.

Lemma rne_below (z : Z) (q : Q) : q <= inject_Z z -> (roundTiesToEven q <= z)%Z.
Proof.
  intros H. destruct (Qlt_le_dec q (inject_Z z)) as [Hlt | Hge].
  - pose proof (rne_floor q) as [_ Hf].
    assert (Qfloor q < z)%Z.
    { rewrite Zlt_Qlt. eapply Qle_lt_trans; [apply Qfloor_le | exact Hlt]. }
    lia.
  - assert (Heq : q == inject_Z z) by (apply Qle_antisym; assumption).
    rewrite (rne_compat _ _ Heq), rne_Z. lia.
Qed.

Lemma rne_mono (p q : Q) : p <= q -> (roundTiesToEven p <= roundTiesToEven q)%Z.
Proof.
  intros H. pose proof (Qfloor_resp_le _ _ H) as Hf.
  destruct (Z.eq_dec (Qfloor p) (Qfloor q)) as [E | E].
  - unfold roundTiesToEven. rewrite E.
    destruct (p - inject_Z (Qfloor q) ?= 1 # 2) eqn:Ep;
      destruct (q - inject_Z (Qfloor q) ?= 1 # 2) eqn:Eq;
      try (destruct (Z.even (Qfloor q)); lia); try lia;
      exfalso;
      try (rewrite <- Qeq_alt in Ep); try (rewrite <- Qlt_alt in Ep);
      try (rewrite <- Qgt_alt in Ep);
      try (rewrite <- Qeq_alt in Eq); try (rewrite <- Qlt_alt in Eq);
      try (rewrite <- Qgt_alt in Eq);
      lra.
  - pose proof (rne_floor p). pose proof (rne_floor q). lia.
Qed.

(** *** Powers of two *)

Lemma pow2_pos (e : Z) : 0 < 2 ^ e.
Proof. apply Qpower_0_lt. reflexivity. Qed.

Lemma pow2_le (e e' : Z) : (e <= e')%Z -> 2 ^ e <= 2 ^ e'.
Proof. intros H. apply Qpower_le_compat_l; [exact H | discriminate]. Qed.

Lemma pow2_lt_inv (e e' : Z) : 2 ^ e < 2 ^ e' -> (e < e')%Z.
Proof. intros H. eapply Qpower_lt_compat_l_inv; [exact H | reflexivity]. Qed.

Lemma pow2_succ (e : Z) : 2 ^ (e + 1) == 2 * 2 ^ e.
Proof. rewrite Qpower_plus by discriminate. rewrite Qpower_1_r. ring. Qed.

Lemma pow2_Z (n : Z) : (0 <= n)%Z -> inject_Z (2 ^ n) == 2 ^ n.
Proof. intros H. now rewrite Zpower_Qpower. Qed.

(** *** The exponent *)

Lemma log2_bounds (n : Z) : (0 < n)%Z ->
  2 ^ Z.log2 n <= inject_Z n /\ inject_Z n < 2 ^ (Z.log2 n + 1).
Proof.
  intros Hn. pose proof (Z.log2_spec n Hn) as [H1 H2].
  pose proof (Z.log2_nonneg n) as H0.
  split.
  - rewrite <- pow2_Z by lia. now rewrite <- Zle_Qle.
  - rewrite <- pow2_Z by lia. rewrite <- Zlt_Qlt.
    replace (Z.log2 n + 1)%Z with (Z.succ (Z.log2 n)) by lia. exact H2.
Qed.

Lemma exponent_spec (q : Q) : 0 < q -> 2 ^ exponent q <= q /\ q < 2 ^ (exponent q + 1).
Proof.
  intros Hq. destruct q as [n d]. unfold exponent. cbn [Qnum Qden].
  assert (Hn : (0 < n)%Z).
  { unfold Qlt in Hq. cbn in Hq. lia. }
  destruct (log2_bounds n Hn) as [N1 N2].
  destruct (log2_bounds (Z.pos d) eq_refl) as [D1 D2].
  set (a := Z.log2 n) in *. set (b := Z.log2 (Z.pos d)) in *.
  assert (Hq' : n # d == inject_Z n / inject_Z (Z.pos d)) by apply Qmake_Qdiv.
  assert (Hd : 0 < inject_Z (Z.pos d)) by reflexivity.
  pose proof (pow2_pos a). pose proof (pow2_pos b). pose proof (pow2_pos (a - b)).
  pose proof (pow2_pos (a - b - 1)).
  assert (Hlo : 2 ^ (a - b - 1) < n # d).
  { rewrite Hq'. apply Qlt_shift_div_l; [exact Hd |].
    assert (E : 2 ^ (a - b - 1) * 2 ^ (b + 1) == 2 ^ a).
    { rewrite <- Qpower_plus by discriminate. apply Qpower_comp; [reflexivity | lia]. }
    eapply Qlt_le_trans; [| exact N1]. rewrite <- E.
    apply Qmult_lt_l; assumption. }
  assert (Hhi : n # d < 2 ^ (a - b + 1)).
  { rewrite Hq'. apply Qlt_shift_div_r; [exact Hd |].
    assert (E : 2 ^ (a - b + 1) * 2 ^ b == 2 ^ (a + 1)).
    { rewrite <- Qpower_plus by discriminate. apply Qpower_comp; [reflexivity | lia]. }
    eapply Qlt_le_trans; [exact N2 |]. rewrite <- E.
    apply Qmult_le_l; [apply pow2_pos | exact D1]. }
  destruct (Qle_bool (2 ^ (a - b)) (n # d)) eqn:E.
  - apply Qle_bool_iff in E. split; assumption.
  - assert (Hlt : n # d < 2 ^ (a - b)).
    { apply Qnot_le_lt. intros Hle. apply Qle_bool_iff in Hle. congruence. }
    replace (a - b - 1 + 1)%Z with (a - b)%Z by lia.
    split; [now apply Qlt_le_weak | exact Hlt].
Qed.

Lemma exponent_le (p q : Q) : 0 < p -> p <= q -> (exponent p <= exponent q)%Z.
Proof.
  intros Hp Hpq.
  destruct (exponent_spec p Hp) as [P1 _].
  destruct (exponent_spec q (Qlt_le_trans _ _ _ Hp Hpq)) as [_ Q2].
  assert (H : 2 ^ exponent p < 2 ^ (exponent q + 1)).
  { eapply Qle_lt_trans; [exact P1 |]. eapply Qle_lt_trans; [exact Hpq | exact Q2]. }
  apply pow2_lt_inv in H. lia.
Qed.

Lemma exponent_compat (p q : Q) : 0 < p -> p == q -> exponent p = exponent q.
Proof.
  intros Hp H.
  assert (Hq : 0 < q) by (rewrite <- H; exact Hp).
  apply Z.le_antisymm; apply exponent_le; try assumption; rewrite H; apply Qle_refl.
Qed.

(** *** Rounding to 53 bits *)

Lemma pow2_split (e : Z) : 2 ^ e == inject_Z (2 ^ 52) * 2 ^ (e - 52).
Proof.
  rewrite pow2_Z by lia. rewrite <- Qpower_plus by discriminate.
  apply Qpower_comp; [reflexivity | lia].
Qed.

Lemma pow2_split' (e : Z) : 2 ^ (e + 1) == inject_Z (2 ^ 53) * 2 ^ (e - 52).
Proof.
  rewrite pow2_Z by lia. rewrite <- Qpower_plus by discriminate.
  apply Qpower_comp; [reflexivity | lia].
Qed.

Lemma roundAt_mono (e : Z) (p q : Q) : p <= q -> roundAt e p <= roundAt e q.
Proof.
  intros H. unfold roundAt. pose proof (pow2_pos (e - 52)) as Hu.
  apply Qmult_le_compat_r; [| now apply Qlt_le_weak].
  rewrite <- Zle_Qle. apply rne_mono.
  apply Qmult_le_compat_r; [exact H |]. apply Qlt_le_weak, Qinv_lt_0_compat, Hu.
Qed.

(** Rounding stays within the two powers of two around the number. *)
Lemma roundAt_pos (e : Z) (q : Q) :
  2 ^ e <= q -> q <= 2 ^ (e + 1) -> 2 ^ e <= roundAt e q /\ roundAt e q <= 2 ^ (e + 1).
Proof.
  intros H1 H2. unfold roundAt. pose proof (pow2_pos (e - 52)) as Hu.
  split.
  - rewrite (pow2_split e) at 1.
    apply Qmult_le_compat_r; [| now apply Qlt_le_weak].
    rewrite <- Zle_Qle. apply rne_above. apply Qle_shift_div_l; [exact Hu |].
    now rewrite <- pow2_split.
  - rewrite (pow2_split' e).
    apply Qmult_le_compat_r; [| now apply Qlt_le_weak].
    rewrite <- Zle_Qle. apply rne_below. apply Qle_shift_div_r; [exact Hu |].
    now rewrite <- pow2_split'.
Qed.

Lemma roundAt_neg (e : Z) (q : Q) :
  2 ^ e <= - q -> - q <= 2 ^ (e + 1) ->
  - 2 ^ (e + 1) <= roundAt e q /\ roundAt e q <= - 2 ^ e.
Proof.
  intros H1 H2. unfold roundAt. pose proof (pow2_pos (e - 52)) as Hu.
  split.
  - rewrite (pow2_split' e).
    assert (E : - (inject_Z (2 ^ 53) * 2 ^ (e - 52)) == inject_Z (- 2 ^ 53) * 2 ^ (e - 52)).
    { rewrite inject_Z_opp. ring. }
    rewrite E. apply Qmult_le_compat_r; [| now apply Qlt_le_weak].
    rewrite <- Zle_Qle. apply rne_above. apply Qle_shift_div_l; [exact Hu |].
    rewrite <- E, <- pow2_split'. lra.
  - rewrite (pow2_split e).
    assert (E : - (inject_Z (2 ^ 52) * 2 ^ (e - 52)) == inject_Z (- 2 ^ 52) * 2 ^ (e - 52)).
    { rewrite inject_Z_opp. ring. }
    rewrite E. apply Qmult_le_compat_r; [| now apply Qlt_le_weak].
    rewrite <- Zle_Qle. apply rne_below. apply Qle_shift_div_r; [exact Hu |].
    rewrite <- E, <- pow2_split. lra.
Qed.

(** [fl] by cases on the sign. *)
Lemma fl_zero (q : Q) : q == 0 -> fl q = 0.
Proof.
  intros H. unfold fl.
  assert (E : Qeq_bool (Qred q) 0 = true).
  { apply Qeq_bool_iff. now rewrite Qred_correct. }
  now rewrite E.
Qed.

Lemma fl_nonzero (q : Q) :
  ~ q == 0 -> fl q == roundAt (exponent (Qabs (Qred q))) (Qred q).
Proof.
  intros H. unfold fl.
  assert (E : Qeq_bool (Qred q) 0 = false).
  { apply not_true_iff_false. intros E. apply Qeq_bool_iff in E. apply H.
    now rewrite <- (Qred_correct q). }
  rewrite E. rewrite Qred_correct. reflexivity.
Qed.

Lemma fl_pos (q : Q) : 0 < q -> fl q == roundAt (exponent q) q.
Proof.
  intros Hq. rewrite fl_nonzero by lra.
  assert (Hr : Qred q == q) by apply Qred_correct.
  assert (Ha : Qabs (Qred q) == q).
  { rewrite Hr. apply Qabs_pos. now apply Qlt_le_weak. }
  rewrite (exponent_compat (Qabs (Qred q)) q); [| rewrite Ha; exact Hq | exact Ha].
  unfold roundAt. rewrite (rne_compat (Qred q / 2 ^ (exponent q - 52)) (q / 2 ^ (exponent q - 52))).
  - reflexivity.
  - now rewrite Hr.
Qed.

Lemma fl_neg (q : Q) : q < 0 -> fl q == roundAt (exponent (- q)) q.
Proof.
  intros Hq. rewrite fl_nonzero by lra.
  assert (Hr : Qred q == q) by apply Qred_correct.
  assert (Ha : Qabs (Qred q) == - q).
  { rewrite Hr. apply Qabs_neg. now apply Qlt_le_weak. }
  rewrite (exponent_compat (Qabs (Qred q)) (- q)); [| rewrite Ha; lra | exact Ha].
  unfold roundAt.
  rewrite (rne_compat (Qred q / 2 ^ (exponent (- q) - 52)) (q / 2 ^ (exponent (- q) - 52))).
  - reflexivity.
  - now rewrite Hr.
Qed.

Lemma fl_pos_bounds (q : Q) :
  0 < q -> 2 ^ exponent q <= fl q /\ fl q <= 2 ^ (exponent q + 1).
Proof.
  intros Hq. rewrite (fl_pos q Hq). destruct (exponent_spec q Hq) as [H1 H2].
  apply roundAt_pos; [exact H1 | now apply Qlt_le_weak].
Qed.

Lemma fl_neg_bounds (q : Q) :
  q < 0 -> - 2 ^ (exponent (- q) + 1) <= fl q /\ fl q <= - 2 ^ exponent (- q).
Proof.
  intros Hq. rewrite (fl_neg q Hq).
  assert (Hq' : 0 < - q) by lra.
  destruct (exponent_spec (- q) Hq') as [H1 H2].
  apply roundAt_neg; [exact H1 | now apply Qlt_le_weak].
Qed.

(** Rounding to the nearest double is monotone. *)
Lemma fl_mono (a b : Q) : a <= b -> fl a <= fl b.
Proof.
  intros Hab.
  destruct (Q_dec a 0) as [[Ha | Ha] | Ha]; destruct (Q_dec b 0) as [[Hb | Hb] | Hb];
    try lra.
  - (* both negative *)
    pose proof (fl_neg_bounds a Ha) as [A1 A2]. pose proof (fl_neg_bounds b Hb) as [B1 B2].
    assert (He : (exponent (- b) <= exponent (- a))%Z) by (apply exponent_le; lra).
    destruct (Z.eq_dec (exponent (- b)) (exponent (- a))) as [E | E].
    + rewrite (fl_neg a Ha), (fl_neg b Hb), E. now apply roundAt_mono.
    + assert (H : 2 ^ (exponent (- b) + 1) <= 2 ^ exponent (- a)) by (apply pow2_le; lia).
      lra.
  - pose proof (fl_neg_bounds a Ha) as [_ A2]. pose proof (pow2_pos (exponent (- a))).
    pose proof (fl_pos_bounds b Hb) as [B1 _]. pose proof (pow2_pos (exponent b)). lra.
  - pose proof (fl_neg_bounds a Ha) as [_ A2]. pose proof (pow2_pos (exponent (- a))).
    rewrite (fl_zero b Hb). lra.
  - (* both positive *)
    pose proof (fl_pos_bounds a Ha) as [A1 A2]. pose proof (fl_pos_bounds b Hb) as [B1 B2].
    assert (He : (exponent a <= exponent b)%Z) by (apply exponent_le; lra).
    destruct (Z.eq_dec (exponent a) (exponent b)) as [E | E].
    + rewrite (fl_pos a Ha), (fl_pos b Hb), E. now apply roundAt_mono.
    + assert (H : 2 ^ (exponent a + 1) <= 2 ^ exponent b) by (apply pow2_le; lia).
      lra.
  - rewrite (fl_zero a Ha). pose proof (fl_pos_bounds b Hb) as [B1 _].
    pose proof (pow2_pos (exponent b)). lra.
  - rewrite (fl_zero a Ha), (fl_zero b Hb). apply Qle_refl.
Qed.



Lemma bind_lift {A B} (a : A) (k : A -> M B) : Js.bind (lift (Normal a)) k = k a.
Proof. unfold Js.bind, lift. destruct (k a) as [r out]. reflexivity. Qed.


End JsFacts.

(** ** Bbox *)

Module BboxProofs.
Import Js JsFacts Spec Inputs.
Import Vector (x, y, z).

Lemma distance_is_zero_iff (p q : Vector.t) :
  Vector.distance_is_zero p q = true <-> coincident p q.
Proof.
  unfold Vector.distance_is_zero, Vector.distance_sq, coincident.
  rewrite eqb_eq. split.
  - intros H. apply sum_squares_zero in H. lra.
  - intros (Hx & Hy & Hz). rewrite Hx, Hy, Hz. ring.
Qed.

Lemma distance_not_zero (p q : Vector.t) :
  ~ coincident p q -> Vector.distance_is_zero p q = false.
Proof.
  intros H. apply not_true_iff_false. rewrite distance_is_zero_iff. exact H.
Qed.

(** The value each conditional of [minmaxVec] selects on ordered corners. *)
Lemma pick_min (a b : number) :
  a <= b -> let m := if ltb a b then a else b in (m = a \/ m = b) /\ m == a.
Proof.
  intros Hab m. subst m. destruct (ltb a b) eqn:E.
  - split; [now left | reflexivity].
  - apply ltb_ge in E. split; [now right | lra].
Qed.

Lemma pick_max (a b : number) :
  a <= b -> let m := if gtb b a then b else a in (m = a \/ m = b) /\ m == b.
Proof.
  intros Hab m. subst m. destruct (gtb b a) eqn:E.
  - split; [now right | reflexivity].
  - apply gtb_le in E. split; [now left | lra].
Qed.

Lemma pick_minZ (lz hy hz : number) :
  lz <= hz -> lz < hy \/ lz == hz ->
  let m := if ltb lz hy then lz else hz in (m = lz \/ m = hz) /\ m == lz.
Proof.
  intros Hz Hg m. subst m. destruct (ltb lz hy) eqn:E.
  - split; [now left | reflexivity].
  - apply ltb_ge in E. split; [now right | lra].
Qed.

(** *** [create] and the constructor *)

Section Create.
Context {T : Tolerances}.

Lemma round_pick (m a b c : number) :
  m = a \/ m = b -> m == c ->
  roundToTolerance a == a -> roundToTolerance b == b ->
  roundToTolerance m == c.
Proof.
  intros [-> | ->] Hm Ha Hb; lra.
Qed.

(** [create] on corners that are not coincident once normalised. *)
Lemma create_distinct (this : Bbox.t) (min max : Vector.t) :
  Vector.distance_is_zero (Bbox.minmaxVec min max).1 (Bbox.minmaxVec min max).2 = false ->
  exists r,
    Bbox.create this min max = (Normal (r, Bbox.ret_undefined), created_msg) /\
    Bbox.bounds r =
      Some (List.map roundToTolerance
              [x (Bbox.minmaxVec min max).1; x (Bbox.minmaxVec min max).2;
               y (Bbox.minmaxVec min max).1; y (Bbox.minmaxVec min max).2;
               z (Bbox.minmaxVec min max).1; z (Bbox.minmaxVec min max).2]).
Proof.
  intros H. unfold Bbox.create.
  destruct (Bbox.minmaxVec min max) as [minVec maxVec] eqn:E. simpl in H. rewrite H.
  eexists. split; reflexivity.
Qed.

Lemma create_coincident (this : Bbox.t) (min max : Vector.t) :
  Vector.distance_is_zero (Bbox.minmaxVec min max).1 (Bbox.minmaxVec min max).2 = true ->
  Bbox.create this min max = (Normal (this, Bbox.ret_null), failed_msg).
Proof.
  intros H. unfold Bbox.create.
  destruct (Bbox.minmaxVec min max) as [minVec maxVec] eqn:E. simpl in H. rewrite H.
  reflexivity.
Qed.

(** The constructor on two corners that are ordered on every axis, for
    which the z comparison of [create] selects the lower z. *)
Lemma constructor_ordered (lo hi : Vector.t) :
  x lo <= x hi -> y lo <= y hi -> z lo <= z hi ->
  z lo < y hi \/ z lo == z hi ->
  ~ coincident lo hi ->
  rounded [x lo; x hi; y lo; y hi; z lo; z hi] ->
  exists r l,
    Bbox.constructor (Some (lo, hi)) = (Normal r, created_msg) /\
    Bbox.bounds r = Some l /\
    same_bounds l [x lo; x hi; y lo; y hi; z lo; z hi].
Proof.
  intros Hx Hy Hz Hg Hne Hr.
  pose proof (pick_min _ _ Hx) as [Px Qx]. pose proof (pick_max _ _ Hx) as [Px' Qx'].
  pose proof (pick_min _ _ Hy) as [Py Qy]. pose proof (pick_max _ _ Hy) as [Py' Qy'].
  pose proof (pick_minZ _ (y hi) _ Hz Hg) as [Pz Qz]. pose proof (pick_max _ _ Hz) as [Pz' Qz'].
  assert (Hd : Vector.distance_is_zero (Bbox.minmaxVec lo hi).1 (Bbox.minmaxVec lo hi).2 = false).
  { apply distance_not_zero. intros (Cx & Cy & Cz). apply Hne.
    unfold Bbox.minmaxVec in Cx, Cy, Cz. simpl in Cx, Cy, Cz.
    unfold coincident. repeat split; lra. }
  destruct (create_distinct Bbox.fresh lo hi Hd) as (r & Hc & Hb).
  exists r. eexists. split; [| split; [exact Hb |]].
  - unfold Bbox.constructor. rewrite Hc. reflexivity.
  - unfold rounded in Hr.
    repeat match goal with H : Forall _ (_ :: _) |- _ => inversion H; subst; clear H end.
    unfold same_bounds, Bbox.minmaxVec. simpl.
    repeat constructor; eapply round_pick; eauto.
Qed.

End Create.

Lemma sel_min (a b : number) :
  let m := if ltb a b then a else b in (m = a \/ m = b) /\ m == Qmin a b.
Proof.
  intros m. subst m. destruct (Q.min_spec a b) as [[H1 H2] | [H1 H2]];
    destruct (ltb a b) eqn:E; try apply ltb_lt in E; try apply ltb_ge in E;
    (split; [auto | lra]).
Qed.

Lemma sel_max (a b : number) :
  let m := if gtb a b then a else b in (m = a \/ m = b) /\ m == Qmax a b.
Proof.
  intros m. subst m. destruct (Q.max_spec a b) as [[H1 H2] | [H1 H2]];
    destruct (gtb a b) eqn:E; try apply gtb_gt in E; try apply gtb_le in E;
    (split; [auto | lra]).
Qed.

Lemma rounded_sel {T : Tolerances} (m a b : number) :
  m = a \/ m = b -> roundToTolerance a == a -> roundToTolerance b == b ->
  roundToTolerance m == m.
Proof. intros [-> | ->]; auto. Qed.

(** *** [added] *)

Section Added.
Context {T : Tolerances}.

(** C9.  When the two corners that [create] normalises are coincident,
    [create] writes one error line to the console and returns [null];
    the instance is as it was, so the constructor leaves [bounds] at
    [null]; the call completes normally: nothing is thrown. *)
Theorem C9_coincident_corners_fail (this : Bbox.t) (min max : Vector.t) :
  coincident (Bbox.minmaxVec min max).1 (Bbox.minmaxVec min max).2 ->
  Bbox.create this min max = (Normal (this, Bbox.ret_null), failed_msg) /\
  Bbox.constructor (Some (min, max)) = (Normal Bbox.fresh, failed_msg) /\
  Bbox.bounds Bbox.fresh = None.
Proof.
  intros H. apply distance_is_zero_iff in H.
  split; [| split].
  - now apply create_coincident.
  - unfold Bbox.constructor. rewrite (create_coincident _ _ _ H). reflexivity.
  - reflexivity.
Qed.

(** The corners that [added] hands to the constructor. *)
Lemma added_unfold (a b : Bbox.t) (a0 a1 a2 a3 a4 a5 b0 b1 b2 b3 b4 b5 : number) :
  Bbox.bounds a = Some [a0; a1; a2; a3; a4; a5] ->
  Bbox.bounds b = Some [b0; b1; b2; b3; b4; b5] ->
  Bbox.added a b =
  Bbox.constructor
    (Some (Vector.mk (if ltb a0 b0 then a0 else b0) (if ltb a2 b2 then a2 else b2)
                     (if ltb a4 b4 then a4 else b4),
           Vector.mk (if gtb a1 b1 then a1 else b1) (if gtb a3 b3 then a3 else b3)
                     (if gtb a5 b5 then a5 else b5))).
Proof.
  intros Ha Hb. unfold Bbox.added, Bbox.combinedBounds, Bbox.bounds_of. rewrite Ha, Hb.
  cbn [cbind]. rewrite bind_lift. reflexivity.
Qed.

(** C3, amended.  For two boxes whose bounds are set: when the per-axis
    union (the minimum of the lower and the maximum of the upper bounds)
    is a single point, the constructor refuses it and [a.added(b)] is a
    new box whose bounds are [null], with the error line on the console.
    When the union is not a single point, the bounds of both boxes are
    ordered and left unchanged by the rounding pass, and the z comparison
    of [create] selects the lower z (or the union is flat in z),
    [a.added(b)] is a new box whose bounds are the per-axis union.  In
    particular, when [b] has the bounds of [a], the result has the bounds
    of [a]. *)
Theorem C3_added_amended (a b : Bbox.t) (a0 a1 a2 a3 a4 a5 b0 b1 b2 b3 b4 b5 : number) :
  Bbox.bounds a = Some [a0; a1; a2; a3; a4; a5] ->
  Bbox.bounds b = Some [b0; b1; b2; b3; b4; b5] ->
  (Qmin a0 b0 == Qmax a1 b1 /\ Qmin a2 b2 == Qmax a3 b3 /\ Qmin a4 b4 == Qmax a5 b5 ->
   Bbox.added a b = (Normal Bbox.fresh, failed_msg) /\ Bbox.bounds Bbox.fresh = None /\
   ~ added_is_union a b) /\
  (ordered [a0; a1; a2; a3; a4; a5] -> ordered [b0; b1; b2; b3; b4; b5] ->
   rounded [a0; a1; a2; a3; a4; a5] -> rounded [b0; b1; b2; b3; b4; b5] ->
   ~ (Qmin a0 b0 == Qmax a1 b1 /\ Qmin a2 b2 == Qmax a3 b3 /\ Qmin a4 b4 == Qmax a5 b5) ->
   Qmin a4 b4 < Qmax a3 b3 \/ Qmin a4 b4 == Qmax a5 b5 ->
   added_is_union a b /\
   (same_bounds [b0; b1; b2; b3; b4; b5] [a0; a1; a2; a3; a4; a5] ->
    exists r out l, Bbox.added a b = (Normal r, out) /\ Bbox.bounds r = Some l /\
                    same_bounds l [a0; a1; a2; a3; a4; a5])).
Proof.
  intros Ha Hb.
  pose proof (added_unfold a b _ _ _ _ _ _ _ _ _ _ _ _ Ha Hb) as Hadd.
  pose proof (sel_min a0 b0) as [P0 Q0]. pose proof (sel_max a1 b1) as [P1 Q1].
  pose proof (sel_min a2 b2) as [P2 Q2]. pose proof (sel_max a3 b3) as [P3 Q3].
  pose proof (sel_min a4 b4) as [P4 Q4]. pose proof (sel_max a5 b5) as [P5 Q5].
  set (m0 := if ltb a0 b0 then a0 else b0) in *.
  set (m1 := if gtb a1 b1 then a1 else b1) in *.
  set (m2 := if ltb a2 b2 then a2 else b2) in *.
  set (m3 := if gtb a3 b3 then a3 else b3) in *.
  set (m4 := if ltb a4 b4 then a4 else b4) in *.
  set (m5 := if gtb a5 b5 then a5 else b5) in *.
  split.
  - intros (Cx & Cy & Cz).
    assert (E : Bbox.added a b = (Normal Bbox.fresh, failed_msg)).
    { rewrite Hadd. unfold Bbox.constructor. rewrite create_coincident; [reflexivity |].
      apply distance_is_zero_iff. unfold Bbox.minmaxVec, coincident; simpl.
      repeat split.
      - destruct (ltb m0 m1); destruct (gtb m1 m0); lra.
      - destruct (ltb m2 m3); destruct (gtb m3 m2); lra.
      - destruct (ltb m4 m3); destruct (gtb m5 m4); lra. }
    split; [exact E |]. split; [reflexivity |].
    intros (la & lb & r & out & l & _ & _ & Hr & Hl & _).
    rewrite E in Hr. injection Hr as Hr _. subst r. discriminate.
  - intros (Oa0 & Oa1 & Oa2) (Ob0 & Ob1 & Ob2) Ra Rb Hne Hg.
    unfold at_ in *; simpl in *.
    unfold rounded in Ra, Rb.
    repeat match goal with H : Forall _ (_ :: _) |- _ => inversion H; subst; clear H end.
    pose proof (Q.le_min_l a0 b0). pose proof (Q.le_max_l a1 b1).
    pose proof (Q.le_min_l a2 b2). pose proof (Q.le_max_l a3 b3).
    pose proof (Q.le_min_l a4 b4). pose proof (Q.le_max_l a5 b5).
    destruct (constructor_ordered (Vector.mk m0 m2 m4) (Vector.mk m1 m3 m5))
      as (r & l & Hc & Hl & Hs); simpl.
    + lra.
    + lra.
    + lra.
    + destruct Hg; [left | right]; lra.
    + intros (Cx & Cy & Cz). simpl in *. apply Hne. repeat split; lra.
    + repeat constructor; eapply rounded_sel; eauto.
    + unfold same_bounds in Hs.
      repeat match goal with H : Forall2 _ _ (_ :: _) |- _ => inversion H; subst; clear H end.
      match goal with H : Forall2 _ _ [] |- _ => inversion H; subst; clear H end.
      split.
      * eexists _, _, r, created_msg, _.
        rewrite Hadd. repeat split; eauto.
        unfold unionBounds, at_; simpl. repeat constructor; lra.
      * intros Hsame. eexists r, created_msg, _. rewrite Hadd. repeat split; eauto.
        unfold same_bounds in Hsame.
        repeat match goal with H : Forall2 _ (_ :: _) _ |- _ => inversion H; subst; clear H end.
        pose proof (Q.min_spec a0 b0). pose proof (Q.max_spec a1 b1).
        pose proof (Q.min_spec a2 b2). pose proof (Q.max_spec a3 b3).
        pose proof (Q.min_spec a4 b4). pose proof (Q.max_spec a5 b5).
        repeat constructor; lra.
Qed.

End Added.

(** *** The order of the bounds, and the closed examples *)

Section Ordered.
Context {T : Tolerances} {TOk : TolerancesOk T}.

(** Whatever the order of the two corners, the bounds that the
    constructor sets are ordered on every axis. *)
Lemma constructor_bounds_ordered (a b : Vector.t) (l : list number) :
  boundsOfNew a b = Some l -> ordered l.
Proof.
  unfold boundsOfNew, Bbox.constructor. intros H.
  destruct (Vector.distance_is_zero (Bbox.minmaxVec a b).1 (Bbox.minmaxVec a b).2) eqn:E.
  - rewrite (create_coincident _ _ _ E) in H. discriminate.
  - destruct (create_distinct Bbox.fresh a b E) as (r & Hc & Hb).
    rewrite Hc in H. cbn in H. rewrite Hb in H. inversion H; subst l; clear H.
    unfold ordered, at_, Bbox.minmaxVec; simpl.
    repeat split; apply round_mono.
    + destruct (ltb (x a) (x b)) eqn:E1; destruct (gtb (x b) (x a)) eqn:E2;
        try apply ltb_lt in E1; try apply ltb_ge in E1;
        try apply gtb_gt in E2; try apply gtb_le in E2; lra.
    + destruct (ltb (y a) (y b)) eqn:E1; destruct (gtb (y b) (y a)) eqn:E2;
        try apply ltb_lt in E1; try apply ltb_ge in E1;
        try apply gtb_gt in E2; try apply gtb_le in E2; lra.
    + destruct (ltb (z a) (y b)) eqn:E1; destruct (gtb (z b) (z a)) eqn:E2;
        try apply ltb_lt in E1; try apply ltb_ge in E1;
        try apply gtb_gt in E2; try apply gtb_le in E2; lra.
Qed.

End Ordered.

#[local] Existing Instance referenceTolerances.

(** C1, on the code as it is.  [new Bbox((0,10,5),(1,10,3))] has the z
    bounds [5,5] and [new Bbox((1,10,3),(0,10,5))] the z bounds [3,5]: the
    bounds depend on the order of the two corners.  For the distinct
    corners (0,10,5) and (0,10,3) the normalised corners coincide and the
    construction is refused. *)
Theorem C1_create_depends_on_argument_order :
  same_boundsb (boundsOfNew (V 0 10 5) (V 1 10 3)) (Some [0; 1; 10; 10; 5; 5]) = true /\
  same_boundsb (boundsOfNew (V 1 10 3) (V 0 10 5)) (Some [0; 1; 10; 10; 3; 5]) = true /\
  same_boundsb (boundsOfNew (V 0 10 5) (V 1 10 3)) (boundsOfNew (V 1 10 3) (V 0 10 5)) = false /\
  Bbox.constructor (Some (V 0 10 5, V 0 10 3)) = (Normal Bbox.fresh, failed_msg).
Proof. by_evaluation. Qed.

(** C9 at the corners (0,0,0) and (0,0,0). *)
Lemma C9_witness :
  Bbox.constructor (Some (V 0 0 0, V 0 0 0)) = (Normal Bbox.fresh, failed_msg).
Proof.
  refine (proj1 (proj2 (C9_coincident_corners_fail Bbox.fresh (V 0 0 0) (V 0 0 0) _))).
  by_evaluation.
Defined.

(** C3 fails on the box of a Vertex added to itself: the union is a single
    point, [create] refuses it, and the new box has no bounds. *)
Lemma C3_counterexample : ~ added_is_union pointBox pointBox.
Proof.
  intros (la & lb & r & out & l & _ & _ & Hadd & Hl & _).
  assert (E : Bbox.added pointBox pointBox = (Normal Bbox.fresh, failed_msg))
    by (vm_compute; reflexivity).
  rewrite E in Hadd. injection Hadd as Hr _. subst r. discriminate Hl.
Qed.

(** C3, amended, at two disjoint unit cubes. *)
Lemma C3_witness : added_is_union boxA boxB.
Proof.
  refine (proj1 (proj2 (C3_added_amended boxA boxB 0 1 0 1 0 1 2 3 2 3 2 3 eq_refl eq_refl)
                   _ _ _ _ _ _));
    by_parts.
Defined.

(** *** [enlarged] *)

(** C8, on the code as it is.  The box with the bounds
    [0, 0.25, 0, 10, 0, 10] is 2D for [is2D()], which allows an extent
    of 0.4 plus the tolerance.  [axisMissingIn2D()] tests the extents
    against the tolerance alone: it finds neither the height nor the
    width within it and names y, an axis along which the box measures 10.
    So [enlarged(1)] expands x and z by 1 on each side and y not at all:
    the result has the bounds [-1, 1.25, 0, 10, -1, 11], and it is not 2D. *)
Theorem C8_enlarged_leaves_a_thin_box_not_2D :
  Bbox.is2D thinBox = Normal true /\
  Bbox.axisMissingIn2D thinBox = Normal (Some Vector.ax_y) /\
  Bbox.amountVec thinBox 1 = Normal (Vector.mk 1 0 1) /\
  exists r,
    Bbox.enlarged thinBox 1 = (Normal r, created_msg) /\
    same_boundsb (Bbox.bounds r) (Some [-1; 5 # 4; 0; 10; -1; 11]) = true /\
    Bbox.is2D r = Normal false.
Proof.
  split; [vm_compute; reflexivity |]. split; [vm_compute; reflexivity |].
  split; [vm_compute; reflexivity |].
  eexists. split; [vm_compute; reflexivity |].
  split; vm_compute; reflexivity.
Qed.

(** *** The reference rounding and the reference side table obey the laws *)

Lemma round_decimals_mono (d : nat) (a b : number) :
  a <= b -> round_decimals d a <= round_decimals d b.
Proof.
  intros Hab. unfold round_decimals.
  assert (Hpos : 0 < inject_Z (10 ^ Z.of_nat d)).
  { change 0 with (inject_Z 0). rewrite <- Zlt_Qlt. apply Z.pow_pos_nonneg; lia. }
  apply Qmult_le_compat_r; [| apply Qlt_le_weak, Qinv_lt_0_compat, Hpos].
  rewrite <- Zle_Qle. apply Qfloor_resp_le.
  apply Qplus_le_compat; [| apply Qle_refl].
  apply Qmult_le_compat_r; [exact Hab | now apply Qlt_le_weak].
Qed.

#[global] Instance referenceTolerances_ok : TolerancesOk referenceTolerances.
Proof.
  split.
  - intros a b. apply round_decimals_mono.
  - by_evaluation.
  - by_evaluation.
Qed.

#[global] Instance referenceSides_ok : SideTableOk referenceSides.
Proof.
  split.
  - intros side axis H. cbn in H.
    repeat (destruct H as [H | H]; [inversion H; subst; cbn; tauto |]). destruct H.
  - intros side H. cbn in H |- *. tauto.
Qed.

Section More.
Context {T : Tolerances}.

(** Rounding sends equal numbers to equal numbers. *)
Lemma round_compat {TOk : TolerancesOk T} (a b : number) :
  a == b -> roundToTolerance a == roundToTolerance b.
Proof.
  intros H. apply Qle_antisym; apply round_mono; rewrite H; apply Qle_refl.
Qed.

(** *** The constructor, once more *)

(** X1.  [new Bbox(a, b)] never throws, whatever the two corners.  Either
    it refuses them (the instance is the fresh one, with [bounds] at
    [null], and the console holds the error line), or [bounds] holds six
    numbers that are ordered on every axis, [position] is the centre of
    these bounds, and the console holds the success line.  (The rounding
    of the binding is monotone.) *)
Theorem constructor_returns_ordered_bounds {TOk : TolerancesOk T} (a b : Vector.t) :
  exists r out,
    Bbox.constructor (Some (a, b)) = (Normal r, out) /\
    ((r = Bbox.fresh /\ out = failed_msg) \/
     (exists l c, Bbox.bounds r = Some l /\ length l = 6%nat /\ ordered l /\
                  Bbox.center r = Normal c /\ Bbox.position r = Some c /\
                  out = created_msg)).
Proof.
  unfold Bbox.constructor.
  destruct (Vector.distance_is_zero (Bbox.minmaxVec a b).1 (Bbox.minmaxVec a b).2) eqn:E.
  - rewrite (create_coincident _ _ _ E). eexists _, _. split; [reflexivity |]. left. auto.
  - pose proof E as E'. unfold Bbox.create.
    destruct (Bbox.minmaxVec a b) as [minVec maxVec] eqn:Em. simpl in E. rewrite E.
    eexists _, _. split; [reflexivity |]. right. eexists _, _.
    split; [reflexivity |]. split; [reflexivity |].
    split; [| split; [reflexivity |]; split; reflexivity].
    unfold Bbox.minmaxVec in Em. inversion Em; subst minVec maxVec; clear Em.
    unfold ordered, at_; simpl.
    repeat split; apply round_mono.
    + destruct (ltb (x a) (x b)) eqn:E1; destruct (gtb (x b) (x a)) eqn:E2;
        try apply ltb_lt in E1; try apply ltb_ge in E1;
        try apply gtb_gt in E2; try apply gtb_le in E2; lra.
    + destruct (ltb (y a) (y b)) eqn:E1; destruct (gtb (y b) (y a)) eqn:E2;
        try apply ltb_lt in E1; try apply ltb_ge in E1;
        try apply gtb_gt in E2; try apply gtb_le in E2; lra.
    + destruct (ltb (z a) (y b)) eqn:E1; destruct (gtb (z b) (z a)) eqn:E2;
        try apply ltb_lt in E1; try apply ltb_ge in E1;
        try apply gtb_gt in E2; try apply gtb_le in E2; lra.
Qed.

(** *** [copy] *)

(** X2.  For a box whose bounds are set, ordered and unchanged by the
    rounding pass, and that is not a single point: when its lower z is
    below its upper y (or it is flat in z), [copy()] is a new box with
    the same bounds; when its lower z is at or above its upper y and it
    has an extent in x or y, the copy has the upper z for both z bounds:
    the height is lost. *)
Theorem copy_keeps_the_bounds (b : Bbox.t) (x0 x1 y0 y1 z0 z1 : number) :
  Bbox.bounds b = Some [x0; x1; y0; y1; z0; z1] ->
  ordered [x0; x1; y0; y1; z0; z1] ->
  rounded [x0; x1; y0; y1; z0; z1] ->
  (~ (x0 == x1 /\ y0 == y1 /\ z0 == z1) -> z0 < y1 \/ z0 == z1 ->
   exists r l,
     Bbox.copy b = (Normal r, created_msg) /\
     Bbox.bounds r = Some l /\ same_bounds l [x0; x1; y0; y1; z0; z1]) /\
  (x0 < x1 \/ y0 < y1 -> y1 <= z0 ->
   exists r l,
     Bbox.copy b = (Normal r, created_msg) /\
     Bbox.bounds r = Some l /\ same_bounds l [x0; x1; y0; y1; z1; z1]).
Proof.
  intros Hb (Ox & Oy & Oz) Hr. unfold at_ in Ox, Oy, Oz; simpl in Ox, Oy, Oz.
  assert (Hcopy : Bbox.copy b
                  = Bbox.constructor (Some (Vector.mk x0 y0 z0, Vector.mk x1 y1 z1))).
  { unfold Bbox.copy, Bbox.min, Bbox.max, Bbox.bounds_of. rewrite Hb. cbn [cbind].
    rewrite !bind_lift. reflexivity. }
  rewrite Hcopy. split.
  - intros Hne Hg.
    destruct (constructor_ordered (Vector.mk x0 y0 z0) (Vector.mk x1 y1 z1))
      as (r & l & Hc & Hl & Hs); simpl; try assumption.
    exists r, l. auto.
  - intros Hne Hg.
    pose proof (pick_min _ _ Ox) as [Px Qx]. pose proof (pick_max _ _ Ox) as [Px' Qx'].
    pose proof (pick_min _ _ Oy) as [Py Qy]. pose proof (pick_max _ _ Oy) as [Py' Qy'].
    pose proof (pick_max _ _ Oz) as [Pz' Qz'].
    assert (Ez : ltb z0 y1 = false) by (apply ltb_ge; exact Hg).
    set (lo := Vector.mk x0 y0 z0). set (hi := Vector.mk x1 y1 z1).
    assert (Hd : Vector.distance_is_zero (Bbox.minmaxVec lo hi).1 (Bbox.minmaxVec lo hi).2
                 = false).
    { apply distance_not_zero. intros (Cx & Cy & Cz).
      unfold Bbox.minmaxVec in Cx, Cy; simpl in Cx, Cy. lra. }
    destruct (create_distinct Bbox.fresh lo hi Hd) as (r & Hc & Hl).
    exists r. eexists. split; [| split; [exact Hl |]].
    + unfold Bbox.constructor. rewrite Hc. reflexivity.
    + unfold rounded in Hr.
      repeat match goal with H : Forall _ (_ :: _) |- _ => inversion H; subst; clear H end.
      unfold same_bounds, Bbox.minmaxVec. simpl. rewrite Ez.
      repeat constructor; eapply round_pick; eauto; reflexivity.
Qed.

(** X3.  [copy()] of a box whose two corners coincide (the box of a
    Vertex) is not a copy: the constructor refuses the corners, the new
    instance has its [bounds] at [null], and the console holds the error
    line. *)
Theorem copy_of_a_point_box_has_no_bounds (b : Bbox.t) (x0 x1 y0 y1 z0 z1 : number) :
  Bbox.bounds b = Some [x0; x1; y0; y1; z0; z1] ->
  x0 == x1 -> y0 == y1 -> z0 == z1 ->
  Bbox.copy b = (Normal Bbox.fresh, failed_msg) /\ Bbox.bounds Bbox.fresh = None.
Proof.
  intros Hb Hx Hy Hz. split; [| reflexivity].
  unfold Bbox.copy, Bbox.min, Bbox.max, Bbox.bounds_of. rewrite Hb. cbn [cbind].
  rewrite !bind_lift. unfold at_; simpl.
  unfold Bbox.constructor. rewrite create_coincident; [reflexivity |].
  apply distance_is_zero_iff. unfold Bbox.minmaxVec, coincident; simpl.
  repeat split.
  - destruct (ltb x0 x1); destruct (gtb x1 x0); lra.
  - destruct (ltb y0 y1); destruct (gtb y1 y0); lra.
  - destruct (ltb z0 y1); destruct (gtb z1 z0); lra.
Qed.

(** *** [getPositionAtPerc] *)


(** *** [_containsBbox] and [contains] *)

(** X5.  [_containsBbox] is a preorder on the boxes whose bounds are set:
    a box contains itself; if [a] contains [b] and [b] contains [c] then
    [a] contains [c]; and two boxes that contain each other have equal
    bounds. *)
Theorem containsBbox_is_a_preorder (a b c : Bbox.t) (la : list number) :
  Bbox.bounds a = Some la ->
  Bbox._containsBbox a (Some a) = Normal true /\
  (Bbox._containsBbox a (Some b) = Normal true ->
   Bbox._containsBbox b (Some c) = Normal true ->
   Bbox._containsBbox a (Some c) = Normal true) /\
  (Bbox._containsBbox a (Some b) = Normal true ->
   Bbox._containsBbox b (Some a) = Normal true ->
   exists lb, Bbox.bounds b = Some lb /\ forall i, (i < 6)%nat -> at_ la i == at_ lb i).
Proof.
  intros Ha. unfold Bbox._containsBbox, Bbox.bounds_of. rewrite Ha. cbn [cbind].
  split; [| split].
  - f_equal. unfold geb. rewrite !andb_true_iff, !leb_le. repeat split; apply Qle_refl.
  - destruct (Bbox.bounds b) as [lb |]; [| discriminate]. cbn [cbind].
    destruct (Bbox.bounds c) as [lc |]; [| discriminate]. cbn [cbind].
    intros Hab Hbc. injection Hab as Hab'. injection Hbc as Hbc'. f_equal.
    unfold geb in *. rewrite !andb_true_iff, !leb_le in *.
    decompose [and] Hab'. decompose [and] Hbc'. repeat split; lra.
  - destruct (Bbox.bounds b) as [lb |]; [| discriminate]. cbn [cbind].
    intros Hab Hba. injection Hab as Hab'. injection Hba as Hba'.
    exists lb. split; [reflexivity |].
    unfold geb in *. rewrite !andb_true_iff, !leb_le in *.
    decompose [and] Hab'. decompose [and] Hba'. intros i Hi.
    destruct i as [| [| [| [| [| [| i]]]]]]; try lia; lra.
Qed.

(** X6.  [contains(vertex)] compares the x of the Vertex, not its y, with
    the upper y bound.  So on a box whose upper x bound is at most its
    upper y bound, a Vertex is reported as contained exactly when it is
    within the x range and the z range and at or above the lower y bound,
    however far beyond the upper y bound it lies. *)
Theorem contains_vertex_skips_upper_y (b : Bbox.t) (x0 x1 y0 y1 z0 z1 : number)
    (vertex : Vector.t) :
  Bbox.bounds b = Some [x0; x1; y0; y1; z0; z1] ->
  x1 <= y1 ->
  exists r,
    Bbox.contains b (Bbox.arg_vertex vertex) = (Normal r, []) /\
    (r = true <->
     x0 <= x vertex <= x1 /\ y0 <= y vertex /\ z0 <= z vertex <= z1).
Proof.
  intros Hb Hxy. unfold Bbox.contains, Bbox.bounds_of. rewrite Hb.
  rewrite bind_lift. eexists. split; [reflexivity |].
  unfold at_, geb; simpl. rewrite !andb_true_iff, !leb_le.
  split; intros H; repeat split; lra.
Qed.

(** *** [isPoint], [is2D] and [axisMissingIn2D] *)

(** X7.  With a tolerance that is not negative, a box that [isPoint()] is
    also [is2D()], and [axisMissingIn2D()] then names z; and for every
    box whose bounds are set, [axisMissingIn2D()] is [null] exactly when
    the box is not 2D. *)
Theorem a_point_box_is_2D {TOk : TolerancesOk T} (b : Bbox.t) (l : list number) :
  Bbox.bounds b = Some l ->
  (Bbox.isPoint b = Normal true ->
   Bbox.is2D b = Normal true /\ Bbox.axisMissingIn2D b = Normal (Some Vector.ax_z)) /\
  (Bbox.axisMissingIn2D b = Normal None <-> Bbox.is2D b = Normal false).
Proof.
  intros Hb.
  assert (Htol : SHAPE_TOLERANCE <= add (fl (4 # 10)) SHAPE_TOLERANCE).
  { rewrite <- tolerance_double at 1. apply fl_mono.
    assert (H04 : 0 <= fl (4 # 10)) by by_evaluation. lra. }
  unfold Bbox.isPoint, Bbox.is2D, Bbox.axisMissingIn2D, Bbox.is2D, Bbox.height, Bbox.width,
    Bbox.depth, Bbox.bounds_of. rewrite Hb. cbn [cbind].
  set (h := sub (at_ l 5) (at_ l 4)). set (w := sub (at_ l 1) (at_ l 0)).
  set (d := sub (at_ l 3) (at_ l 2)).
  split.
  - intros H. injection H as H'. rewrite !andb_true_iff, !leb_le in H'.
    destruct H' as [[Hh Hw] Hd].
    assert (E : leb h (add Bbox.TOLERANCE_2D SHAPE_TOLERANCE) = true).
    { apply leb_le. unfold Bbox.TOLERANCE_2D. lra. }
    rewrite E. cbn [orb negb cbind].
    assert (E' : leb h SHAPE_TOLERANCE = true) by (now apply leb_le).
    rewrite E'. split; reflexivity.
  - destruct (leb h (add Bbox.TOLERANCE_2D SHAPE_TOLERANCE)
              || leb w (add Bbox.TOLERANCE_2D SHAPE_TOLERANCE)
              || leb d (add Bbox.TOLERANCE_2D SHAPE_TOLERANCE)); cbn [negb cbind].
    + destruct (leb h SHAPE_TOLERANCE); [split; discriminate |].
      destruct (leb w SHAPE_TOLERANCE); split; discriminate.
    + split; reflexivity.
Qed.

End More.

(** *** [corner] and [diagonal] *)

Lemma side_has_one_axis (side a a' : string) :
  In (side, a) SIDES_AND_AXES -> In (side, a') SIDES_AND_AXES -> a = a'.
Proof.
  intros H H'. cbn in H, H'.
  repeat (destruct H as [H | H]; [inversion H; subst |]); try destruct H;
    repeat (destruct H' as [H' | H']; [inversion H'; subst; try reflexivity |]);
    try destruct H'.
Qed.

(** The loop of [corner] over the entries of a table, for one axis [a]
    whose two sides are [low] and [high]. *)
Lemma sides_fold (where_ a low high : string) (tab : list (string * string)) :
  (forall side axis, In (side, axis) tab ->
                     In (side, str_remove_first "-" axis) SIDES_AND_AXES) ->
  (forall side, In (side, a) SIDES_AND_AXES -> side = low \/ side = high) ->
  In (high, a) SIDES_AND_AXES ->
  forall sides : gmap string string,
    sides !! a = Some low \/ sides !! a = Some high ->
    let r := fold_left (fun sides (entry : string * string) =>
                          let '(side, axis) := entry in
                          if str_includes where_ side then
                            let a := str_remove_first "-" axis in
                            <[ a := side ]> sides
                          else sides) tab sides in
    (r !! a = Some low \/ r !! a = Some high) /\
    (str_includes where_ high = false -> sides !! a = Some low -> r !! a = Some low) /\
    (str_includes where_ low = false -> str_includes where_ high = true ->
     sides !! a = Some high \/ In high (List.map fst tab) -> r !! a = Some high).
Proof.
  intros Htab Hax Hhigh. induction tab as [| [side axis] tab IH]; intros sides Hs.
  - cbn. split; [exact Hs |]. split; [auto |]. intros _ _ [H | []]. exact H.
  - cbn [fold_left].
    assert (Hent : In (side, str_remove_first "-" axis) SIDES_AND_AXES)
      by (apply Htab; now left).
    assert (Htab' : forall side axis, In (side, axis) tab ->
                                     In (side, str_remove_first "-" axis) SIDES_AND_AXES)
      by (intros s' a' H'; apply Htab; now right).
    specialize (IH Htab').
    destruct (str_includes where_ side) eqn:Einc.
    + destruct (decide (str_remove_first "-" axis = a)) as [Ea | Ea].
      * rewrite Ea in *. destruct (Hax side Hent) as [-> | ->].
        -- destruct (IH (<[a := low]> sides)) as (I1 & I2 & I3);
             [left; apply lookup_insert_eq |].
           split; [exact I1 |]. split.
           ++ intros Hh _. apply I2; [exact Hh | apply lookup_insert_eq].
           ++ intros Hl. congruence.
        -- destruct (IH (<[a := high]> sides)) as (I1 & I2 & I3);
             [right; apply lookup_insert_eq |].
           split; [exact I1 |]. split.
           ++ intros Hh. congruence.
           ++ intros Hl Hh _. apply I3; auto. left. apply lookup_insert_eq.
      * destruct (IH (<[str_remove_first "-" axis := side]> sides)) as (I1 & I2 & I3);
          [rewrite lookup_insert_ne by exact Ea; exact Hs |].
        split; [exact I1 |]. split.
        -- intros Hh Hl. apply I2; [exact Hh |]. now rewrite lookup_insert_ne by exact Ea.
        -- intros Hl Hh Hin. apply I3; auto.
           rewrite lookup_insert_ne by exact Ea.
           destruct Hin as [Hin | [Hin | Hin]]; [now left | | now right].
           cbn in Hin. subst side. exfalso. apply Ea.
           exact (side_has_one_axis _ _ _ Hent Hhigh).
    + destruct (IH sides Hs) as (I1 & I2 & I3).
      split; [exact I1 |]. split; [exact I2 |].
      intros Hl Hh Hin. apply I3; auto.
      destruct Hin as [Hin | [Hin | Hin]]; [now left | | now right].
      cbn in Hin. subst side. congruence.
Qed.

Section Corner.
Context {T : Tolerances} {S : SideTable} {SOk : SideTableOk S}.

Lemma sidesOf_axis (where_ a low high : string) :
  (forall side, In (side, a) SIDES_AND_AXES -> side = low \/ side = high) ->
  In (high, a) SIDES_AND_AXES ->
  Bbox.DEFAULT_SIDES !! a = Some low ->
  (Bbox.sidesOf where_ !! a = Some low \/ Bbox.sidesOf where_ !! a = Some high) /\
  (str_includes (toLowerCase where_) high = false -> Bbox.sidesOf where_ !! a = Some low) /\
  (str_includes (toLowerCase where_) low = false ->
   str_includes (toLowerCase where_) high = true -> Bbox.sidesOf where_ !! a = Some high).
Proof.
  intros Hax Hhigh Hdef.
  destruct (sides_fold (toLowerCase where_) a low high SIDE_TO_AXIS side_axis Hax Hhigh
              Bbox.DEFAULT_SIDES (or_introl Hdef)) as (I1 & I2 & I3).
  split; [exact I1 |]. split.
  - intros Hh. now apply I2.
  - intros Hl Hh. apply I3; auto. right. apply side_listed.
    apply (in_map fst) in Hhigh. exact Hhigh.
Qed.

(** The bound that [corner] reads for the axis [a], whose sides are [low]
    and [high] and whose bounds are [q0] and [q1]. *)
Lemma corner_bound (bs : list number) (where_ a low high : string) (i0 i1 : nat)
    (q0 q1 : number) :
  (forall side, In (side, a) SIDES_AND_AXES -> side = low \/ side = high) ->
  In (high, a) SIDES_AND_AXES ->
  Bbox.DEFAULT_SIDES !! a = Some low ->
  Bbox.SIDE_TO_BOUND !! low = Some i0 -> Bbox.SIDE_TO_BOUND !! high = Some i1 ->
  bs !! i0 = Some q0 -> bs !! i1 = Some q1 ->
  exists p, Bbox.boundOfSide bs (Bbox.sidesOf where_) a = Some p /\
            (p = q0 \/ p = q1) /\
            (str_includes (toLowerCase where_) high = false -> p = q0) /\
            (str_includes (toLowerCase where_) low = false ->
             str_includes (toLowerCase where_) high = true -> p = q1).
Proof.
  intros Hax Hhigh Hdef Hi0 Hi1 Hq0 Hq1.
  destruct (sidesOf_axis where_ a low high Hax Hhigh Hdef) as (S1 & S2 & S3).
  unfold Bbox.boundOfSide.
  destruct S1 as [E | E].
  - exists q0. rewrite E. cbn. rewrite Hi0. cbn. split; [exact Hq0 |].
    split; [now left |]. split; [auto |].
    intros Hl Hh. specialize (S3 Hl Hh). rewrite E in S3. inversion S3 as [Heq].
    rewrite Heq, Hi1 in Hi0. inversion Hi0; subst. congruence.
  - exists q1. rewrite E. cbn. rewrite Hi1. cbn. split; [exact Hq1 |].
    split; [now right |]. split; [| auto].
    intros Hh. specialize (S2 Hh). rewrite E in S2. inversion S2 as [Heq].
    rewrite Heq, Hi0 in Hi1. inversion Hi1; subst. congruence.
Qed.

Lemma axis_sides (a low high : string) :
  In (a, low, high) [("x", "left", "right"); ("y", "front", "back"); ("z", "bottom", "top")] ->
  forall side, In (side, a) SIDES_AND_AXES -> side = low \/ side = high.
Proof.
  intros Ha side H. cbn in Ha, H.
  repeat (destruct Ha as [Ha | Ha]; [inversion Ha; subst |]); try destruct Ha;
    repeat (destruct H as [H | H]; [inversion H; subst; auto |]); destruct H.
Qed.

(** [corner] on a box that is not a point reads one bound per axis. *)
Lemma corner_unfold (b : Bbox.t) (bs : list number) (where_ : string) (is2d : bool) :
  Bbox.bounds b = Some bs -> Bbox.isPoint b = Normal false -> Bbox.is2D b = Normal is2d ->
  Bbox.corner b where_
  = Normal (Bbox.boundOfSide bs (Bbox.sidesOf where_) "x",
            Bbox.boundOfSide bs (Bbox.sidesOf where_) "y",
            if is2d then Some 0 else Bbox.boundOfSide bs (Bbox.sidesOf where_) "z").
Proof.
  intros Hb Hpt H2. unfold Bbox.corner. rewrite Hpt. cbn [cbind]. rewrite H2. cbn [cbind].
  unfold Bbox.bounds_of. rewrite Hb. cbn [cbind]. destruct is2d; reflexivity.
Qed.

Lemma is2D_answers (b : Bbox.t) (bs : list number) :
  Bbox.bounds b = Some bs -> exists is2d, Bbox.is2D b = Normal is2d.
Proof.
  intros Hb. unfold Bbox.is2D, Bbox.height, Bbox.width, Bbox.depth, Bbox.bounds_of.
  rewrite Hb. cbn [cbind]. eauto.
Qed.

(** X8.  On a box that is not a point, and with a side table that names
    the six sides with their axes, [corner(where)] is a corner of the
    box for every string: its x is one of the two x bounds, its y one of
    the two y bounds, its z one of the two z bounds, or 0 when the box is
    2D.  An axis of which [where] names no upper side ("right", "back",
    "top") gets the lower bound, which is also the default; an axis of
    which it names the upper and not the lower side gets the upper bound.
    Upper and lower case are not told apart. *)
Theorem corner_is_a_corner_of_the_box (b : Bbox.t) (x0 x1 y0 y1 z0 z1 : number)
    (where_ : string) :
  Bbox.bounds b = Some [x0; x1; y0; y1; z0; z1] ->
  Bbox.isPoint b = Normal false ->
  exists px py pz is2d,
    Bbox.corner b where_ = Normal (Some px, Some py, Some pz) /\
    Bbox.is2D b = Normal is2d /\
    (px = x0 \/ px = x1) /\ (py = y0 \/ py = y1) /\
    (if is2d then pz = 0 else pz = z0 \/ pz = z1) /\
    (str_includes (toLowerCase where_) "right" = false -> px = x0) /\
    (str_includes (toLowerCase where_) "back" = false -> py = y0) /\
    (str_includes (toLowerCase where_) "top" = false -> is2d = false -> pz = z0) /\
    (str_includes (toLowerCase where_) "left" = false ->
     str_includes (toLowerCase where_) "right" = true -> px = x1) /\
    (str_includes (toLowerCase where_) "front" = false ->
     str_includes (toLowerCase where_) "back" = true -> py = y1) /\
    (str_includes (toLowerCase where_) "bottom" = false ->
     str_includes (toLowerCase where_) "top" = true -> is2d = false -> pz = z1).
Proof.
  intros Hb Hpt.
  set (bs := [x0; x1; y0; y1; z0; z1]) in *.
  destruct (corner_bound bs where_ "x" "left" "right" 0 1 x0 x1)
    as (px & Ex & Px & Px0 & Px1);
    [apply axis_sides; cbn; tauto | cbn; tauto | reflexivity ..|].
  destruct (corner_bound bs where_ "y" "front" "back" 2 3 y0 y1)
    as (py & Ey & Py & Py0 & Py1);
    [apply axis_sides; cbn; tauto | cbn; tauto | reflexivity ..|].
  destruct (corner_bound bs where_ "z" "bottom" "top" 4 5 z0 z1)
    as (pz & Ez & Pz & Pz0 & Pz1);
    [apply axis_sides; cbn; tauto | cbn; tauto | reflexivity ..|].
  destruct (is2D_answers b bs Hb) as (is2d & H2).
  rewrite (corner_unfold b bs where_ is2d Hb Hpt H2), Ex, Ey, Ez.
  destruct is2d.
  - exists px, py, 0, true. repeat split; auto; discriminate.
  - exists px, py, pz, false. repeat split; auto.
Qed.

(** X9.  With a side table that names the six sides with their axes:
    on a point box, [diagonal()] is the Vertex at the centre, which is
    also what [corner] answers whatever it is asked; on a 2D box it is
    the Edge from (xmin, ymin, 0) to (xmax, ymax, 0); on any other box it
    is the Edge from [min()] to [max()]. *)
Theorem diagonal_spans_the_box (b : Bbox.t) (x0 x1 y0 y1 z0 z1 : number) :
  Bbox.bounds b = Some [x0; x1; y0; y1; z0; z1] ->
  (Bbox.isPoint b = Normal true ->
   exists c, Bbox.center b = Normal c /\
             Bbox.diagonal b = Normal (Bbox.diagonal_vertex c) /\
             forall where_, Bbox.corner b where_ = Normal (Some (x c), Some (y c), Some (z c))) /\
  (Bbox.isPoint b = Normal false -> Bbox.is2D b = Normal true ->
   Bbox.diagonal b = Normal (Bbox.diagonal_edge (Some x0, Some y0, Some 0)
                                                 (Some x1, Some y1, Some 0))) /\
  (Bbox.isPoint b = Normal false -> Bbox.is2D b = Normal false ->
   Bbox.diagonal b = Normal (Bbox.diagonal_edge (Some x0, Some y0, Some z0)
                                                 (Some x1, Some y1, Some z1))).
Proof.
  intros Hb. set (bs := [x0; x1; y0; y1; z0; z1]) in *.
  assert (Hlow : forall where_,
             str_includes (toLowerCase where_) "right" = false ->
             str_includes (toLowerCase where_) "back" = false ->
             Bbox.boundOfSide bs (Bbox.sidesOf where_) "x" = Some x0 /\
             Bbox.boundOfSide bs (Bbox.sidesOf where_) "y" = Some y0 /\
             (str_includes (toLowerCase where_) "top" = false ->
              Bbox.boundOfSide bs (Bbox.sidesOf where_) "z" = Some z0)).
  { intros where_ Hr Hk.
    destruct (corner_bound bs where_ "x" "left" "right" 0 1 x0 x1)
      as (px & Ex & _ & Px0 & _);
      [apply axis_sides; cbn; tauto | cbn; tauto | reflexivity ..|].
    destruct (corner_bound bs where_ "y" "front" "back" 2 3 y0 y1)
      as (py & Ey & _ & Py0 & _);
      [apply axis_sides; cbn; tauto | cbn; tauto | reflexivity ..|].
    destruct (corner_bound bs where_ "z" "bottom" "top" 4 5 z0 z1)
      as (pz & Ez & _ & Pz0 & _);
      [apply axis_sides; cbn; tauto | cbn; tauto | reflexivity ..|].
    rewrite Ex, Ey, Ez, (Px0 Hr), (Py0 Hk). split; [reflexivity |].
    split; [reflexivity |]. intros Ht. now rewrite (Pz0 Ht). }
  assert (Hhigh : forall where_,
             str_includes (toLowerCase where_) "left" = false ->
             str_includes (toLowerCase where_) "right" = true ->
             str_includes (toLowerCase where_) "front" = false ->
             str_includes (toLowerCase where_) "back" = true ->
             Bbox.boundOfSide bs (Bbox.sidesOf where_) "x" = Some x1 /\
             Bbox.boundOfSide bs (Bbox.sidesOf where_) "y" = Some y1 /\
             (str_includes (toLowerCase where_) "bottom" = false ->
              str_includes (toLowerCase where_) "top" = true ->
              Bbox.boundOfSide bs (Bbox.sidesOf where_) "z" = Some z1)).
  { intros where_ Hl Hr Hf Hk.
    destruct (corner_bound bs where_ "x" "left" "right" 0 1 x0 x1)
      as (px & Ex & _ & _ & Px1);
      [apply axis_sides; cbn; tauto | cbn; tauto | reflexivity ..|].
    destruct (corner_bound bs where_ "y" "front" "back" 2 3 y0 y1)
      as (py & Ey & _ & _ & Py1);
      [apply axis_sides; cbn; tauto | cbn; tauto | reflexivity ..|].
    destruct (corner_bound bs where_ "z" "bottom" "top" 4 5 z0 z1)
      as (pz & Ez & _ & _ & Pz1);
      [apply axis_sides; cbn; tauto | cbn; tauto | reflexivity ..|].
    rewrite Ex, Ey, Ez, (Px1 Hl Hr), (Py1 Hf Hk). split; [reflexivity |].
    split; [reflexivity |]. intros Hb' Ht. now rewrite (Pz1 Hb' Ht). }
  split; [| split].
  - intros Hpt. unfold Bbox.diagonal, Bbox.corner. rewrite Hpt. cbn [cbind].
    unfold Bbox.center, Bbox.bounds_of. rewrite Hb. cbn [cbind].
    eexists. split; [reflexivity |]. split; reflexivity.
  - intros Hpt H2. unfold Bbox.diagonal. rewrite Hpt. cbn [cbind]. rewrite H2. cbn [cbind].
    rewrite !(corner_unfold b bs _ true Hb Hpt H2).
    destruct (Hlow "leftfront" eq_refl eq_refl) as (-> & -> & _).
    destruct (Hhigh "rightback" eq_refl eq_refl eq_refl eq_refl) as (-> & -> & _).
    reflexivity.
  - intros Hpt H2. unfold Bbox.diagonal. rewrite Hpt. cbn [cbind]. rewrite H2. cbn [cbind].
    rewrite !(corner_unfold b bs _ false Hb Hpt H2).
    destruct (Hlow "leftfrontbottom" eq_refl eq_refl) as (-> & -> & Hz).
    destruct (Hhigh "rightbacktop" eq_refl eq_refl eq_refl eq_refl) as (-> & -> & Hz').
    rewrite (Hz eq_refl), (Hz' eq_refl eq_refl). reflexivity.
Qed.

End Corner.

(** *** The properties above at closed inputs *)

(** X1 at the corners (1,10,3) and (0,10,5). *)
Lemma constructor_returns_ordered_bounds_witness :
  exists r out, Bbox.constructor (Some (V 1 10 3, V 0 10 5)) = (Normal r, out).
Proof.
  destruct (constructor_returns_ordered_bounds (V 1 10 3) (V 0 10 5)) as (r & out & H & _).
  exists r, out. exact H.
Defined.

(** X2 at the unit cube at the origin. *)
Lemma copy_keeps_the_bounds_witness :
  exists r l, Bbox.copy boxA = (Normal r, created_msg) /\
              Bbox.bounds r = Some l /\ same_bounds l [0; 1; 0; 1; 0; 1].
Proof.
  refine (proj1 (copy_keeps_the_bounds boxA 0 1 0 1 0 1 _ _ _) _ _); by_parts.
Defined.

(** X3 at the box of a Vertex at (2,2,2). *)
Lemma copy_of_a_point_box_witness :
  Bbox.copy (Example.boxOf (V 2 2 2) (V 2 2 2)) = (Normal Bbox.fresh, failed_msg).
Proof.
  refine (proj1 (copy_of_a_point_box_has_no_bounds
                   (Example.boxOf (V 2 2 2) (V 2 2 2)) 2 2 2 2 2 2 _ _ _ _));
    reflexivity.
Defined.


(** X5 at the cube of side 10, which contains the unit cube. *)
Lemma containsBbox_witness :
  Bbox._containsBbox cube10 (Some cube10) = Normal true /\
  Bbox._containsBbox cube10 (Some boxA) = Normal true.
Proof.
  split.
  - exact (proj1 (containsBbox_is_a_preorder cube10 boxA boxA _ eq_refl)).
  - refine (proj1 (proj2 (containsBbox_is_a_preorder cube10 boxA boxA _ eq_refl)) _ _);
      vm_compute; reflexivity.
Defined.

(** X6 at the cube of side 10 and the Vertex (5, 50, 5), which lies
    outside the cube and is reported as contained. *)
Lemma contains_vertex_witness :
  Bbox.contains cube10 (Bbox.arg_vertex (V 5 50 5)) = (Normal true, []).
Proof.
  destruct (contains_vertex_skips_upper_y cube10 0 10 0 10 0 10 (V 5 50 5) eq_refl)
    as (r & Hr & Hiff); [by_parts |].
  rewrite Hr. f_equal. f_equal. apply Hiff. by_parts.
Defined.

(** X7 at the box of a Vertex at (2,2,2). *)
Lemma a_point_box_is_2D_witness :
  Bbox.is2D (Example.boxOf (V 2 2 2) (V 2 2 2)) = Normal true /\
  Bbox.axisMissingIn2D (Example.boxOf (V 2 2 2) (V 2 2 2)) = Normal (Some Vector.ax_z).
Proof.
  refine (proj1 (a_point_box_is_2D (Example.boxOf (V 2 2 2) (V 2 2 2)) _ eq_refl) _).
  vm_compute. reflexivity.
Defined.

#[local] Existing Instance referenceSides.

(** X8 at the cube of side 10 and the string "TopLeft". *)
Lemma corner_witness :
  exists px py pz,
    Bbox.corner cube10 "TopLeft" = Normal (Some px, Some py, Some pz) /\
    px = 0 /\ py = 0 /\ pz = 10.
Proof.
  destruct (corner_is_a_corner_of_the_box cube10 0 10 0 10 0 10 "TopLeft" eq_refl)
    as (px & py & pz & is2d & Hc & H2 & _ & _ & _ & Hx & Hy & _ & _ & _ & Hz);
    [vm_compute; reflexivity |].
  exists px, py, pz. split; [exact Hc |].
  assert (is2d = false) by (vm_compute in H2; congruence).
  split; [apply Hx; reflexivity |]. split; [apply Hy; reflexivity |].
  apply Hz; [reflexivity | reflexivity | assumption].
Defined.

(** X9 at the cube of side 10. *)
Lemma diagonal_witness :
  Bbox.diagonal cube10 = Normal (Bbox.diagonal_edge (Some 0, Some 0, Some 0)
                                                     (Some 10, Some 10, Some 10)).
Proof.
  refine (proj2 (proj2 (diagonal_spans_the_box cube10 0 10 0 10 0 10 eq_refl)) _ _);
    vm_compute; reflexivity.
Defined.

End BboxProofs.

(** ** ShapeCollection *)

Module CollectionProofs.
Import Js JsFacts Spec Inputs ShapeCollection.
Local Open Scope js_scope.

(** *** [bbox], [center] and [lowestType] *)

Section Aggregates.
Context {Shape : Type} {api : ShapeApi Shape} {T : Tolerances}.

(** C4, on the code as it is.  On a collection without shapes [center()]
    returns [null], and [bbox()] throws a TypeError: it calls [bbox()] on
    [this.first()], which is [undefined]. *)
Theorem C4_bbox_of_empty_collection_throws (groups : list (string * list (value Shape))) :
  count (mk [] groups) = 0%nat /\
  ShapeCollection.bbox (mk [] groups) = (Throw (TypeError "not a Shape"), []) /\
  ShapeCollection.center (mk [] groups) = (Normal None, []).
Proof. repeat split. Qed.

Lemma indexOf_TYPES_ORDERED (ty : ShapeType) :
  indexOf TYPES_ORDERED (ShapeName ty) = Z.of_nat (rank ty).
Proof. destruct ty; reflexivity. Qed.

(** The loop of [lowestType] over single entities, entered with a type
    already chosen: it ends on a type of the greatest index. *)
Lemma lowestType_forEach_spec (l : list Shape) (ty : ShapeType) :
  exists ty',
    lowestType_forEach (List.map VShape l) (Some (ShapeName ty)) (Z.of_nat (rank ty))
      = Normal (Some (ShapeName ty'), Z.of_nat (rank ty')) /\
    In ty' (ty :: List.map Shape_type l) /\
    forall u, In u (ty :: List.map Shape_type l) -> (rank u <= rank ty')%nat.
Proof.
  revert ty. induction l as [| s l IH]; intros ty.
  - exists ty. simpl. split; [reflexivity |]. split; [now left |].
    intros u [<- | []]. lia.
  - cbn [List.map lowestType_forEach typeOf cbind]. rewrite indexOf_TYPES_ORDERED.
    destruct (Z.of_nat (rank ty) <? Z.of_nat (rank (Shape_type s)))%Z eqn:E.
    + apply Z.ltb_lt in E. destruct (IH (Shape_type s)) as (ty' & H1 & H2 & H3).
      exists ty'. split; [exact H1 |]. split.
      * right. exact H2.
      * intros u [<- | Hu]; [| now apply H3].
        specialize (H3 (Shape_type s) (or_introl eq_refl)). lia.
    + apply Z.ltb_ge in E. destruct (IH ty) as (ty' & H1 & H2 & H3).
      exists ty'. split; [exact H1 |]. split.
      * destruct H2 as [-> | H2]; [now left | right; now right].
      * intros u [<- | [<- | Hu]].
        -- apply H3. now left.
        -- specialize (H3 ty (or_introl eq_refl)). lia.
        -- apply H3. now right.
Qed.

End Aggregates.

(** *** Ingestion keeps collections flat *)

Lemma rbind_normal {A B} (m : R A) (k : A -> R B) (b : B) (out : console) :
  rbind m k = Some (Normal b, out) ->
  exists a o1 o2, m = Some (Normal a, o1) /\ k a = Some (Normal b, o2) /\ out = o1 ++ o2.
Proof.
  unfold rbind. destruct m as [[[a | e] o1] |]; try discriminate.
  destruct (k a) as [[r o2] |] eqn:E; try discriminate.
  intros H. inversion H; subst. eauto 6.
Qed.


(** An invariant of the variables of a [forEach] holds when the loop ends. *)
Lemma forEach_invariant {A S} (P : S -> Prop) (Q : A -> Prop) (body : S -> A -> R S) :
  (forall s a s' out, P s -> Q a -> body s a = Some (Normal s', out) -> P s') ->
  forall arr s s' out,
    Forall Q arr -> P s -> forEach body arr s = Some (Normal s', out) -> P s'.
Proof.
  intros Hbody arr. induction arr as [| a arr IH]; intros s s' out HQ HP H.
  - inversion H; subst. exact HP.
  - cbn [forEach] in H. apply rbind_normal in H as (s1 & o1 & o2 & H1 & H2 & _).
    inversion HQ as [| ? ? Ha Harr]; subst.
    apply (IH s1 s' o2 Harr); [| exact H2].
    exact (Hbody s a s1 o1 HP Ha H1).
Qed.



Section Ingestion.
Context {Shape : Type} {api : ShapeApi Shape} {K : ShapeKernel Shape}
        {F : Flatten Shape} {FOk : FlattenOk F}.

Local Abbreviation value := (value Shape).





Lemma flat_wf (shapes : list value) : flat shapes -> forallb wfb shapes = true.
Proof.
  unfold flat. rewrite forallb_forall, Forall_forall. intros H v Hv.
  apply list_elem_of_In in Hv. destruct (H v Hv) as [Hs _]. destruct v; try discriminate.
  reflexivity.
Qed.















End Ingestion.

(** *** Every method that writes [shapes] keeps collections flat *)



Lemma rlift_normal {A} (m : M A) (r : completion A * console) : rlift m = Some r -> m = r.
Proof. unfold rlift. congruence. Qed.

Section Mutations.
Context {Shape : Type} {api : ShapeApi Shape} {K : ShapeKernel Shape}
        {F : Flatten Shape} {A : ArraySort Shape}
        {KOk : ShapeKernelOk K} {FOk : FlattenOk F} {AOk : ArraySortOk A}.

Local Abbreviation value := (value Shape).








End Mutations.

Lemma forEach_total {A S} (body : S -> A -> R S) (arr : list A) :
  Forall (fun a => forall s, exists s' out, body s a = Some (Normal s', out)) arr ->
  forall s, exists s' out, forEach body arr s = Some (Normal s', out).
Proof.
  induction 1 as [| a arr Ha _ IH]; intros s; cbn [forEach].
  - unfold rret, ret. eauto.
  - destruct (Ha s) as (s1 & o1 & ->). cbn [rbind].
    destruct (IH s1) as (s2 & o2 & ->). eauto.
Qed.

(** *** Enough fuel *)

Section Totality.
Context {Shape : Type} {api : ShapeApi Shape} {K : ShapeKernel Shape}
        {F : Flatten Shape} {A : ArraySort Shape} {FO : ArraysOpened F}.

Local Abbreviation value := (value Shape).

Lemma addEntity_total (construct : value -> R t) (st : ingest) (es : value) :
  isPlainArray es = false ->
  exists st' out, addEntity construct st es = Some (Normal st', out).
Proof.
  intros Hes. destruct es; try discriminate; cbn; eauto.
  destruct (bool_decide (Shape_type s = Vertex)); eauto.
  destruct (Shape_isEmpty s); cbn; eauto.
Qed.

(** The loop of [_addEntities] returns. *)
Lemma addEntities_loop_total (construct : value -> R t) (entities : value) (st : ingest) :
  exists st' out,
    forEach (addEntity construct) (flattenEntitiesToArray entities) st
    = Some (Normal st', out).
Proof.
  apply forEach_total. apply Forall_forall. intros e He st0.
  apply addEntity_total.
  pose proof (flattenEntitiesToArray_opened entities) as Hop.
  rewrite forallb_forall in Hop. apply negb_true_iff. apply Hop.
  now apply list_elem_of_In.
Qed.


(** On a table without groups, [_addEntities] without a group returns,
    and leaves the table without groups. *)
Lemma _addEntities_total (fuel : nat) (this : t) (entities : value) :
  _groups this = [] ->
  exists c out, _addEntities (S fuel) this entities None = Some (Normal c, out) /\
                _groups c = [].
Proof.
  intros Hg. cbn [_addEntities]. unfold _addEntities_with.
  destruct (addEntities_loop_total
              (fun es => constructor_with (_addEntities fuel) es []) entities
              (mkIngest (shapes this) [])) as (st' & o & Hrun).
  destruct entities; try (rewrite Hrun, Hg; cbn; eexists _, _; split; reflexivity).
  unfold rret, ret. eauto.
Qed.

Lemma fromAll_total (fuel : nat) (this : t) (entities : value) :
  _groups this = [] ->
  exists c out, fromAll (S fuel) this entities = Some (Normal c, out) /\ _groups c = [].
Proof. unfold fromAll, fromAll_with. apply _addEntities_total. Qed.

Lemma constructor_total (fuel : nat) (entities : value) (args : list value) :
  exists c out, constructor (S fuel) entities args = Some (Normal c, out) /\ _groups c = [].
Proof.
  unfold constructor, constructor_with. destruct (truthy entities).
  - now apply (fromAll_total fuel).
  - unfold rret, ret. eauto.
Qed.


Lemma groups_define_keys (P : string -> Prop) (groups : list (string * list value))
    (k : string) (v : list value) :
  Forall P (List.map fst groups) -> P k -> Forall P (List.map fst (groups_define groups k v)).
Proof.
  induction groups as [| [k' v'] groups IH]; intros Hg Hk; cbn [groups_define List.map fst].
  - repeat constructor; assumption.
  - inversion Hg; subst. destruct (key_before k k'); cbn [List.map fst].
    + constructor; [assumption |]. constructor; assumption.
    + constructor; auto.
Qed.


(** [_setFakeGroupKeys] returns on a table none of whose keys names a
    member of the instance, when the constructor returns. *)
Lemma _setFakeGroupKeys_total (construct : value -> R t)
    (groups : list (string * list value)) :
  (forall es, exists c out, construct es = Some (Normal c, out)) ->
  keys_leave_members (List.map fst groups) ->
  exists out, _setFakeGroupKeys_with construct groups = Some (Normal tt, out).
Proof.
  intros Hcon Hk. unfold _setFakeGroupKeys_with.
  assert (Hall : forall u : unit, exists u' out,
             forEach (fun (_ : unit) (entry : string * list value) =>
                        let '(k, v) := entry in
                        if negb (String.eqb k "shapes") then
                          let* _ := construct (VArray v) in
                          if existsb (String.eqb k) (MEMBERS ++ OBJECT_PROTOTYPE_KEYS) then None else rret tt
                        else rret tt) groups u = Some (Normal u', out)).
  { apply forEach_total. apply List.Forall_forall. intros [k v] Hin u.
    assert (Hkey : key_leaves_members k = true).
    { unfold keys_leave_members in Hk. rewrite List.Forall_forall in Hk. apply Hk.
      apply in_map_iff. exists (k, v). auto. }
    unfold key_leaves_members in Hkey.
    destruct (String.eqb k "shapes") eqn:Es; cbn [negb orb] in Hkey |- *.
    - unfold rret, ret. eauto.
    - destruct (Hcon (VArray v)) as (c & o & ->). cbn [rbind].
      apply negb_true_iff in Hkey. rewrite Hkey. unfold rret, ret. eauto. }
  destruct (Hall tt) as ([] & out & Hrun). eauto.
Qed.


Lemma constructor_returns (fuel : nat) (es : value) :
  exists c out, constructor_with (_addEntities (S fuel)) es [] = Some (Normal c, out).
Proof.
  destruct (constructor_total fuel es []) as (c & out & H & _). eauto.
Qed.








End Totality.

(** *** The reference helpers and the example kernel obey the laws *)

Section ValueInduction.
Context {Shape : Type} (P : value Shape -> Prop).
Hypothesis HNull : P VNull.
Hypothesis HCoord : forall p, P (VCoord p).
Hypothesis HShape : forall s, P (VShape s).
Hypothesis HCollection : forall shapes, P (VCollection shapes).
Hypothesis HArray : forall items, Forall P items -> P (VArray items).
Hypothesis HOther : forall b, P (VOther b).

(** Induction on a value through the arrays it is made of. *)
Lemma value_array_ind : forall v, P v.
Proof.
  fix IH 1. intros [| p | s | shapes | items | b].
  - exact HNull.
  - apply HCoord.
  - apply HShape.
  - apply HCollection.
  - apply HArray. induction items as [| v items IHitems].
    + constructor.
    + constructor; [apply IH | exact IHitems].
  - apply HOther.
Qed.

End ValueInduction.

Lemma forallb_flat_map {A B} (p : B -> bool) (f : A -> list B) (l : list A) :
  Forall (fun a => forallb p (f a) = true) l -> forallb p (flat_map f l) = true.
Proof.
  induction 1 as [| a l Ha _ IH]; [reflexivity |].
  simpl. rewrite forallb_app, Ha, IH. reflexivity.
Qed.

Section ReferenceFlatten.
Context {Shape : Type}.

Lemma flattenToList_wf (v : value Shape) :
  wfb v = true -> forallb wfb (flattenToList v) = true.
Proof.
  induction v as [| p | s | shapes | items IH | b] using value_array_ind; intros Hv;
    cbn [flattenToList forallb]; rewrite ?Hv; try reflexivity.
  apply forallb_flat_map. cbn [wfb] in Hv. rewrite forallb_forall in Hv.
  rewrite Forall_forall in IH |- *. intros v Hin. apply IH; [exact Hin |].
  apply Hv. now apply list_elem_of_In.
Qed.

Lemma flattenToList_opened (v : value Shape) :
  forallb (fun e => negb (isPlainArray e)) (flattenToList v) = true.
Proof.
  induction v as [| p | s | shapes | items IH | b] using value_array_ind;
    try reflexivity.
  cbn [flattenToList]. now apply forallb_flat_map.
Qed.

#[global] Instance referenceFlatten_ok : FlattenOk (referenceFlatten Shape).
Proof.
  split; intros v Hv; cbn; now apply flattenToList_wf.
Qed.

#[global] Instance referenceFlatten_opened : ArraysOpened (referenceFlatten Shape).
Proof. split. intros v. apply flattenToList_opened. Qed.

End ReferenceFlatten.

#[global] Instance example_kernel_ok : ShapeKernelOk Example.kernel.
Proof. split; reflexivity. Qed.

#[global] Instance example_sorter_ok : ArraySortOk Example.sorter.
Proof. split. reflexivity. Qed.

(** *** Flatness, [lowestType] and [unique] *)

Section Properties.
Context {Shape : Type} {api : ShapeApi Shape} {K : ShapeKernel Shape}
        {F : Flatten Shape} {A : ArraySort Shape}.



(** C6, amended.  For every collection of at least one single entity,
    [lowestType()] returns a type present among the members whose position
    in the ranking Solid > Shell > Face > Wire > Edge > Vertex is the last
    of those present: the lowest dimension. *)
Theorem C6_lowestType_is_the_last_ranked (s : Shape) (l : list Shape) :
  lowestType_is_lowest_ranked (s :: l).
Proof.
  unfold lowestType_is_lowest_ranked, lowestType_is, lowestType.
  cbn [List.map shapes lowestType_forEach typeOf cbind]. rewrite indexOf_TYPES_ORDERED.
  replace (-1 <? Z.of_nat (rank (Shape_type s)))%Z with true
    by (symmetry; apply Z.ltb_lt; lia).
  destruct (lowestType_forEach_spec l (Shape_type s)) as (ty & H1 & H2 & H3).
  exists ty. rewrite H1. cbn [cbind fst]. split; [reflexivity |]. split; [exact H2 |].
  exact H3.
Qed.

End Properties.

#[local] Existing Instance referenceFlatten.



(** C6 fails on a Solid and a Vertex: [lowestType()] is ['Vertex'], which
    the Solid outranks. *)
Lemma C6_counterexample :
  ~ lowestType_is_highest_ranked
      [Example.solidAt 1 10 (0, 0, 0)%Z (1, 1, 1)%Z; Example.vertexAt 2 20 (5, 5, 5)%Z].
Proof.
  intros (ty & Hty & _ & Hrank). vm_compute in Hty. inversion Hty; subst ty.
  specialize (Hrank Solid (or_introl eq_refl)). vm_compute in Hrank.
  apply (Nat.nle_succ_0 _ Hrank).
Qed.

(** C7, on the code as it is.  Two Vertices at the same coordinates with
    different hash codes are geometrically equal, and [unique()] keeps
    both. *)
Theorem C7_unique_keeps_geometric_duplicates :
  Shape_equals (Example.vertexAt 1 11 (0, 0, 0)%Z) (Example.vertexAt 2 22 (0, 0, 0)%Z) = true /\
  exists out,
    unique 1 (mk [VShape (Example.vertexAt 1 11 (0, 0, 0)%Z);
                  VShape (Example.vertexAt 2 22 (0, 0, 0)%Z)] [])
    = Some (Normal (mk [VShape (Example.vertexAt 1 11 (0, 0, 0)%Z);
                        VShape (Example.vertexAt 2 22 (0, 0, 0)%Z)] [],
                    mk [VShape (Example.vertexAt 1 11 (0, 0, 0)%Z);
                        VShape (Example.vertexAt 2 22 (0, 0, 0)%Z)] []), out).
Proof. split; [reflexivity |]. eexists. vm_compute. reflexivity. Qed.

(** *** The constructor on an array of Shapes *)

Section Bridge.
Context {Shape : Type} {api : ShapeApi Shape} {K : ShapeKernel Shape}.

#[local] Existing Instance referenceFlatten.

Lemma flattenToList_shapes (l : list Shape) :
  flattenToList (VArray (List.map VShape l)) = List.map VShape l.
Proof.
  cbn [flattenToList]. induction l as [| s l IH]; [reflexivity |].
  cbn [List.map flat_map flattenToList app]. now rewrite IH.
Qed.

Lemma forEach_addEntity_shapes (construct : value Shape -> R t) (l : list Shape) :
  forall st, exists st' out,
    forEach (addEntity construct) (List.map VShape l) st = Some (Normal st', out) /\
    i_shapes st' = i_shapes st ++ List.map VShape (List.filter kept l).
Proof.
  induction l as [| s l IH]; intros st.
  - exists st, []. split; [reflexivity |]. cbn. now rewrite app_nil_r.
  - cbn [List.map forEach List.filter]. unfold kept at 1.
    cbn [addEntity isPointLike isAnyShapeCollection isPointLikeSequence isAnyShape as_shape
         toVertex].
    destruct (bool_decide (Shape_type s = Vertex)); cbn [orb].
    + destruct (IH (push_both st (VShape s))) as (st' & out & Hrun & Hsh).
      exists st'. eexists. unfold rret, ret. cbn [rbind]. rewrite Hrun. split; [reflexivity |].
      rewrite Hsh. cbn. now rewrite <- app_assoc.
    + destruct (Shape_isEmpty s); cbn [negb].
      * destruct (IH st) as (st' & out & Hrun & Hsh).
        exists st'. eexists. cbn. rewrite Hrun. split; [reflexivity | exact Hsh].
      * destruct (IH (push_both st (VShape s))) as (st' & out & Hrun & Hsh).
        exists st'. eexists. unfold rret, ret. cbn [rbind]. rewrite Hrun.
        split; [reflexivity |]. rewrite Hsh. cbn. now rewrite <- app_assoc.
Qed.

(** [new ShapeCollection(shapes)] on an array of Shapes holds the Shapes
    that ingestion keeps, in their order. *)
Lemma addEntities_of_shapes (fuel : nat) (l : list Shape) :
  exists c out,
    constructor (S fuel) (VArray (List.map VShape l)) [] = Some (Normal c, out) /\
    shapes c = List.map VShape (List.filter kept l).
Proof.
  unfold constructor, constructor_with, fromAll_with.
  cbn [truthy isPlainArray flattenEntities referenceFlatten].
  rewrite app_nil_r, !flattenToList_shapes.
  cbn [_addEntities]. unfold _addEntities_with.
  cbn [flattenEntitiesToArray referenceFlatten]. rewrite flattenToList_shapes.
  destruct (forEach_addEntity_shapes
              (fun es => constructor_with (_addEntities fuel) es []) l
              (mkIngest (shapes empty) [])) as (st' & out & Hrun & Hsh).
  rewrite Hrun. cbn. eexists _, _. split; [reflexivity |]. exact Hsh.
Qed.

End Bridge.

Section Unique.
Context {Shape : Type} {api : ShapeApi Shape} {K : ShapeKernel Shape}
        {F : Flatten Shape}.

Lemma filterC_total {A} (f : A -> completion bool) (l : list A) :
  Forall (fun a => exists b, f a = Normal b) l -> exists r, filterC f l = Normal r.
Proof.
  induction 1 as [| a l [b Hb] _ [r IH]]; [cbn; eauto |].
  cbn [filterC]. rewrite Hb, IH. cbn. eauto.
Qed.

Lemma rbind_rret {A B} (a : A) (k : A -> R B) : rbind (rret a) k = k a.
Proof. unfold rbind, rret, ret. destruct (k a) as [[r o] |]; reflexivity. Qed.

(** A [forEach] whose body only computes is a fold. *)
Lemma forEach_pure {A S} (body : S -> A -> R S) (g : S -> A -> S) (arr : list A) :
  Forall (fun a => forall s, body s a = rret (g s a)) arr ->
  forall s, forEach body arr s = rret (fold_left g arr s).
Proof.
  induction 1 as [| a arr Ha _ IH]; intros s; cbn [forEach fold_left]; [reflexivity |].
  rewrite Ha, rbind_rret. apply IH.
Qed.

Lemma fold_left_push {A} (arr acc : list A) :
  fold_left (fun us c => us ++ [c]) arr acc = acc ++ arr.
Proof.
  revert acc. induction arr as [| a arr IH]; intros acc; cbn [fold_left].
  - now rewrite app_nil_r.
  - rewrite IH, <- app_assoc. reflexivity.
Qed.

(** X10.  [unique()] is [distinct()] followed by a new collection of what
    [distinct()] left: [usedShapes] is empty at every turn of the loop,
    every Shape is pushed, and the geometric comparison decides nothing. *)
Lemma unique_is_distinct (fuel : nat) (groups : list (string * list (value Shape)))
    (l d : list Shape) (out : console) :
  distinct (mk (List.map VShape l) groups) = (Normal (mk (List.map VShape d) groups), out) ->
  unique fuel (mk (List.map VShape l) groups)
  = let* result := rbind (Some (Normal tt, out))
                         (fun _ => constructor fuel (VArray (List.map VShape d)) []) in
    rret (mk (List.map VShape d) groups, result).
Proof.
  intros Hd. unfold unique. unfold rlift at 1. rewrite Hd.
  cbn [rbind toArray shapes].
  match goal with
  | |- context [forEach ?body (List.map VShape d) []] =>
      assert (Hloop : forEach body (List.map VShape d) [] = rret (List.map VShape d))
  end.
  { etransitivity; [apply (forEach_pure _ (fun us c => us ++ [c])) |
                    now rewrite fold_left_push].
    apply Forall_forall. intros v Hv us.
    apply list_elem_of_In, in_map_iff in Hv as (s & <- & _).
    cbn [includes existsb negb].
    destruct (filterC_total
                (fun testShape => let? c := as_shape (VShape s) in
                                  let? o := as_shape testShape in
                                  Normal (Shape_equals c o)) (List.map VShape d))
      as [r Hr].
    { apply Forall_forall. intros v Hv.
      apply list_elem_of_In, in_map_iff in Hv as (o & <- & _). cbn. eauto. }
    rewrite Hr. reflexivity. }
  rewrite Hloop, rbind_rret.
  destruct (constructor fuel (VArray (List.map VShape d)) []) as [[[c | e] o] |];
    cbn; rewrite ?app_nil_r; reflexivity.
Qed.

End Unique.

(** *** Ingestion only appends; groups *)

Section Appends.
Context {Shape : Type} {api : ShapeApi Shape} {K : ShapeKernel Shape} {F : Flatten Shape}.

Local Abbreviation value := (value Shape).

Lemma addPoint_appends (construct : value -> R t) (st st' : ingest) (e : value)
    (out : console) :
  addPoint construct st e = Some (Normal st', out) ->
  exists more, i_shapes st' = i_shapes st ++ more.
Proof.
  unfold addPoint. intros H.
  destruct (isPointLike e).
  { inversion H; subst. cbn. eauto. }
  destruct (isAnyShape e).
  { destruct (as_shape e) as [s |]; [| discriminate].
    destruct (negb (Shape_isEmpty s)).
    - inversion H; subst. cbn. eauto.
    - inversion H; subst. exists []. now rewrite app_nil_r. }
  destruct (isAnyShapeCollection e).
  { destruct e; try (inversion H; subst; exists []; now rewrite app_nil_r).
    apply rbind_normal in H as (vs & o1 & o2 & _ & H2 & _).
    inversion H2; subst. cbn. eauto. }
  inversion H; subst. exists []. now rewrite app_nil_r.
Qed.

Lemma forEach_appends {A} (body : @ingest Shape -> A -> R (@ingest Shape)) (arr : list A) :
  (forall st a st' out, body st a = Some (Normal st', out) ->
                        exists more, i_shapes st' = i_shapes st ++ more) ->
  forall st st' out, forEach body arr st = Some (Normal st', out) ->
                     exists more, i_shapes st' = i_shapes st ++ more.
Proof.
  intros Hbody st st' out H.
  refine (forEach_invariant (fun s => exists more, i_shapes s = i_shapes st ++ more)
            (fun _ => True) body _ arr st st' out _ _ H).
  - intros s a s' o [more Hs] _ Hb. destruct (Hbody _ _ _ _ Hb) as [more' Hs'].
    exists (more ++ more'). rewrite Hs', Hs. now rewrite app_assoc.
  - apply Forall_forall. auto.
  - exists []. now rewrite app_nil_r.
Qed.

Lemma addEntity_appends (construct : value -> R t) (st st' : ingest) (es : value)
    (out : console) :
  addEntity construct st es = Some (Normal st', out) ->
  exists more, i_shapes st' = i_shapes st ++ more.
Proof.
  unfold addEntity. intros H.
  assert (Hsame : forall o, Some (ret st) = Some (Normal st', o) ->
                            exists more, i_shapes st' = i_shapes st ++ more).
  { intros o Ho. inversion Ho; subst. exists []. now rewrite app_nil_r. }
  destruct es as [| p | s | ss | items | b]; cbn [isPointLike isAnyShapeCollection
    isPointLikeSequence isAnyShape as_shape] in H.
  - inversion H; subst. exists []. now rewrite app_nil_r.
  - inversion H; subst. cbn. eauto.
  - destruct (bool_decide (Shape_type s = Vertex)).
    + inversion H; subst. cbn. eauto.
    + destruct (negb (Shape_isEmpty s)).
      * inversion H; subst. cbn. eauto.
      * inversion H; subst. exists []. now rewrite app_nil_r.
  - inversion H; subst. cbn. eauto.
  - destruct (forallb isPointLike items).
    + apply rbind_normal in H as (points & o1 & o2 & _ & H2 & _).
      eapply forEach_appends; [| exact H2].
      intros; eapply addPoint_appends; eauto.
    + inversion H; subst. exists []. now rewrite app_nil_r.
  - inversion H; subst. exists []. now rewrite app_nil_r.
Qed.

Lemma groups_define_has (groups : list (string * list value)) (k name : string)
    (v : list value) :
  In name (List.map fst groups) -> In name (List.map fst (groups_define groups k v)).
Proof.
  induction groups as [| [k' v'] groups IH]; [intros [] |].
  cbn [groups_define List.map fst]. intros Hin.
  destruct (key_before k k'); cbn [List.map fst]; [now right |].
  destruct Hin as [-> | Hin]; [now left | right; auto].
Qed.

Lemma groups_define_only (groups : list (string * list value)) (k name : string)
    (v : list value) :
  In name (List.map fst (groups_define groups k v)) ->
  name = k \/ In name (List.map fst groups).
Proof.
  induction groups as [| [k' v'] groups IH]; cbn [groups_define List.map fst].
  - intros [<- | []]. now left.
  - destruct (key_before k k'); cbn [List.map fst].
    + intros [<- | H]; [now left | now right].
    + intros [<- | H]; [right; now left |].
      destruct (IH H) as [-> | Hin]; [now left | right; now right].
Qed.

(** X11.  [_addEntities] only appends: when it returns (without
    overwriting a member of the instance), the [shapes] it found are a
    prefix of the [shapes] it leaves, in the same order; the table has
    the groups it had and at most one more, the one that the call names.
    This holds for whatever it is given and for every flattening helper. *)
Theorem addEntities_only_appends (fuel : nat) (this c : t) (entities : value)
    (group : option string) (out : console) :
  _addEntities fuel this entities group = Some (Normal c, out) ->
  (exists more, shapes c = shapes this ++ more) /\
  (forall name, In name (List.map fst (_groups this)) ->
                In name (List.map fst (_groups c))) /\
  (forall name, In name (List.map fst (_groups c)) ->
                In name (List.map fst (_groups this)) \/ group = Some name).
Proof.
  destruct fuel as [| fuel]; [discriminate |].
  cbn [_addEntities]. unfold _addEntities_with. intros H.
  assert (Hloop : forall st o,
             forEach (addEntity (fun es => constructor_with (_addEntities fuel) es []))
                     (flattenEntitiesToArray entities) (mkIngest (shapes this) [])
             = Some (Normal st, o) ->
             exists more, i_shapes st = shapes this ++ more).
  { intros st o Hf.
    refine (forEach_appends _ _ _ (mkIngest (shapes this) []) st o Hf).
    intros; eapply addEntity_appends; eauto. }
  assert (Hreg : forall added groups,
             registerGroup (_groups this) group added = Normal groups ->
             (forall name, In name (List.map fst (_groups this)) ->
                           In name (List.map fst groups)) /\
             (forall name, In name (List.map fst groups) ->
                           In name (List.map fst (_groups this)) \/ group = Some name)).
  { intros added groups Hr. unfold registerGroup in Hr.
    destruct group as [g |]; [| inversion Hr; subst; auto].
    destruct (String.eqb g ""); [inversion Hr; subst; auto |].
    destruct (groups_at (_groups this) g); try discriminate; inversion Hr; subst; auto.
    split.
    - intros name. apply groups_define_has.
    - intros name Hin. destruct (groups_define_only _ _ _ _ Hin) as [-> | Hin']; auto. }
  destruct entities;
    try (apply rbind_normal in H as (st & o1 & o2 & H1 & H2 & _);
         apply rbind_normal in H2 as (groups & o3 & o4 & H3 & H4 & _);
         apply rbind_normal in H4 as (u & o5 & o6 & _ & H6 & _);
         inversion H6; subst; cbn [shapes _groups];
         apply rlift_normal in H3; unfold lift in H3; injection H3 as H3 _;
         split; [eapply Hloop; eauto | eapply Hreg; eauto]).
  inversion H; subst. split; [exists []; now rewrite app_nil_r | auto].
Qed.

(** Under a flattening helper that opens every array, the two arrays of
    the loop grow by the same Shapes. *)(** Under a flattening helper that opens every array, the two arrays of
    the loop grow by the same Shapes. *)
Lemma addEntity_sync (construct : value -> R t) (st : ingest) (es : value) :
  isPlainArray es = false ->
  exists st' out more,
    addEntity construct st es = Some (Normal st', out) /\
    i_shapes st' = i_shapes st ++ more /\ addedShapes st' = addedShapes st ++ more.
Proof.
  intros Hes. destruct es as [| p | s | ss | items | b]; try discriminate; cbn.
  - exists st, [warn "ShapeCollection::_addEntities: Skipped null!"], [].
    now rewrite !app_nil_r.
  - eexists _, _, _. split; [reflexivity |]. split; reflexivity.
  - destruct (bool_decide (Shape_type s = Vertex)).
    + eexists _, _, _. split; [reflexivity |]. split; reflexivity.
    + destruct (Shape_isEmpty s); cbn.
      * eexists st, _, []. split; [reflexivity |]. now rewrite !app_nil_r.
      * eexists _, _, _. split; [reflexivity |]. split; reflexivity.
  - eexists _, _, _. split; [reflexivity |]. split; reflexivity.
  - eexists st, _, []. split; [reflexivity |]. now rewrite !app_nil_r.
Qed.

Lemma forEach_sync (construct : value -> R t) (arr : list value) :
  forallb (fun e => negb (isPlainArray e)) arr = true ->
  forall st, exists st' out more,
    forEach (addEntity construct) arr st = Some (Normal st', out) /\
    i_shapes st' = i_shapes st ++ more /\ addedShapes st' = addedShapes st ++ more.
Proof.
  induction arr as [| e arr IH]; intros Harr st.
  - exists st, [], []. split; [reflexivity |]. now rewrite !app_nil_r.
  - cbn [forallb] in Harr. apply andb_true_iff in Harr as [He Harr].
    apply negb_true_iff in He.
    destruct (addEntity_sync construct st e He) as (st1 & o1 & m1 & H1 & S1 & A1).
    destruct (IH Harr st1) as (st2 & o2 & m2 & H2 & S2 & A2).
    exists st2, (o1 ++ o2), (m1 ++ m2). cbn [forEach]. rewrite H1. cbn [rbind].
    rewrite H2. split; [reflexivity |].
    rewrite S2, A2, S1, A1, !app_assoc. split; reflexivity.
Qed.

Lemma own_group_define (groups : list (string * list value)) (k : string) (v : list value) :
  own_group groups k = None -> own_group (groups_define groups k v) k = Some v.
Proof.
  unfold own_group. induction groups as [| [k' v'] groups IH]; cbn.
  - now rewrite String.eqb_refl.
  - destruct (String.eqb k' k) eqn:E; [discriminate |]. intros H.
    destruct (key_before k k'); cbn.
    + now rewrite String.eqb_refl.
    + rewrite E. now apply IH.
Qed.

Lemma _addEntities_with_unfold (construct : value -> R t) (this : t) (entities : value)
    (group : option string) :
  entities <> VNull ->
  _addEntities_with construct this entities group
  = (let* st := forEach (addEntity construct) (flattenEntitiesToArray entities)
                        (mkIngest (shapes this) []) in
     let* groups := rlift (lift (registerGroup (_groups this) group (addedShapes st))) in
     let* _ := _setFakeGroupKeys_with construct groups in
     rret (mk (i_shapes st) groups)).
Proof. intros He. destruct entities; [congruence | reflexivity ..]. Qed.

(** X12.  With a flattening helper that opens every array, take
    [addGroup(g, entities)] for entities that are not [null] and a name
    that is not empty and names no group yet.  When [g] names a property
    that every object inherits (['constructor'], ['toString'], ..), the
    call throws a TypeError: the table answers the inherited property,
    which has no [concat].  Otherwise, when neither [g] nor a group of
    the table is named like a member of the instance, the call returns,
    the Shapes it adds are appended to [shapes], and the group [g] is made
    of exactly these Shapes. *)
Theorem addGroup_makes_a_group_of_what_it_adds {FO : ArraysOpened F} (fuel : nat) (this : t)
    (g : string) (entities : value) :
  g <> ""%string -> entities <> VNull ->
  own_group (_groups this) g = None ->
  (existsb (String.eqb g) OBJECT_PROTOTYPE_KEYS = true ->
   exists out,
     addGroup (S (S fuel)) this (Some g) entities
     = Some (Throw (TypeError "this._groups[group].concat is not a function"), out)) /\
  (existsb (String.eqb g) OBJECT_PROTOTYPE_KEYS = false ->
   leaves_members (List.map fst (_groups this)) (Some g) ->
   exists c out added,
     addGroup (S (S fuel)) this (Some g) entities = Some (Normal c, out) /\
     shapes c = shapes this ++ added /\
     own_group (_groups c) g = Some added).
Proof.
  intros Hg He Hown. unfold addGroup.
  change (_addEntities (S (S fuel)) this entities (Some g))
    with (_addEntities_with (fun es => constructor_with (_addEntities (S fuel)) es [])
                            this entities (Some g)).
  rewrite (_addEntities_with_unfold _ _ _ _ He).
  destruct (forEach_sync (fun es => constructor_with (_addEntities (S fuel)) es [])
              (flattenEntitiesToArray entities) (flattenEntitiesToArray_opened entities)
              (mkIngest (shapes this) [])) as (st & out & more & Hrun & Hs & Ha).
  cbn in Hs, Ha. rewrite Hrun. cbn [rbind rlift lift].
  unfold registerGroup, groups_at. apply String.eqb_neq in Hg. rewrite Hg, Hown.
  split; intros Hinh; rewrite Hinh.
  - eexists. reflexivity.
  - intros [Hk Hkg].
    assert (Hk' : keys_leave_members
                    (List.map fst (groups_define (_groups this) g (addedShapes st)))).
    { apply groups_define_keys; [exact Hk | now apply Hkg]. }
    destruct (_setFakeGroupKeys_total
                (fun es => constructor_with (_addEntities (S fuel)) es []) _
                (constructor_returns fuel) Hk') as (o1 & ->).
    cbn [rbind rret ret]. unfold _setFakeGroupKeys, constructor. cbn [_groups].
    destruct (_setFakeGroupKeys_total
                (fun es => constructor_with (_addEntities (S (S fuel))) es []) _
                (constructor_returns (S fuel)) Hk') as (o2 & ->).
    cbn [rbind rret ret]. eexists _, _, more. split; [reflexivity |].
    cbn [shapes _groups]. split; [exact Hs |].
    rewrite Ha. now apply own_group_define.
Qed.

End Appends.

(** *** [distinct] *)

Section Distinct.
Context {Shape : Type} {api : ShapeApi Shape} {K : ShapeKernel Shape}.

Local Abbreviation value := (value Shape).
Local Abbreviation object := (list (N * value)).

Lemma obj_get_None (o : object) (k : N) :
  obj_get o k = None <-> ~ In k (List.map fst o).
Proof.
  unfold obj_get. induction o as [| [k' v'] o IH]; cbn.
  - tauto.
  - destruct (k' =? k)%N eqn:E; cbn.
    + apply N.eqb_eq in E. split; [discriminate | intros H; exfalso; apply H; now left].
    + apply N.eqb_neq in E. rewrite IH. tauto.
Qed.

Lemma obj_get_Some_in (o : object) (k : N) (v : value) :
  obj_get o k = Some v -> In k (List.map fst o).
Proof.
  intros H. destruct (in_dec N.eq_dec k (List.map fst o)) as [Hin | Hin]; [exact Hin |].
  apply obj_get_None in Hin. congruence.
Qed.

(** Where [obj_define] puts the new entry. *)
Lemma obj_define_split (o : object) (k : N) (v : value) :
  exists o1 o2,
    o = o1 ++ o2 /\ obj_define o k v = o1 ++ (k, v) :: o2 /\
    Forall (fun kv => goes_before k (fst kv) = false) o1.
Proof.
  induction o as [| [k' v'] o IH]; cbn [obj_define].
  - exists [], []. repeat split. constructor.
  - fold (goes_before k k'). destruct (goes_before k k') eqn:E.
    + exists [], ((k', v') :: o). repeat split. constructor.
    + destruct IH as (o1 & o2 & Ho & Hd & Hf).
      exists ((k', v') :: o1), o2. rewrite Hd, Ho. repeat split.
      constructor; [exact E | exact Hf].
Qed.

Lemma obj_define_perm (o : object) (k : N) (v : value) :
  Permutation (obj_define o k v) ((k, v) :: o).
Proof.
  destruct (obj_define_split o k v) as (o1 & o2 & -> & -> & _).
  symmetry. apply Permutation_middle.
Qed.

Lemma obj_get_define (o : object) (k k' : N) (v : value) :
  obj_get o k = None ->
  obj_get (obj_define o k v) k' = if (k =? k')%N then Some v else obj_get o k'.
Proof.
  unfold obj_get. induction o as [| [k1 v1] o IH]; intros Hk; cbn.
  - destruct (k =? k')%N; reflexivity.
  - cbn in Hk. destruct (k1 =? k)%N eqn:E1; [discriminate |].
    destruct (isArrayIndex k && (negb (isArrayIndex k1) || (k <? k1)%N)); cbn.
    + destruct (k =? k')%N; reflexivity.
    + destruct (k1 =? k')%N eqn:E2; cbn.
      * destruct (k =? k')%N eqn:E3; [| reflexivity].
        apply N.eqb_eq in E2, E3. apply N.eqb_neq in E1. congruence.
      * apply IH. exact Hk.
Qed.

Lemma listed_before_trans_front (k k1 k2 : N) :
  goes_before k k1 = true -> listed_before k1 k2 -> listed_before k k2.
Proof.
  unfold goes_before, listed_before. rewrite andb_true_iff, orb_true_iff, negb_true_iff.
  rewrite N.ltb_lt. intros [Hk Hc] H.
  left. split; [exact Hk |].
  destruct (isArrayIndex k2) eqn:E2; [right | now left].
  destruct H as [[H1 [H | H]] | [H1 H]]; try congruence.
  destruct Hc as [Hc | Hc]; [congruence | lia].
Qed.

Lemma listed_before_of_not_front (k k1 : N) :
  goes_before k k1 = false -> k <> k1 -> listed_before k1 k.
Proof.
  unfold goes_before, listed_before. intros Hc Hne.
  destruct (isArrayIndex k) eqn:Ek; destruct (isArrayIndex k1) eqn:Ek1; cbn in Hc;
    try discriminate; auto.
  apply N.ltb_ge in Hc. left. split; [reflexivity |]. right. lia.
Qed.

Lemma goes_before_listed (k k1 : N) : goes_before k k1 = true -> listed_before k k1.
Proof.
  unfold goes_before, listed_before. rewrite andb_true_iff, orb_true_iff, negb_true_iff.
  rewrite N.ltb_lt. intros [Hk Hc]. left. tauto.
Qed.

Lemma in_listing_order_define (o : object) (k : N) (v : value) :
  in_listing_order (List.map fst o) -> ~ In k (List.map fst o) ->
  in_listing_order (List.map fst (obj_define o k v)).
Proof.
  unfold in_listing_order. induction o as [| [k1 v1] o IH]; intros Hs Hk; cbn [obj_define].
  - cbn. repeat constructor.
  - cbn in Hs, Hk. apply StronglySorted_inv in Hs as [Hs Hall].
    fold (goes_before k k1). destruct (goes_before k k1) eqn:E.
    + cbn. constructor; [constructor; assumption |].
      constructor; [now apply goes_before_listed |].
      eapply Forall_impl; [exact Hall |].
      intros k2 H2. cbv beta in H2. eapply listed_before_trans_front; eauto.
    + cbn. constructor; [apply IH; tauto |].
      apply Forall_forall. intros k2 Hin. apply list_elem_of_In in Hin.
      apply in_map_iff in Hin as ([k3 v3] & <- & Hin).
      apply (Permutation_in _ (obj_define_perm o k v)) in Hin as [Hin | Hin].
      * inversion Hin; subst. cbn. apply listed_before_of_not_front; [exact E |].
        intros Heq. apply Hk. left. congruence.
      * rewrite Forall_forall in Hall. apply Hall. apply list_elem_of_In.
        apply in_map_iff. exists (k3, v3). auto.
Qed.

Lemma obj_define_last (o : object) (k : N) (v : value) :
  Forall (fun k' => listed_before k' k) (List.map fst o) ->
  ~ In k (List.map fst o) ->
  obj_define o k v = o ++ [(k, v)].
Proof.
  induction o as [| [k1 v1] o IH]; intros Hall Hk; cbn [obj_define]; [reflexivity |].
  cbn in Hall, Hk. inversion Hall as [| ? ? H1 Hrest]; subst.
  assert (E : isArrayIndex k && (negb (isArrayIndex k1) || (k <? k1)%N) = false).
  { unfold listed_before in H1.
    destruct (isArrayIndex k) eqn:Ek; [| reflexivity]. cbn.
    destruct H1 as [[H1 [H | H]] | [H1 H]]; try congruence.
    rewrite H1. cbn. apply N.ltb_ge. lia. }
  rewrite E. cbn. f_equal. apply IH; tauto.
Qed.

Lemma keys_of_entries (d : list Shape) :
  List.map fst (List.map hash_entry d) = List.map Shape_hashcode d.
Proof. rewrite List.map_map. reflexivity. Qed.

Lemma values_of_entries (d : list Shape) :
  Object_values (List.map hash_entry d) = List.map VShape d.
Proof. unfold Object_values. rewrite List.map_map. reflexivity. Qed.

(** The object after one more Shape with a new hash code. *)
Lemma obj_define_entry (d : list Shape) (s : Shape) :
  exists d1 d2,
    d = d1 ++ d2 /\
    obj_define (List.map hash_entry d) (Shape_hashcode s) (VShape s)
    = List.map hash_entry (d1 ++ s :: d2).
Proof.
  destruct (obj_define_split (List.map hash_entry d) (Shape_hashcode s) (VShape s))
    as (o1 & o2 & Ho & Hd & _).
  apply map_eq_app in Ho as (d1 & d2 & -> & <- & <-).
  exists d1, d2. split; [reflexivity |]. rewrite Hd, List.map_app. reflexivity.
Qed.

Lemma first_of_its_hash_more (pre : list Shape) (s s' : Shape) :
  first_of_its_hash pre s -> first_of_its_hash (pre ++ [s']) s.
Proof.
  intros (l1 & l2 & -> & H). exists l1, (l2 ++ [s']). split; [| exact H].
  now rewrite <- app_assoc.
Qed.

Lemma obj_get_entries (d : list Shape) (k : N) :
  obj_get (List.map hash_entry d) k = None <->
  forall s, In s d -> Shape_hashcode s <> k.
Proof.
  rewrite obj_get_None, keys_of_entries, in_map_iff. split.
  - intros H s Hs E. apply H. eauto.
  - intros H (s & E & Hs). exact (H s Hs E).
Qed.

Lemma distinct_step (pre d : list Shape) (s : Shape) :
  kept_firsts pre d ->
  exists d',
    match obj_get (List.map hash_entry d) (Shape_hashcode s) with
    | None => obj_define (List.map hash_entry d) (Shape_hashcode s) (VShape s)
    | Some _ => List.map hash_entry d
    end = List.map hash_entry d' /\
    kept_firsts (pre ++ [s]) d'.
Proof.
  intros [Hc Hn Hf Ha].
  destruct (obj_get (List.map hash_entry d) (Shape_hashcode s)) as [v |] eqn:Eg.
  - exists d. split; [reflexivity |]. split; auto.
    + intros s0 Hs0. now apply first_of_its_hash_more, Hf.
    + intros s0 Hs0. apply in_app_or in Hs0 as [Hs0 | [<- | []]]; [now apply Ha |].
      apply obj_get_Some_in in Eg. rewrite keys_of_entries, in_map_iff in Eg.
      destruct Eg as (s' & E & Hs'). eauto.
  - pose proof (proj1 (obj_get_entries d _) Eg) as Hnew.
    destruct (obj_define_entry d s) as (d1 & d2 & Hd & Hdef).
    exists (d1 ++ s :: d2). split; [exact Hdef |].
    assert (Hperm : Permutation (d1 ++ s :: d2) (s :: d)).
    { subst d. symmetry. apply Permutation_middle. }
    split.
    + rewrite <- keys_of_entries, <- Hdef. apply in_listing_order_define.
      * now rewrite keys_of_entries.
      * now apply obj_get_None.
    + eapply Permutation_NoDup; [symmetry; apply Permutation_map; exact Hperm |].
      cbn. constructor; [| exact Hn].
      rewrite in_map_iff. intros (s' & E & Hs'). exact (Hnew s' Hs' E).
    + intros s0 Hs0. apply (Permutation_in _ Hperm) in Hs0 as [<- | Hs0].
      * exists pre, []. split; [reflexivity |].
        intros s' Hs' E. destruct (Ha s' Hs') as (s'' & Hs'' & E').
        apply (Hnew s'' Hs''). congruence.
      * now apply first_of_its_hash_more, Hf.
    + intros s0 Hs0. apply in_app_or in Hs0 as [Hs0 | [<- | []]].
      * destruct (Ha s0 Hs0) as (s' & Hs' & E). exists s'. split; [| exact E].
        apply (Permutation_in _ (Permutation_sym Hperm)). now right.
      * exists s. split; [| reflexivity].
        apply (Permutation_in _ (Permutation_sym Hperm)). now left.
Qed.

Lemma distinct_loop (rest : list Shape) :
  forall pre d, kept_firsts pre d ->
    exists d', distinct_forEach (List.map VShape rest) (List.map hash_entry d)
               = Normal (List.map hash_entry d') /\
               kept_firsts (pre ++ rest) d'.
Proof.
  induction rest as [| s rest IH]; intros pre d Hk.
  - exists d. rewrite app_nil_r. split; [reflexivity | exact Hk].
  - destruct (distinct_step pre d s Hk) as (d1 & Hstep & Hk1).
    destruct (IH _ _ Hk1) as (d' & Hrun & Hk').
    exists d'. rewrite <- app_assoc in Hk'. split; [| exact Hk'].
    cbn [List.map distinct_forEach as_shape cbind].
    destruct (obj_get (List.map hash_entry d) (Shape_hashcode s));
      rewrite Hstep; exact Hrun.
Qed.

Lemma distinct_again (d2 : list Shape) :
  forall d1, in_listing_order (List.map Shape_hashcode (d1 ++ d2)) ->
             List.NoDup (List.map Shape_hashcode (d1 ++ d2)) ->
             distinct_forEach (List.map VShape d2) (List.map hash_entry d1)
             = Normal (List.map hash_entry (d1 ++ d2)).
Proof.
  induction d2 as [| s d2 IH]; intros d1 Hc Hn.
  - now rewrite app_nil_r.
  - cbn [List.map distinct_forEach as_shape cbind].
    rewrite List.map_app in Hc, Hn. cbn [List.map] in Hc, Hn.
    assert (Hnew : ~ In (Shape_hashcode s) (List.map Shape_hashcode d1)).
    { apply NoDup_remove_2 in Hn. intros Hin. apply Hn. apply in_or_app. now left. }
    assert (Hg : obj_get (List.map hash_entry d1) (Shape_hashcode s) = None).
    { apply obj_get_None. now rewrite keys_of_entries. }
    rewrite Hg, obj_define_last.
    + change [(Shape_hashcode s, VShape s)] with (List.map hash_entry [s]).
      rewrite <- List.map_app. rewrite (IH (d1 ++ [s])).
      * now rewrite <- app_assoc.
      * rewrite <- app_assoc, List.map_app. exact Hc.
      * rewrite <- app_assoc, List.map_app. exact Hn.
    + rewrite keys_of_entries. unfold in_listing_order in Hc.
      clear - Hc. induction d1 as [| s1 d1 IHd]; [constructor |].
      cbn in Hc. apply StronglySorted_inv in Hc as [Hs Hall].
      constructor; [| now apply IHd].
      rewrite List.Forall_forall in Hall. apply Hall. apply in_or_app. right. now left.
    + now rewrite keys_of_entries.
Qed.

Lemma kept_firsts_nil : kept_firsts [] [].
Proof.
  split; cbn; try constructor; intros s [].
Qed.

(** [distinct] on a collection of single entities. *)
Lemma distinct_spec (l : list Shape) (groups : list (string * list value)) :
  exists d,
    distinct (mk (List.map VShape l) groups) = (Normal (mk (List.map VShape d) groups), [])
    /\ kept_firsts l d.
Proof.
  destruct (distinct_loop l [] [] kept_firsts_nil) as (d & Hrun & Hk).
  exists d. split; [| exact Hk].
  unfold distinct. cbn [shapes _groups]. cbn [List.map] in Hrun. rewrite Hrun.
  rewrite bind_lift. unfold ret. now rewrite values_of_entries.
Qed.

(** X14.  On a collection of single entities [distinct()] returns, and
    what it leaves in [shapes] holds no two Shapes with one hash code;
    each Shape left is the first of the original [shapes] with its hash
    code, and every hash code of the original is still there. *)
Theorem distinct_keeps_the_first_of_each_hash (l : list Shape)
    (groups : list (string * list value)) :
  exists d,
    distinct (mk (List.map VShape l) groups) = (Normal (mk (List.map VShape d) groups), [])
    /\ List.NoDup (List.map Shape_hashcode d)
    /\ (forall s, In s d -> first_of_its_hash l s)
    /\ (forall s, In s l -> exists s', In s' d /\ Shape_hashcode s' = Shape_hashcode s).
Proof.
  destruct (distinct_spec l groups) as (d & Hd & [Hc Hn Hf Ha]).
  exists d. auto.
Qed.

Lemma first_of_its_hash_in (l : list Shape) (s : Shape) : first_of_its_hash l s -> In s l.
Proof. intros (l1 & l2 & -> & _). apply in_or_app. right. now left. Qed.

(** X15.  [distinct()] does not keep the order of [shapes]: what it
    leaves is in the order in which [Object.values] lists the hash codes.
    When every hash code is an array index (below 2^32 - 1), the Shapes
    left are in strictly ascending order of their hash codes, whatever
    the order they were in. *)
Theorem distinct_lists_the_shapes_by_hash (l : list Shape)
    (groups : list (string * list value)) :
  exists d,
    distinct (mk (List.map VShape l) groups) = (Normal (mk (List.map VShape d) groups), [])
    /\ StronglySorted listed_before (List.map Shape_hashcode d)
    /\ (Forall (fun s => isArrayIndex (Shape_hashcode s) = true) l ->
        StronglySorted N.lt (List.map Shape_hashcode d)).
Proof.
  destruct (distinct_spec l groups) as (d & Hd & [Hc Hn Hf Ha]).
  exists d. split; [exact Hd |]. split; [exact Hc |].
  intros Hidx.
  assert (Hd' : List.Forall (fun k => isArrayIndex k = true) (List.map Shape_hashcode d)).
  { apply List.Forall_forall. intros k Hk. apply in_map_iff in Hk as (s & <- & Hs).
    rewrite Forall_forall in Hidx. apply Hidx. apply list_elem_of_In.
    now apply first_of_its_hash_in, Hf. }
  unfold in_listing_order in Hc. clear - Hc Hd'.
  induction Hc as [| k ks Hs IH Hall]; [constructor |].
  inversion Hd' as [| ? ? Hk Hks]; subst.
  constructor; [now apply IH |].
  rewrite List.Forall_forall in Hall, Hks |- *. intros k' Hk'.
  destruct (Hall k' Hk') as [[_ [H | H]] | [H _]]; [| exact H |]; try congruence.
  specialize (Hks k' Hk'). congruence.
Qed.

(** X16.  [distinct()] is idempotent: called on the collection that a
    first call has left, it leaves that collection as it is. *)
Theorem distinct_twice_is_distinct_once (l : list Shape)
    (groups : list (string * list value)) (c : t) (out : console) :
  distinct (mk (List.map VShape l) groups) = (Normal c, out) ->
  distinct c = (Normal c, []).
Proof.
  destruct (distinct_spec l groups) as (d & Hd & [Hc Hn Hf Ha]).
  rewrite Hd. intros H. inversion H; subst c out; clear H.
  unfold distinct. cbn [shapes _groups].
  pose proof (distinct_again d [] Hc Hn) as Hrun. cbn [List.map app] in Hrun.
  rewrite Hrun, bind_lift. unfold ret. now rewrite values_of_entries.
Qed.

End Distinct.

(** *** Loops over a collection of single entities *)

Lemma existsC_map {A B} (f : A -> B) (p : B -> completion bool) (q : A -> bool)
    (l : list A) :
  (forall a, In a l -> p (f a) = Normal (q a)) ->
  existsC p (List.map f l) = Normal (existsb q l).
Proof.
  induction l as [| a l IH]; intros H; [reflexivity |].
  cbn [List.map existsC existsb]. rewrite (H a (or_introl eq_refl)). cbn [cbind].
  destruct (q a); [reflexivity |]. apply IH. intros a' Ha'. apply H. now right.
Qed.

Lemma filterC_map {A B} (f : A -> B) (p : B -> completion bool) (q : A -> bool)
    (l : list A) :
  (forall a, In a l -> p (f a) = Normal (q a)) ->
  filterC p (List.map f l) = Normal (List.map f (List.filter q l)).
Proof.
  induction l as [| a l IH]; intros H; [reflexivity |].
  cbn [List.map filterC List.filter]. rewrite (H a (or_introl eq_refl)). cbn [cbind].
  rewrite IH by (intros a' Ha'; apply H; now right). cbn [cbind].
  destruct (q a); reflexivity.
Qed.

Lemma everyC_map {A B} (f : A -> B) (p : B -> completion bool) (q : A -> bool)
    (l : list A) :
  (forall a, In a l -> p (f a) = Normal (q a)) ->
  everyC p (List.map f l) = Normal (forallb q l).
Proof.
  induction l as [| a l IH]; intros H; [reflexivity |].
  cbn [List.map everyC forallb]. rewrite (H a (or_introl eq_refl)). cbn [cbind].
  destruct (q a); [| reflexivity]. apply IH. intros a' Ha'. apply H. now right.
Qed.

Lemma findC_map {A B} (f : A -> B) (p : B -> completion bool) (q : A -> bool)
    (l : list A) :
  (forall a, In a l -> p (f a) = Normal (q a)) ->
  findC p (List.map f l) = Normal (f <$> List.find q l).
Proof.
  induction l as [| a l IH]; intros H; [reflexivity |].
  cbn [List.map findC List.find]. rewrite (H a (or_introl eq_refl)). cbn [cbind].
  destruct (q a); [reflexivity |]. apply IH. intros a' Ha'. apply H. now right.
Qed.

Lemma List_filter_sublist {A} (q : A -> bool) (l : list A) : sublist (List.filter q l) l.
Proof.
  induction l as [| a l IH]; cbn; [constructor |].
  destruct (q a); [now apply sublist_skip | now apply sublist_cons].
Qed.

Section Members.
Context {Shape : Type} {api : ShapeApi Shape} {K : ShapeKernel Shape}.

Local Abbreviation value := (value Shape).

(** *** [_removeContained] *)

(** X17.  On a collection of single entities [_removeContained()]
    returns, and leaves in [shapes], in their order, exactly the members
    that no other member (another object) contains.  Two distinct
    members that contain each other are therefore both removed. *)
Theorem removeContained_keeps_what_no_other_contains (l : list Shape)
    (groups : list (string * list value)) :
  exists kept,
    _removeContained (mk (List.map VShape l) groups)
    = (Normal (mk (List.map VShape kept) groups), []) /\
    sublist kept l /\
    forall s, In s kept <->
              In s l /\ forall o, In o l -> o <> s -> Shape_contains o s = false.
Proof.
  set (other := fun c o => negb (bool_decide (c = o)) && Shape_contains o c).
  set (keep := fun c => negb (existsb (other c) l)).
  exists (List.filter keep l). split; [| split].
  - unfold _removeContained. cbn [shapes _groups].
    rewrite (filterC_map VShape _ keep).
    + rewrite bind_lift. reflexivity.
    + intros c _. rewrite (existsC_map VShape _ (other c)); [reflexivity |].
      intros o _. cbn [identical as_shape]. unfold other.
      destruct (bool_decide (c = o)); reflexivity.
  - apply List_filter_sublist.
  - intros s. rewrite filter_In. unfold keep. rewrite negb_true_iff.
    split; intros [Hin H]; (split; [exact Hin |]).
    + intros o Ho Hne. destruct (Shape_contains o s) eqn:E; [| reflexivity].
      assert (Hex : existsb (other s) l = true).
      { apply existsb_exists. exists o. split; [exact Ho |]. unfold other.
        rewrite E, andb_true_r. apply negb_true_iff, bool_decide_eq_false. congruence. }
      congruence.
    + apply not_true_iff_false. intros Hex. apply existsb_exists in Hex as (o & Ho & Hc).
      unfold other in Hc. apply andb_true_iff in Hc as [Hne Hc].
      apply negb_true_iff, bool_decide_eq_false in Hne.
      rewrite (H o Ho) in Hc; [discriminate | congruence].
Qed.

(** *** [equals] *)

(** X18.  On two collections of single entities [equals(other)] never
    throws, and it answers true exactly when both hold the same number of
    Shapes and every Shape of this collection has a Shape in the other
    one that [equals] it; how many times a Shape of the other collection
    is matched does not count.  If every Shape equals itself, a
    collection equals itself. *)
Theorem equals_compares_each_member (lt lo : list Shape)
    (g g' : list (string * list value)) :
  exists r,
    equals (mk (List.map VShape lt) g) (mk (List.map VShape lo) g') = Normal r /\
    (r = true <->
     length lt = length lo /\
     forall s, In s lt -> exists o, In o lo /\ Shape_equals o s = true) /\
    ((forall s, Shape_equals s s = true) -> lt = lo -> r = true).
Proof.
  set (has_equal := fun s => existsb (fun o => Shape_equals o s) lo).
  assert (Hevery : every (mk (List.map VShape lt) g)
                     (fun shape =>
                        let? found := find (mk (List.map VShape lo) g')
                                        (fun otherShape =>
                                           let? o := as_shape otherShape in
                                           let? s := as_shape shape in
                                           Normal (Shape_equals o s)) in
                        Normal (truthy found))
                   = Normal (forallb has_equal lt)).
  { unfold every. cbn [shapes]. apply everyC_map. intros s _.
    unfold find. cbn [shapes].
    rewrite (findC_map VShape _ (fun o => Shape_equals o s)) by reflexivity.
    cbn [cbind]. unfold has_equal.
    induction lo as [| o lo' IH]; [reflexivity |].
    cbn [List.find existsb]. destruct (Shape_equals o s); [reflexivity | exact IH]. }
  assert (Hall : forallb has_equal lt = true <->
                 forall s, In s lt -> exists o, In o lo /\ Shape_equals o s = true).
  { rewrite forallb_forall. unfold has_equal.
    split; intros H s Hs; [apply existsb_exists | apply existsb_exists]; auto. }
  unfold equals, count. cbn [shapes]. rewrite !length_map.
  destruct (length lt =? length lo)%nat eqn:El; cbn [negb].
  - apply Nat.eqb_eq in El. rewrite Hevery. eexists. split; [reflexivity |]. split.
    + rewrite Hall. tauto.
    + intros Hrefl ->. apply Hall. intros s Hs. eauto.
  - apply Nat.eqb_neq in El. exists false. split; [reflexivity |]. split.
    + split; [discriminate | intros [H _]; congruence].
    + intros _ ->. congruence.
Qed.

(** *** [push], [pop], [prepend], [reverse] *)

(** X19.  [push(s)] of a Shape puts [s] at the end of [shapes]: it adds
    one to [count()] and makes [s] the [last()], and [pop()] after it
    leaves the [shapes] there were; [prepend(s)] makes [s] the [first()],
    and reversing the result leaves the reversed [shapes] followed by
    [s]; [reverse()] twice leaves the [shapes] there were. *)
Theorem push_and_pop_are_inverse (this : t) (s : Shape) :
  exists c c',
    push this (VShape s) = (Normal c, []) /\
    shapes c = shapes this ++ [VShape s] /\
    count c = Datatypes.S (count this) /\ last c = VShape s /\
    shapes (pop c) = shapes this /\
    prepend this (VShape s) = (Normal c', []) /\ first c' = VShape s /\
    shapes (reverse c') = shapes (reverse this) ++ [VShape s] /\
    shapes (reverse (reverse this)) = shapes this.
Proof.
  destruct this as [ss gs]. eexists _, _. split; [reflexivity |].
  unfold count, last, pop, reverse. cbn [shapes _groups].
  split; [reflexivity |].
  split; [rewrite length_app; cbn; lia |].
  split; [apply last_last |].
  split; [now rewrite removelast_last |].
  split; [reflexivity |]. split; [reflexivity |].
  split; [reflexivity |]. now rewrite rev_involutive.
Qed.

End Members.

(** *** [has] and [remove] *)

Section HasRemove.
Context {Shape : Type} {api : ShapeApi Shape} {K : ShapeKernel Shape}
        {F : Flatten Shape}.

Local Abbreviation value := (value Shape).

Lemma existsC_const {A} (b : bool) (arr : list A) :
  existsC (fun _ => Normal b) arr = Normal (match arr with [] => false | _ :: _ => b end).
Proof.
  induction arr as [| a arr IH]; [reflexivity |].
  cbn [existsC cbind]. destruct b; [reflexivity |]. rewrite IH. now destruct arr.
Qed.

Lemma has_shape (l : list Shape) (groups : list (string * list value)) (s : Shape) :
  has (mk (List.map VShape l) groups) (VShape s)
  = Normal (existsb (fun sh => Shape_same sh (VShape s)) l).
Proof.
  unfold has. cbn [isAnyShape shapes]. now apply existsC_map.
Qed.

(** X20.  On a collection of single entities, [has(s)] for a Shape [s]
    answers whether some member is the [same] as [s].  For a collection
    it asks every member whether it is the [same] as the collection
    itself, once for each Shape the collection holds: the answer is false
    for an empty collection, and otherwise does not depend on the Shapes
    the collection holds other than through what [same] makes of the
    collection as a whole. *)
Theorem has_asks_about_the_collection_itself (l : list Shape)
    (groups : list (string * list value)) (cs : list value) (s : Shape) :
  has (mk (List.map VShape l) groups) (VShape s)
  = Normal (existsb (fun sh => Shape_same sh (VShape s)) l) /\
  has (mk (List.map VShape l) groups) (VCollection cs)
  = Normal (match cs with
            | [] => false
            | _ :: _ => existsb (fun sh => Shape_same sh (VCollection cs)) l
            end).
Proof.
  split; [apply has_shape |].
  unfold has. cbn [isAnyShape shapes].
  rewrite (existsC_map VShape _ (fun sh => Shape_same sh (VCollection cs))) by reflexivity.
  apply existsC_const.
Qed.

(** X21.  [remove(c)] for a collection [c] of single entities, on a
    collection of single entities, returns whatever the fuel; it leaves
    in [shapes], in their order, the members that no Shape of [c] is the
    [same] as, and it leaves the groups as they were, also those that
    hold a removed Shape. *)
Theorem remove_keeps_what_is_not_the_same (fuel : nat) (l rs : list Shape)
    (groups : list (string * list value)) :
  exists kept,
    remove fuel (mk (List.map VShape l) groups) (VCollection (List.map VShape rs))
    = Some (Normal (mk (List.map VShape kept) groups), []) /\
    sublist kept l /\
    forall s, In s kept <->
              In s l /\ forall r, In r rs -> Shape_same r (VShape s) = false.
Proof.
  set (keep := fun s => negb (existsb (fun r => Shape_same r (VShape s)) rs)).
  exists (List.filter keep l). split; [| split].
  - unfold remove. cbn [checkInput_ShapeCollection]. rewrite rbind_rret.
    cbn [shapes _groups].
    rewrite (filterC_map VShape _ keep).
    + reflexivity.
    + intros s _. rewrite has_shape. reflexivity.
  - apply List_filter_sublist.
  - intros s. rewrite filter_In. unfold keep. rewrite negb_true_iff.
    split; intros [Hin H]; (split; [exact Hin |]).
    + intros r Hr. destruct (Shape_same r (VShape s)) eqn:E; [| reflexivity].
      assert (Hex : existsb (fun r => Shape_same r (VShape s)) rs = true)
        by (apply existsb_exists; eauto).
      congruence.
    + apply not_true_iff_false. intros Hex. apply existsb_exists in Hex as (r & Hr & E).
      rewrite (H r Hr) in E. discriminate.
Qed.

End HasRemove.

(** *** [bbox()] of a collection *)

Import BboxProofs.

Section Union.
Context {T : Tolerances} {TOk : TolerancesOk T}.

Lemma six_entries (l : list number) :
  length l = 6%nat -> exists a0 a1 a2 a3 a4 a5, l = [a0; a1; a2; a3; a4; a5].
Proof.
  intros H. do 6 (destruct l as [| ? l]; [discriminate |]).
  destruct l; [| discriminate]. eauto 7.
Qed.

Lemma rounded_of_same (l m : list number) :
  same_bounds l m -> rounded m -> rounded l.
Proof.
  unfold same_bounds, rounded. induction 1 as [| a b l m Hab _ IH]; intros Hm.
  - constructor.
  - inversion Hm as [| ? ? Hb Hm']; subst. constructor; [| now apply IH].
    rewrite (round_compat a b Hab), Hb. now symmetry.
Qed.

(** [added] on a box that spans and any proper box: the union. *)
Lemma added_union (a b : Bbox.t) (la lb : list number) :
  Bbox.bounds a = Some la -> Bbox.bounds b = Some lb ->
  proper_bounds la -> proper_bounds lb -> spans la ->
  exists r lr,
    Bbox.added a b = (Normal r, created_msg) /\ Bbox.bounds r = Some lr /\
    proper_bounds lr /\ spans lr /\ same_bounds lr (unionBounds la lb).
Proof.
  intros Ha Hb (La & Oa & Ra) (Lb & Ob & Rb) (Hne & Hg).
  destruct (six_entries la La) as (a0 & a1 & a2 & a3 & a4 & a5 & ->).
  destruct (six_entries lb Lb) as (b0 & b1 & b2 & b3 & b4 & b5 & ->).
  destruct Oa as (Oa0 & Oa1 & Oa2). destruct Ob as (Ob0 & Ob1 & Ob2).
  unfold at_ in *; simpl in *.
  pose proof Ra as Ra'. pose proof Rb as Rb'. unfold rounded in Ra', Rb'.
  repeat match goal with H : Forall _ (_ :: _) |- _ => inversion H; subst; clear H end.
  pose proof (sel_min a0 b0) as [P0 Q0]. pose proof (sel_max a1 b1) as [P1 Q1].
  pose proof (sel_min a2 b2) as [P2 Q2]. pose proof (sel_max a3 b3) as [P3 Q3].
  pose proof (sel_min a4 b4) as [P4 Q4]. pose proof (sel_max a5 b5) as [P5 Q5].
  pose proof (Q.le_min_l a0 b0). pose proof (Q.le_max_l a1 b1).
  pose proof (Q.le_min_l a2 b2). pose proof (Q.le_max_l a3 b3).
  pose proof (Q.le_min_l a4 b4). pose proof (Q.le_max_l a5 b5).
  set (m0 := if ltb a0 b0 then a0 else b0) in *.
  set (m1 := if gtb a1 b1 then a1 else b1) in *.
  set (m2 := if ltb a2 b2 then a2 else b2) in *.
  set (m3 := if gtb a3 b3 then a3 else b3) in *.
  set (m4 := if ltb a4 b4 then a4 else b4) in *.
  set (m5 := if gtb a5 b5 then a5 else b5) in *.
  assert (Hadd : Bbox.added a b =
                 Bbox.constructor (Some (Vector.mk m0 m2 m4, Vector.mk m1 m3 m5))).
  { unfold Bbox.added, Bbox.combinedBounds, Bbox.bounds_of. rewrite Ha, Hb.
    cbn [cbind]. rewrite bind_lift. reflexivity. }
  assert (Hrm : rounded [m0; m1; m2; m3; m4; m5]).
  { repeat constructor; eapply rounded_sel; eauto. }
  destruct (constructor_ordered (Vector.mk m0 m2 m4) (Vector.mk m1 m3 m5))
    as (r & l & Hc & Hl & Hs); simpl; try lra; try assumption.
  { intros (Cx & Cy & Cz). simpl in *. lra. }
  exists r, l. rewrite Hadd. split; [exact Hc |]. split; [exact Hl |].
  pose proof (rounded_of_same _ _ Hs Hrm) as Hrl.
  unfold same_bounds in Hs.
  repeat match goal with H : Forall2 _ _ (_ :: _) |- _ => inversion H; subst; clear H end.
  match goal with H : Forall2 _ _ [] |- _ => inversion H; subst; clear H end.
  unfold proper_bounds, spans, ordered, unionBounds, same_bounds, at_; simpl.
  split; [split; [reflexivity |]; split; [repeat split; lra | exact Hrl] |].
  split; [split; lra |].
  repeat constructor; lra.
Qed.

End Union.

Section CollectionBox.
Context {Shape : Type} {api : ShapeApi Shape} {T : Tolerances} {TOk : TolerancesOk T}.

Lemma within_trans (l m n : list number) :
  bounds_within l m -> bounds_within m n -> bounds_within l n.
Proof. unfold bounds_within. intros H1 H2. decompose [and] H1. decompose [and] H2.
  repeat split; lra. Qed.

Lemma least_around_union (lc lb lr : list number) (done : list (list number)) :
  least_around lc done -> same_bounds lr (unionBounds lc lb) ->
  least_around lr (done ++ [lb]).
Proof.
  intros [Hin Htight] Hs. unfold same_bounds, unionBounds in Hs.
  repeat match goal with H : Forall2 _ _ (_ :: _) |- _ => inversion H; subst; clear H end.
  match goal with H : Forall2 _ _ [] |- _ => inversion H; subst; clear H end.
  unfold least_around, bounds_within, at_ in *.
  pose proof (Q.le_min_l (nth 0 lc 0) (nth 0 lb 0)).
  pose proof (Q.le_max_l (nth 1 lc 0) (nth 1 lb 0)).
  pose proof (Q.le_min_l (nth 2 lc 0) (nth 2 lb 0)).
  pose proof (Q.le_max_l (nth 3 lc 0) (nth 3 lb 0)).
  pose proof (Q.le_min_l (nth 4 lc 0) (nth 4 lb 0)).
  pose proof (Q.le_max_l (nth 5 lc 0) (nth 5 lb 0)).
  pose proof (Q.le_min_r (nth 0 lc 0) (nth 0 lb 0)).
  pose proof (Q.le_max_r (nth 1 lc 0) (nth 1 lb 0)).
  pose proof (Q.le_min_r (nth 2 lc 0) (nth 2 lb 0)).
  pose proof (Q.le_max_r (nth 3 lc 0) (nth 3 lb 0)).
  pose proof (Q.le_min_r (nth 4 lc 0) (nth 4 lb 0)).
  pose proof (Q.le_max_r (nth 5 lc 0) (nth 5 lb 0)).
  split.
  - apply Forall_app. split.
    + eapply Forall_impl; [exact Hin |]. intros l Hl. cbv beta in Hl.
      decompose [and] Hl. simpl. repeat split; lra.
    + repeat constructor; simpl; lra.
  - intros i Hi. apply Exists_app.
    assert (Hcase : nth i [x; x0; x1; x2; x3; x4] 0 == nth i lc 0 \/
                    nth i [x; x0; x1; x2; x3; x4] 0 == nth i lb 0).
    { destruct i as [| [| [| [| [| [| i]]]]]]; try lia; simpl.
      - destruct (Q.min_spec (nth 0 lc 0) (nth 0 lb 0)) as [[? ?] | [? ?]]; [left | right]; lra.
      - destruct (Q.max_spec (nth 1 lc 0) (nth 1 lb 0)) as [[? ?] | [? ?]]; [right | left]; lra.
      - destruct (Q.min_spec (nth 2 lc 0) (nth 2 lb 0)) as [[? ?] | [? ?]]; [left | right]; lra.
      - destruct (Q.max_spec (nth 3 lc 0) (nth 3 lb 0)) as [[? ?] | [? ?]]; [right | left]; lra.
      - destruct (Q.min_spec (nth 4 lc 0) (nth 4 lb 0)) as [[? ?] | [? ?]]; [left | right]; lra.
      - destruct (Q.max_spec (nth 5 lc 0) (nth 5 lb 0)) as [[? ?] | [? ?]]; [right | left]; lra. }
    destruct Hcase as [Hc | Hc].
    + left. eapply Exists_impl; [exact (Htight i Hi) |].
      intros l Hl. cbv beta in Hl. rewrite Hc. exact Hl.
    + right. constructor. exact Hc.
Qed.

Lemma omap_in_bounds (s : Shape) (b : Bbox.t) (ss : list Shape) :
  In s ss -> Shape_bbox s = Some b -> boxes_are_proper ss ->
  exists lb, Bbox.bounds b = Some lb /\ In lb (member_bounds ss).
Proof.
  intros Hs Hb Hall. unfold boxes_are_proper in Hall.
  induction ss as [| s' ss IH]; [destruct Hs |].
  inversion Hall as [| ? ? H' Hall']; subst. cbn [member_bounds].
  destruct Hs as [-> | Hs].
  - destruct (H' b Hb) as (lb & Hlb & _). exists lb. rewrite Hb, Hlb.
    split; [reflexivity | now left].
  - destruct (IH Hs Hall') as (lb & Hlb & Hin). exists lb. split; [exact Hlb |].
    destruct (Shape_bbox s') as [b' |]; [| exact Hin].
    destruct (Bbox.bounds b'); [now right | exact Hin].
Qed.

Lemma member_bounds_some (s : Shape) (rest : list Shape) (b : Bbox.t) (lb : list number) :
  Shape_bbox s = Some b -> Bbox.bounds b = Some lb ->
  member_bounds (s :: rest) = lb :: member_bounds rest.
Proof. intros Hb Hl. cbn [member_bounds]. now rewrite Hb, Hl. Qed.

Lemma member_bounds_none (s : Shape) (rest : list Shape) :
  Shape_bbox s = None -> member_bounds (s :: rest) = member_bounds rest.
Proof. intros Hb. cbn [member_bounds]. now rewrite Hb. Qed.

Lemma bbox_loop (rest : list Shape) :
  forall (i : nat) (c : Bbox.t) (lc : list number) (done : list (list number)),
    (0 <? i)%nat = true ->
    Bbox.bounds c = Some lc -> proper_bounds lc -> spans lc -> least_around lc done ->
    boxes_are_proper rest ->
    exists r lr out,
      bbox_forEach (List.map VShape rest) i (Some c) = (Normal (Some r), out) /\
      Bbox.bounds r = Some lr /\ proper_bounds lr /\ spans lr /\
      least_around lr (done ++ member_bounds rest).
Proof.
  induction rest as [| s rest IH]; intros i c lc done Hi Hc Hp Hsp Hl Hrest.
  - exists c, lc, []. cbn. rewrite app_nil_r. auto.
  - inversion Hrest as [| ? ? Hs Hrest']; subst.
    cbn [List.map bbox_forEach as_shape]. rewrite Hi. rewrite bind_lift.
    destruct (Shape_bbox s) as [b |] eqn:Eb.
    + destruct (Hs b eq_refl) as (lb & Hb & Hpb).
      rewrite (member_bounds_some s rest b lb Eb Hb).
      destruct (added_union c b lc lb Hc Hb Hp Hpb Hsp)
        as (r1 & l1 & Hadd & Hl1 & Hp1 & Hsp1 & Hs1).
      pose proof (least_around_union lc lb l1 done Hl Hs1) as Hl1'.
      destruct (IH (Datatypes.S i) r1 l1 (done ++ [lb]) eq_refl Hl1 Hp1 Hsp1 Hl1' Hrest')
        as (r & lr & out & Hrun & Hlr & Hpr & Hspr & Hla).
      exists r, lr. eexists. rewrite Hadd. cbn [Js.bind]. rewrite Hrun.
      split; [reflexivity |]. rewrite <- app_assoc in Hla. auto.
    + rewrite (member_bounds_none s rest Eb).
      destruct (IH (Datatypes.S i) c lc done eq_refl Hc Hp Hsp Hl Hrest')
        as (r & lr & out & Hrun & H').
      exists r, lr, out. auto.
Qed.

(** X22.  Take a collection of single entities in which every member
    that has a box has one with proper bounds (six numbers, ordered,
    unchanged by the rounding pass), and whose first member has a box
    that is not a single point and whose lower z is below its upper y.
    With a monotone rounding, [bbox()] then returns a box with proper
    bounds that is the least box around the boxes of the members: it
    contains the box of every member, and each of its six bounds is a
    bound of the box of some member.  Members without a box are skipped. *)
Theorem bbox_is_the_least_box_around_the_members (s0 : Shape) (rest : list Shape)
    (groups : list (string * list (value Shape))) (b0 : Bbox.t) (l0 : list number) :
  Shape_bbox s0 = Some b0 -> Bbox.bounds b0 = Some l0 -> spans l0 ->
  boxes_are_proper (s0 :: rest) ->
  exists r lr out,
    bbox (mk (List.map VShape (s0 :: rest)) groups) = (Normal (Some r), out) /\
    Bbox.bounds r = Some lr /\ proper_bounds lr /\
    least_around lr (member_bounds (s0 :: rest)) /\
    forall s b, In s (s0 :: rest) -> Shape_bbox s = Some b ->
                Bbox._containsBbox r (Some b) = Normal true.
Proof.
  intros Hb0 Hl0 Hsp Hall. inversion Hall as [| ? ? H0 Hrest]; subst.
  destruct (H0 b0 Hb0) as (l0' & Hl0' & Hp0).
  assert (l0' = l0) by congruence. subst l0'.
  assert (Hla0 : least_around l0 [l0]).
  { split.
    - repeat constructor; apply Qle_refl.
    - intros i _. constructor. reflexivity. }
  destruct (bbox_loop rest 1 b0 l0 [l0] eq_refl Hl0 Hp0 Hsp Hla0 Hrest)
    as (r & lr & out & Hrun & Hlr & Hpr & _ & Hla).
  assert (Hmb : member_bounds (s0 :: rest) = [l0] ++ member_bounds rest).
  { exact (member_bounds_some s0 rest b0 l0 Hb0 Hl0). }
  exists r, lr, out. split; [| split; [exact Hlr |]; split; [exact Hpr |]; split].
  - unfold bbox, first. cbn [shapes List.map nth as_shape]. rewrite bind_lift, Hb0.
    cbn [List.map].
    cbn [bbox_forEach]. cbn [Nat.ltb Nat.leb]. exact Hrun.
  - now rewrite Hmb.
  - intros s b Hs Hb.
    destruct (omap_in_bounds s b (s0 :: rest) Hs Hb Hall) as (lb & Hlb & Hin).
    rewrite Hmb in Hin. destruct Hla as [Hw _]. rewrite List.Forall_forall in Hw.
    specialize (Hw lb Hin). unfold bounds_within in Hw. decompose [and] Hw.
    unfold Bbox._containsBbox, Bbox.bounds_of. rewrite Hlr, Hlb. cbn [cbind]. f_equal.
    unfold geb. rewrite !andb_true_iff, !leb_le. repeat split; assumption.
Qed.

End CollectionBox.

(** *** The constructor on an array of Shapes, [shallowCopy], [getGroup] *)

Section OfShapes.
Context {Shape : Type} {api : ShapeApi Shape} {K : ShapeKernel Shape}.

#[local] Existing Instance referenceFlatten.

(** X23.  With the reference flattening helper, [new ShapeCollection(..)]
    on an array of Shapes returns with one unit of fuel, and its [shapes]
    are the Vertices and the non-empty Shapes of the array, in their
    order: an empty Shape that is not a Vertex is dropped.  So are
    [shallowCopy()] and [getGroup(name)], which make their result with
    this constructor: [shallowCopy()] of a collection that holds an empty
    Edge does not hold it.  [getGroup] answers [null] for the empty name
    and for a name for which the table answers nothing; for a name that
    is no group but that every object inherits (['constructor'],
    ['toString'], ..) it answers a new collection without shapes. *)
Theorem constructor_keeps_vertices_and_full_shapes (fuel : nat) (l : list Shape)
    (this : t) (name : string) :
  (exists c out,
     constructor (Datatypes.S fuel) (VArray (List.map VShape l)) [] = Some (Normal c, out) /\
     shapes c = List.map VShape (List.filter kept l)) /\
  (shapes this = List.map VShape l ->
   exists c out,
     shallowCopy (Datatypes.S fuel) this = Some (Normal c, out) /\
     shapes c = List.map VShape (List.filter kept l)) /\
  (name <> ""%string -> own_group (_groups this) name = Some (List.map VShape l) ->
   exists c out,
     getGroup (Datatypes.S fuel) this name = Some (Normal (Some c), out) /\
     shapes c = List.map VShape (List.filter kept l)) /\
  getGroup (Datatypes.S fuel) this "" = Some (Normal None, []) /\
  (own_group (_groups this) name = None ->
   if existsb (String.eqb name) OBJECT_PROTOTYPE_KEYS
   then exists c out,
          getGroup (Datatypes.S fuel) this name = Some (Normal (Some c), out) /\
          shapes c = []
   else getGroup (Datatypes.S fuel) this name = Some (Normal None, [])).
Proof.
  destruct (addEntities_of_shapes fuel l) as (c & out & Hc & Hs).
  split; [eauto |]. split; [| split; [| split]].
  - intros Hthis. unfold shallowCopy. rewrite Hthis. eauto.
  - intros Hn Hg. unfold getGroup, groups_at. apply String.eqb_neq in Hn.
    rewrite Hn, Hg. cbn [negb truthy]. rewrite Hc. cbn [rbind rret ret]. eauto.
  - reflexivity.
  - intros Hg. unfold getGroup, groups_at. rewrite Hg.
    destruct (existsb (String.eqb name) OBJECT_PROTOTYPE_KEYS) eqn:Einh.
    + destruct (String.eqb name "") eqn:En.
      { apply String.eqb_eq in En. subst name. discriminate Einh. }
      cbn [negb truthy]. eexists _, _. split; [reflexivity |]. reflexivity.
    + destruct (String.eqb name ""); reflexivity.
Qed.

End OfShapes.

(** *** The properties above at closed inputs *)

(** X11 at a collection of one Solid to which a coordinate is added. *)
Lemma addEntities_only_appends_witness :
  exists more,
    [VShape (Example.solidAt 1 10 (0, 0, 0)%Z (1, 1, 1)%Z);
     VShape (Example.vertexAt 0 0 (7, 7, 7)%Z)]
    = [VShape (Example.solidAt 1 10 (0, 0, 0)%Z (1, 1, 1)%Z)] ++ more.
Proof.
  refine (proj1 (addEntities_only_appends (K := Example.kernel) 1
                   (mk [VShape (Example.solidAt 1 10 (0, 0, 0)%Z (1, 1, 1)%Z)] [])
                   (mk [VShape (Example.solidAt 1 10 (0, 0, 0)%Z (1, 1, 1)%Z);
                        VShape (Example.vertexAt 0 0 (7, 7, 7)%Z)] [])
                   (VArray [VCoord (V 7 7 7)]) None _ _)).
  vm_compute. reflexivity.
Defined.

(** X12 at a collection with the group "a", to which a Vertex is added
    under the name "b". *)
Lemma addGroup_makes_a_group_witness :
  exists c out added,
    addGroup (K := Example.kernel) 2
      (mk [VShape (Example.solidAt 1 10 (0, 0, 0)%Z (1, 1, 1)%Z)]
          [("a"%string, [VShape (Example.solidAt 1 10 (0, 0, 0)%Z (1, 1, 1)%Z)])])
      (Some "b"%string) (VShape (Example.vertexAt 2 20 (5, 5, 5)%Z))
    = Some (Normal c, out) /\
    shapes c = [VShape (Example.solidAt 1 10 (0, 0, 0)%Z (1, 1, 1)%Z)] ++ added /\
    own_group (_groups c) "b" = Some added.
Proof.
  refine (proj2 (addGroup_makes_a_group_of_what_it_adds (K := Example.kernel) 0
                   (mk [VShape (Example.solidAt 1 10 (0, 0, 0)%Z (1, 1, 1)%Z)]
                       [("a"%string, [VShape (Example.solidAt 1 10 (0, 0, 0)%Z (1, 1, 1)%Z)])])
                   "b" (VShape (Example.vertexAt 2 20 (5, 5, 5)%Z)) _ _ _) _ _).
  - discriminate.
  - discriminate.
  - reflexivity.
  - reflexivity.
  - split; [repeat constructor | intros g Hg; injection Hg as <-; reflexivity].
Defined.

(** X16 at two Vertices with the hash codes 22 and 11: the first call
    puts them in the order 11, 22, the second leaves them so. *)
Lemma distinct_twice_is_distinct_once_witness :
  distinct (K := Example.kernel)
    (mk [VShape (Example.vertexAt 1 11 (0, 0, 0)%Z); VShape (Example.vertexAt 2 22 (1, 0, 0)%Z)] [])
  = (Normal (mk [VShape (Example.vertexAt 1 11 (0, 0, 0)%Z);
                 VShape (Example.vertexAt 2 22 (1, 0, 0)%Z)] []), []).
Proof.
  refine (distinct_twice_is_distinct_once (K := Example.kernel)
            [Example.vertexAt 2 22 (1, 0, 0)%Z; Example.vertexAt 1 11 (0, 0, 0)%Z] [] _ [] _).
  vm_compute. reflexivity.
Defined.

(** X10 at two Vertices with the hash codes 22 and 11. *)
Lemma unique_is_distinct_witness :
  exists out,
    unique (K := Example.kernel) 1
      (mk (List.map VShape [Example.vertexAt 2 22 (1, 0, 0)%Z;
                            Example.vertexAt 1 11 (0, 0, 0)%Z]) [])
    = Some (Normal (mk [VShape (Example.vertexAt 1 11 (0, 0, 0)%Z);
                        VShape (Example.vertexAt 2 22 (1, 0, 0)%Z)] [],
                    mk [VShape (Example.vertexAt 1 11 (0, 0, 0)%Z);
                        VShape (Example.vertexAt 2 22 (1, 0, 0)%Z)] []), out).
Proof.
  eexists.
  rewrite (unique_is_distinct (K := Example.kernel) 1 []
             [Example.vertexAt 2 22 (1, 0, 0)%Z; Example.vertexAt 1 11 (0, 0, 0)%Z]
             [Example.vertexAt 1 11 (0, 0, 0)%Z; Example.vertexAt 2 22 (1, 0, 0)%Z] []).
  - vm_compute. reflexivity.
  - vm_compute. reflexivity.
Defined.

(** X22 at the unit cube at the origin, a Vertex at (5,5,5) and a cube
    of side 2 at (-3,0,0). *)
Lemma bbox_is_the_least_box_witness :
  exists r lr out,
    bbox (T := referenceTolerances)
         (mk (List.map VShape [Example.solidAt 1 10 (0, 0, 0)%Z (1, 1, 1)%Z;
                               Example.vertexAt 2 20 (5, 5, 5)%Z;
                               Example.solidAt 3 30 (-3, 0, 0)%Z (2, 2, 2)%Z]) [])
    = (Normal (Some r), out) /\
    Bbox.bounds r = Some lr /\
    Bbox._containsBbox r (Some (Example.boxOf (V 5 5 5) (V 5 5 5))) = Normal true.
Proof.
  destruct (bbox_is_the_least_box_around_the_members (api := Example.api)
              (T := referenceTolerances)
              (Example.solidAt 1 10 (0, 0, 0)%Z (1, 1, 1)%Z)
              [Example.vertexAt 2 20 (5, 5, 5)%Z; Example.solidAt 3 30 (-3, 0, 0)%Z (2, 2, 2)%Z]
              [] (Example.boxOf (V 0 0 0) (V 1 1 1)) [0; 1; 0; 1; 0; 1])
    as (r & lr & out & Hrun & Hlr & _ & _ & Hin).
  - reflexivity.
  - reflexivity.
  - by_parts.
  - apply List.Forall_cons; [| apply List.Forall_cons; [| apply List.Forall_cons;
                                                           [| apply List.Forall_nil]]];
      intros b Hb; injection Hb as <-; (eexists; split; [reflexivity |]); by_parts.
  - exists r, lr, out. split; [exact Hrun |]. split; [exact Hlr |].
    apply (Hin (Example.vertexAt 2 20 (5, 5, 5)%Z)); [right; left |]; reflexivity.
Defined.

End CollectionProofs.

(** ** Object identity *)

Module HeapProofs.
Import Js JsFacts Spec Inputs Heap.

Section Stores.
Context {G : Type} {geo : GeomApi G} {T : Tolerances}.

Lemma extends_refl (st : @store G) : extends st st.
Proof. split; [lia | auto]. Qed.

Lemma extends_trans (st1 st2 st3 : @store G) :
  extends st1 st2 -> extends st2 st3 -> extends st1 st3.
Proof.
  intros [H1 F1] [H2 F2]. split; [lia |]. intros r Hr.
  destruct (F1 r Hr) as [E1 E2].
  destruct (F2 r) as [E3 E4]; [unfold allocated in *; lia |].
  split; congruence.
Qed.

Lemma upd_same {A} (f : ref -> A) (r : ref) (a : A) : upd f r a r = a.
Proof. unfold upd. destruct (decide (r = r)); congruence. Qed.

Lemma upd_other {A} (f : ref -> A) (r r' : ref) (a : A) : r' <> r -> upd f r a r' = f r'.
Proof. unfold upd. destruct (decide (r' = r)); congruence. Qed.

(** C10.  [rotate(r)] returns [this]; no Shape object changes state; the
    only change to the store is the new, empty collection the method
    made, and every collection that existed has the members it had. *)
Theorem C10_rotate_changes_nothing (st : @store G) (this : ref) (r : Vector.t) :
  exists st',
    rotate this r st = (Normal this, st') /\
    geometry st' = geometry st /\
    members st' (next st) = [] /\
    forall c, allocated st c -> members st' c = members st c.
Proof.
  eexists. split; [| split; [| split]].
  - unfold rotate, sbind, constructor0, newCollection. cbn.
    rewrite upd_same. reflexivity.
  - reflexivity.
  - cbn. apply upd_same.
  - intros c Hc. cbn. apply upd_other. unfold allocated in Hc. lia.
Qed.

(** Whatever it is given, [rotatedEuler] answers [this]. *)
Lemma rotatedEuler_returns_this (st st' : @store G) (this res : ref) (degX degY degZ : number)
    (pivot : Pivot) :
  rotatedEuler this degX degY degZ pivot st = (Normal res, st') -> res = this.
Proof.
  unfold rotatedEuler, sbind.
  destruct (copy this st) as [[newCollection | e] st1]; [| discriminate].
  destruct (resolvePivot this pivot st1) as [[p | e] st2]; [| discriminate].
  destruct (sforEach _ _ st2) as [[[] | e] st3]; [| discriminate].
  unfold sret. congruence.
Qed.

Lemma smap_newShape (f : store -> ref -> G) (arr : list ref) :
  forall st, exists refs st',
    smap (fun s => fun st => newShape (f st s) st) arr st = (Normal refs, st') /\
    extends st st' /\
    Forall (fun r => ~ allocated st r /\ allocated st' r) refs.
Proof.
  induction arr as [| s arr IH]; intros st.
  - exists [], st. split; [reflexivity |]. split; [apply extends_refl | constructor].
  - cbn [smap]. unfold sbind at 1. unfold newShape at 1.
    set (st1 := mkStore _ _ _).
    destruct (IH st1) as (refs & st' & Hmap & Hext & Hrefs).
    exists (next st :: refs), st'. unfold sbind. rewrite Hmap. cbn.
    assert (Hext1 : extends st st1).
    { split; [cbn; lia |]. intros r Hr. cbn. split; [| reflexivity].
      apply upd_other. unfold allocated in Hr. lia. }
    split; [reflexivity |]. split; [eapply extends_trans; eauto |].
    constructor.
    + destruct Hext as [Hn _]. unfold allocated. cbn in Hn. split; lia.
    + eapply Forall_impl; [exact Hrefs |]. intros r [H1 H2]. split; [| exact H2].
      unfold allocated in *. cbn in H1. lia.
Qed.

Lemma sforEach_onShape (f : G -> G) (n : nat) (arr : list ref) :
  forall st, Forall (fun r => (n <= r)%nat) arr ->
    exists st', sforEach (onShape f) arr st = (Normal tt, st') /\
                next st' = next st /\ members st' = members st /\
                forall r, (r < n)%nat -> geometry st' r = geometry st r.
Proof.
  induction arr as [| s arr IH]; intros st Harr.
  - exists st. repeat split; auto.
  - inversion Harr; subst. cbn [sforEach]. unfold sbind, onShape at 1.
    set (st1 := mkStore _ _ _).
    destruct (IH st1 ltac:(assumption)) as (st' & Hrun & Hn & Hm & Hg).
    exists st'. rewrite Hrun. repeat split; auto.
    intros r Hr. rewrite (Hg r Hr). cbn. apply upd_other. lia.
Qed.

(** [_copy] answers a collection that did not exist before, of Shape
    objects that did not exist before, and leaves what existed as it was. *)
Lemma _copy_makes_new_objects (st : @store G) (this : ref) :
  exists res st',
    _copy this st = (Normal res, st') /\
    ~ allocated st res /\ allocated st' res /\
    Forall (fun r => (next st <= r)%nat) (members st' res) /\
    forall r, allocated st r ->
              geometry st' r = geometry st r /\ members st' r = members st r.
Proof.
  destruct (smap_newShape (fun st s => geom_copy (geometry st s)) (members st this) st)
    as (refs & st1 & Hmap & [Hn1 Hf1] & Hrefs).
  cbv beta in Hmap.
  exists (next st1). eexists. split.
  - unfold _copy, sbind. rewrite Hmap. unfold constructor, newCollection. reflexivity.
  - unfold allocated. cbn. rewrite upd_same. split; [lia |]. split; [lia |]. split.
    + apply Forall_forall. intros r Hr. apply list_elem_of_In, filter_In in Hr as [Hr _].
      rewrite Forall_forall in Hrefs. apply list_elem_of_In in Hr.
      destruct (Hrefs r Hr) as [Hna _]. unfold allocated in Hna. lia.
    + intros r Hr. destruct (Hf1 r Hr) as [Hg Hm]. split; [exact Hg |].
      rewrite upd_other by lia. exact Hm.
Qed.

(** [moved] answers a collection that did not exist before, and leaves
    every object that existed as it was. *)
Lemma moved_makes_a_copy (st : @store G) (this : ref) (vector : Vector.t) :
  exists res st',
    moved this vector st = (Normal res, st') /\
    ~ allocated st res /\ allocated st' res /\
    forall r, allocated st r ->
              geometry st' r = geometry st r /\ members st' r = members st r.
Proof.
  destruct (_copy_makes_new_objects st this) as (res & st1 & Hcopy & Hna & Ha & Hmem & Hf).
  destruct (sforEach_onShape (geom_move vector) (next st) (members st1 res) st1 Hmem)
    as (st2 & Hrun & Hn2 & Hm2 & Hg2).
  exists res, st2. split.
  - unfold moved, copy, sbind. rewrite Hcopy, Hrun. reflexivity.
  - unfold allocated in *. rewrite Hn2. split; [exact Hna |]. split; [exact Ha |].
    intros r Hr. rewrite (Hg2 r Hr), Hm2. apply Hf. exact Hr.
Qed.

End Stores.

Section Link.
Context {G : Type} {geo : GeomApi G}.

(** The filter of the store-level constructor is the one of ingestion. *)
Lemma keeps_is_kept (st : @store G) (s : ref) :
  keeps st s = kept (api := storeApi st) s.
Proof. reflexivity. Qed.

End Link.

#[local] Existing Instance referenceTolerances.

(** C5, on the code as it is.  On the collection at address 1,
    [rotatedEuler] returns the address 1 itself, while [moved] returns the
    new collection at address 3; the rotated copy sits in the collection
    at address 3, which the caller does not get, and the original Solid
    is as it was. *)
Theorem C5_rotatedEuler_returns_the_original :
  fst (rotatedEuler 1%nat 0 0 90 (pivot_at None) oneSolid) = Normal 1%nat /\
  fst (moved 1%nat (V 1 0 0) oneSolid) = Normal 3%nat /\
  members (snd (rotatedEuler 1%nat 0 0 90 (pivot_at None) oneSolid)) 3%nat = [2%nat] /\
  geometry (snd (rotatedEuler 1%nat 0 0 90 (pivot_at None) oneSolid)) 2%nat
    = Example.solidAt 1 10 (0, 0, 0)%Z (1, 2, 1)%Z /\
  geometry (snd (rotatedEuler 1%nat 0 0 90 (pivot_at None) oneSolid)) 0%nat
    = Example.solidAt 1 10 (0, 0, 0)%Z (2, 1, 1)%Z.
Proof. repeat split; vm_compute; reflexivity. Qed.

(** *** In place and on a copy *)

Section InPlace.
Context {G : Type} {geo : GeomApi G} {T : Tolerances}.

(** A loop of member calls on a list of Shape objects: each object has
    been through the call once for every time it is listed. *)
Lemma sforEach_onShape_iter (f : G -> G) (arr : list ref) :
  forall st, exists st',
    sforEach (onShape f) arr st = (Normal tt, st') /\
    next st' = next st /\ members st' = members st /\
    forall r, geometry st' r = Nat.iter (count_occ Nat.eq_dec arr r) f (geometry st r).
Proof.
  induction arr as [| s arr IH]; intros st.
  - exists st. repeat split; auto.
  - cbn [sforEach]. unfold sbind, onShape at 1.
    set (st1 := mkStore _ _ _).
    destruct (IH st1) as (st' & Hrun & Hn & Hm & Hg).
    exists st'. rewrite Hrun. repeat split; auto.
    intros r. rewrite Hg. cbn [count_occ]. subst st1. cbn [geometry].
    destruct (Nat.eq_dec s r) as [-> | Hne].
    + rewrite upd_same. cbn [Nat.iter]. now rewrite Nat.iter_succ_r.
    + rewrite upd_other by congruence. reflexivity.
Qed.

(** X24.  [move(v)] returns [this] and makes no object: every collection
    has the members it had, and a Shape object has been through the
    member's [move(v)] once for every time it is listed in [shapes] (not
    at all when it is no member, twice when it is listed twice). *)
Theorem move_moves_each_member_in_place (st : @store G) (this : ref) (vector : Vector.t) :
  exists st',
    move this vector st = (Normal this, st') /\
    next st' = next st /\ members st' = members st /\
    forall r, geometry st' r
              = Nat.iter (count_occ Nat.eq_dec (members st this) r) (geom_move vector)
                         (geometry st r).
Proof.
  destruct (sforEach_onShape_iter (geom_move vector) (members st this) st)
    as (st' & Hrun & H).
  exists st'. split; [| exact H]. unfold move, sbind. rewrite Hrun. reflexivity.
Qed.

Lemma center_reads (this : ref) : reads (center this).
Proof. intros st. reflexivity. Qed.

Lemma resolvePivot_reads (this : ref) (pivot : Pivot) : reads (resolvePivot this pivot).
Proof. intros st. destruct pivot; reflexivity. Qed.

Lemma offsetOrCenterY_reads (this : ref) (offset : option number) :
  reads (offsetOrCenterY this offset).
Proof.
  intros st. unfold offsetOrCenterY, sbind.
  destruct offset as [o |]; [destruct (eqb o 0); [| reflexivity] |];
    (destruct (center this st) as [[[c |] | e] st'] eqn:Ec;
     pose proof (center_reads this st) as Hst; rewrite Ec in Hst; exact Hst).
Qed.

(** A value read off the store and then a loop of member calls on the
    members of [c]: only Shape objects among these members change, and
    the method answers [answer] unless the reading throws. *)
Lemma read_then_members {A} (m : St A) (f : A -> G -> G) (c answer : ref) (n : nat)
    (st : @store G) :
  reads m -> Forall (fun r => (n <= r)%nat) (members st c) ->
  exists out st',
    sbind m (fun a => fun st => sbind (sforEach (onShape (f a)) (members st c))
                                      (fun _ => sret answer) st) st = (out, st') /\
    (out = Normal answer \/ exists e, out = Throw e) /\
    next st' = next st /\ members st' = members st /\
    forall r, (r < n)%nat -> geometry st' r = geometry st r.
Proof.
  intros Hm Hmem. unfold sbind at 1.
  destruct (m st) as [[a | e] st1] eqn:Em;
    pose proof (Hm st) as Hst; rewrite Em in Hst; cbn in Hst; subst st1.
  - destruct (sforEach_onShape (f a) n (members st c) st Hmem)
      as (st' & Hrun & Hn & Hmm & Hg).
    exists (Normal answer), st'. unfold sbind, sret. rewrite Hrun. auto.
  - exists (Throw e), st. split; [reflexivity |]. split; [eauto | auto].
Qed.

Lemma copy_read_then_members {A} (m : ref -> St A) (f : A -> G -> G)
    (st : @store G) (this : ref) (answer : ref -> ref) (r : completion ref * @store G) :
  (forall c, reads (m c)) ->
  (forall c st1, _copy this st = (Normal c, st1) ->
     let inner := sbind (m c) (fun a => fun st =>
                    sbind (sforEach (onShape (f a)) (members st c))
                          (fun _ => sret (answer c)) st) in
     r = inner st1 \/ r = sbind inner (fun _ => sret (answer c)) st1) ->
  extends st (snd r) /\
  forall res, fst r = Normal res ->
              exists c, res = answer c /\ ~ allocated st c /\ allocated (snd r) c.
Proof.
  intros Hm Hr.
  destruct (_copy_makes_new_objects st this) as (res & st1 & Hcopy & Hna & Ha & Hmem & Hf).
  destruct (read_then_members (m res) f res (answer res) (next st) st1 (Hm res) Hmem)
    as (out & st' & Hrun & Hout & Hn & Hmm & Hg).
  assert (Hr' : r = (out, st')).
  { destruct (Hr res st1 Hcopy) as [-> | ->]; [exact Hrun |].
    unfold sbind at 1. rewrite Hrun. destruct Hout as [-> | [e ->]]; reflexivity. }
  subst r. unfold allocated in *. cbn [fst snd]. rewrite Hn. split.
  - split; [lia |]. intros r Hr'. rewrite (Hg r Hr'), Hmm. apply Hf. exact Hr'.
  - intros res' Hres. destruct Hout as [Hout | [e Hout]];
      rewrite Hout in Hres; [| discriminate].
    inversion Hres; subst res'. exists res. auto.
Qed.

Lemma copies_of_answer (st : @store G) (r : completion ref * @store G) :
  (extends st (snd r) /\
   forall res, fst r = Normal res ->
               exists c, res = c /\ ~ allocated st c /\ allocated (snd r) c) ->
  copies st r.
Proof.
  intros [He Hres]. split; [exact He |].
  intros res Hr. destruct (Hres res Hr) as (c & -> & H). exact H.
Qed.

(** X25.  [moved], [mirroredX], [scaled] and [rotatedEuler] leave every
    Shape object and every collection that existed as it was, whether
    they return or throw; what [moved], [mirroredX] and [scaled] return
    is a collection that did not exist before; [rotatedEuler] returns
    [this]. *)
Theorem copy_variants_leave_the_originals (st : @store G) (this : ref)
    (vector : Vector.t) (degX degY degZ : number) (pivot : Pivot)
    (offset : option number) (factor : number) :
  copies st (moved this vector st) /\
  copies st (mirroredX this offset st) /\
  copies st (scaled this factor st) /\
  extends st (snd (rotatedEuler this degX degY degZ pivot st)) /\
  (forall res, fst (rotatedEuler this degX degY degZ pivot st) = Normal res -> res = this).
Proof.
  split; [| split; [| split; [| split]]].
  - apply copies_of_answer.
    apply (copy_read_then_members (fun _ => sret tt) (fun _ => geom_move vector) st this
             (fun c => c)).
    + intros c st'. reflexivity.
    + intros c st1 Hc. left.
      unfold moved, copy. unfold sbind at 1. rewrite Hc. reflexivity.
  - apply copies_of_answer.
    apply (copy_read_then_members (fun c => offsetOrCenterY c offset) geom_mirrorX st this
             (fun c => c)).
    + intros c. apply offsetOrCenterY_reads.
    + intros c st1 Hc. right.
      unfold mirroredX, copy. unfold sbind at 1. rewrite Hc. reflexivity.
  - apply copies_of_answer.
    apply (copy_read_then_members (fun c => center c) (geom_scale factor) st this
             (fun c => c)).
    + intros c. apply center_reads.
    + intros c st1 Hc. right.
      unfold scaled. unfold sbind at 1. rewrite Hc. reflexivity.
  - apply (copy_read_then_members (fun _ => resolvePivot this pivot)
             (geom_rotateEuler degX degY degZ) st this (fun _ => this)).
    + intros c. apply resolvePivot_reads.
    + intros c st1 Hc. left.
      unfold rotatedEuler, copy. unfold sbind at 1. rewrite Hc. reflexivity.
  - intros res. destruct (rotatedEuler this degX degY degZ pivot st) as [r st'] eqn:E.
    cbn. intros ->. eapply rotatedEuler_returns_this; eauto.
Qed.

(** *** [mirrorX] and its offset *)

(** X26.  [mirrorX(offset)] takes the offset 0 for no offset: it then
    mirrors about the y of [center()], as it does without an offset, and
    on a collection without shapes it throws a TypeError and changes
    nothing.  With an offset other than 0 it returns [this], and every
    member has been through the member's [mirrorX(offset)] once for every
    time it is listed. *)
Theorem mirrorX_reads_offset_zero_as_none (st : @store G) (this : ref) (offset : number) :
  (offset == 0 -> mirrorX this (Some offset) st = mirrorX this None st) /\
  (members st this = [] ->
   mirrorX this None st = (Throw (TypeError "this.center() is null"), st)) /\
  (~ offset == 0 ->
   exists st',
     mirrorX this (Some offset) st = (Normal this, st') /\
     next st' = next st /\ members st' = members st /\
     forall r, geometry st' r
               = Nat.iter (count_occ Nat.eq_dec (members st this) r)
                          (geom_mirrorX (Some offset)) (geometry st r)).
Proof.
  split; [| split].
  - intros H0. unfold mirrorX, offsetOrCenterY.
    apply eqb_eq in H0. rewrite H0. reflexivity.
  - intros Hempty. unfold mirrorX, offsetOrCenterY, sbind, center. rewrite Hempty.
    reflexivity.
  - intros Hne. unfold mirrorX, offsetOrCenterY.
    assert (E : eqb offset 0 = false).
    { apply not_true_iff_false. intros E. apply eqb_eq in E. contradiction. }
    rewrite E.
    destruct (sforEach_onShape_iter (geom_mirrorX (Some offset)) (members st this) st)
      as (st' & Hrun & H).
    exists st'. split; [| exact H]. unfold sbind, sret. rewrite Hrun. reflexivity.
Qed.

End InPlace.

End HeapProofs.
